(** * Edge store (edge_io.h) and unitig graph adapters (unitig_graph.h)

    A shallow embedding of the partitioned edge store -- [EdgeWriter],
    [EdgeReader] -- and of the generic adapter algorithms of
    [UnitigGraph::AdapterImpl], with the properties established for them. *)

From Stdlib Require Import Ascii.
From stdpp Require Import base numbers list strings gmap pretty.

Local Open Scope Z_scope.

(* ===================================================================== *)
(** * Part I: definitions *)
(* ===================================================================== *)

(** ** Outcomes of a call

    Every failure of the C++ code is fatal.  [AssertionFailed] is a failed
    [assert]; [OutOfBounds] is an access outside a vector, a buffer or a
    mapping (undefined behaviour in C++); [LengthError] is a [resize] to a
    negative size; [IOFailure] is a file that cannot be opened or a stream
    that is not open; [KeyNotFound] is [at] on a key that is absent;
    [NullDeref] is a call through an adapter without a vertex. *)
Inductive fault :=
  | AssertionFailed | OutOfBounds | LengthError | IOFailure
  | KeyNotFound | NullDeref.

Inductive res (A : Type) : Type :=
  | Ret (a : A)
  | Abort (f : fault).
Arguments Ret {A} a.
Arguments Abort {A} f.

#[global] Instance res_ret : MRet res := λ A a, Ret a.
#[global] Instance res_bind : MBind res := λ A B k m,
  match m with
  | Ret a => k a
  | Abort f => Abort f
  end.

#[global] Instance res_fmap : FMap res := λ A B f m,
  match m with
  | Ret a => Ret (f a)
  | Abort e => Abort e
  end.

#[global] Instance fault_eq_dec : EqDecision fault.
Proof. solve_decision. Defined.

Definition assert (b : bool) : res unit :=
  if b then Ret tt else Abort AssertionFailed.

(** ** Vectors indexed by C integers *)

(** [v[i]] for reading: outside the vector the behaviour is undefined. *)
Definition vec_at {A} (v : list A) (i : Z) : res A :=
  if decide (0 ≤ i) then
    match v !! Z.to_nat i with
    | Some x => Ret x
    | None => Abort OutOfBounds
    end
  else Abort OutOfBounds.

(** [v[i] = x]. *)
Definition vec_set {A} (v : list A) (i : Z) (x : A) : res (list A) :=
  if decide (0 ≤ i) then
    if decide (Z.to_nat i < length v)%nat then Ret (<[Z.to_nat i := x]> v)
    else Abort OutOfBounds
  else Abort OutOfBounds.

(** [v.resize(n, d)]: the count is converted to [size_t], so a negative
    count asks for more than [max_size()] elements. *)
Definition vresize {A} (n : Z) (d : A) (v : list A) : res (list A) :=
  if decide (0 ≤ n) then Ret (resize (Z.to_nat n) d v) else Abort LengthError.

(** [for (int i = from; i < from + n; ++i) body], threading the state. *)
Fixpoint for_range {S} (from : Z) (n : nat) (body : Z → S → res S) (s : S)
  : res S :=
  match n with
  | O => Ret s
  | S n' => s' ← body from s; for_range (from + 1) n' body s'
  end.

Definition sumZ (l : list Z) : Z := foldr Z.add 0 l.

(** ** 32-bit arithmetic *)

(** The value of an [int32_t] expression after wrap-around. *)
Definition wrap32 (z : Z) : Z := (z + 2 ^ 31) `mod` 2 ^ 32 - 2 ^ 31.

(** Modelled from the spec: [DivCeiling] of utils.h, which is not part of the
    sources at hand; the spec gives the derived quantity as
    [ceil(((k+1)*2+16)/32)], so [DivCeiling a b] is the ceiling of [a / b]. *)
Definition DivCeiling (a b : Z) : Z := - ((- a) `div` b).

(** ** The file system and the open streams *)

(** The metadata file is text written by [fprintf] and read back by
    [fscanf]; white space only separates, so the text is a sequence of
    literal words and decimal integers. *)
Inductive token :=
  | Lit (s : string)
  | Int (z : Z).

(** A binary edge file is a sequence of 32-bit words. *)
Inductive file_content :=
  | Binary (ws : list Z)
  | Text (toks : list token).

(** [streams] is the table of streams and descriptors handed out so far: a
    slot holds the name of the file while the stream is open. *)
Record World := mkWorld {
  fs : gmap string file_content;
  streams : list (option string)
}.

Definition NULLFILE : Z := -1.

(** [fopen(name, "w")] / [fopen(name, "wb")]: creates or truncates. *)
Definition fopen_w (name : string) (empty : file_content) (W : World)
  : Z * World :=
  (Z.of_nat (length (streams W)),
   {| fs := <[name := empty]> (fs W); streams := streams W ++ [Some name] |}).

Definition stream_name (h : Z) (W : World) : res string :=
  if decide (0 ≤ h) then
    match streams W !! Z.to_nat h with
    | Some (Some name) => Ret name
    | _ => Abort IOFailure
    end
  else Abort IOFailure.

(** [fclose(h)] and [close(fd)]. *)
Definition fclose (h : Z) (W : World) : res World :=
  _ ← stream_name h W;
  Ret {| fs := fs W; streams := <[Z.to_nat h := None]> (streams W) |}.

(** [fwrite(ptr, sizeof(uint32_t), count, h)]: [buf] is the memory at [ptr]. *)
Definition fwrite (buf : list Z) (count : Z) (h : Z) (W : World) : res World :=
  name ← stream_name h W;
  if decide (0 ≤ count ∧ (Z.to_nat count ≤ length buf)%nat) then
    match fs W !! name with
    | Some (Binary ws) =>
        Ret {| fs := <[name := Binary (ws ++ take (Z.to_nat count) buf)]> (fs W);
               streams := streams W |}
    | _ => Abort IOFailure
    end
  else Abort OutOfBounds.

(** [fprintf(h, ...)], appending the tokens printed. *)
Definition fprintf (h : Z) (out : list token) (W : World) : res World :=
  name ← stream_name h W;
  match fs W !! name with
  | Some (Text toks) =>
      Ret {| fs := <[name := Text (toks ++ out)]> (fs W); streams := streams W |}
  | _ => Abort IOFailure
  end.

(** [FormatString("%s.edges.%d", prefix, i)] and
    [FormatString("%s.edges.info", prefix)]. *)
Definition edges_file_name (prefix : string) (i : Z) : string :=
  prefix +:+ ".edges." +:+ pretty i.

Definition info_file_name (prefix : string) : string :=
  prefix +:+ ".edges.info".

(** ** PartitionRecord *)

Record PartitionRecord := mkPartitionRecord {
  thread_id : Z;
  starting_offset : Z;
  total_number : Z
}.

(** [PartitionRecord(): thread_id(-1), starting_offset(0), total_number(0)] *)
Definition PartitionRecord_new : PartitionRecord :=
  {| thread_id := -1; starting_offset := 0; total_number := 0 |}.

(** ** EdgeWriter *)

Module EdgeWriter.

Record t := mk {
  kmer_size_ : Z;
  words_per_edge_ : Z;
  num_threads_ : Z;
  num_buckets_ : Z;
  unsorted_ : bool;
  num_unsorted_edges_ : list Z;
  file_prefix_ : string;
  files_ : list Z;
  cur_bucket_ : list Z;
  cur_num_edges_ : list Z;
  p_rec_ : list PartitionRecord;
  is_opened_ : bool
}.

(** [EdgeWriter(): unsorted_(false), is_opened_(false)].  The four integer
    members are left uninitialised: their values are whatever [k0], [w0],
    [n0] and [b0] the memory holds. *)
Definition new (k0 w0 n0 b0 : Z) : t :=
  {| kmer_size_ := k0; words_per_edge_ := w0; num_threads_ := n0;
     num_buckets_ := b0; unsorted_ := false; num_unsorted_edges_ := [];
     file_prefix_ := ""; files_ := []; cur_bucket_ := [];
     cur_num_edges_ := []; p_rec_ := []; is_opened_ := false |}.

Definition set_kmer_size (k : Z) (w : t) : t :=
  {| kmer_size_ := k;
     words_per_edge_ :=
       DivCeiling (wrap32 (wrap32 (wrap32 (k + 1) * 2) + 16)) 32;
     num_threads_ := num_threads_ w; num_buckets_ := num_buckets_ w;
     unsorted_ := unsorted_ w; num_unsorted_edges_ := num_unsorted_edges_ w;
     file_prefix_ := file_prefix_ w; files_ := files_ w;
     cur_bucket_ := cur_bucket_ w; cur_num_edges_ := cur_num_edges_ w;
     p_rec_ := p_rec_ w; is_opened_ := is_opened_ w |}.

Definition set_num_threads (num_threads : Z) (w : t) : t :=
  {| kmer_size_ := kmer_size_ w; words_per_edge_ := words_per_edge_ w;
     num_threads_ := num_threads; num_buckets_ := num_buckets_ w;
     unsorted_ := unsorted_ w; num_unsorted_edges_ := num_unsorted_edges_ w;
     file_prefix_ := file_prefix_ w; files_ := files_ w;
     cur_bucket_ := cur_bucket_ w; cur_num_edges_ := cur_num_edges_ w;
     p_rec_ := p_rec_ w; is_opened_ := is_opened_ w |}.

Definition set_file_prefix (prefix : string) (w : t) : t :=
  {| kmer_size_ := kmer_size_ w; words_per_edge_ := words_per_edge_ w;
     num_threads_ := num_threads_ w; num_buckets_ := num_buckets_ w;
     unsorted_ := unsorted_ w; num_unsorted_edges_ := num_unsorted_edges_ w;
     file_prefix_ := prefix; files_ := files_ w;
     cur_bucket_ := cur_bucket_ w; cur_num_edges_ := cur_num_edges_ w;
     p_rec_ := p_rec_ w; is_opened_ := is_opened_ w |}.

Definition set_num_buckets (num_buckets : Z) (w : t) : t :=
  {| kmer_size_ := kmer_size_ w; words_per_edge_ := words_per_edge_ w;
     num_threads_ := num_threads_ w; num_buckets_ := num_buckets;
     unsorted_ := unsorted_ w; num_unsorted_edges_ := num_unsorted_edges_ w;
     file_prefix_ := file_prefix_ w; files_ := files_ w;
     cur_bucket_ := cur_bucket_ w; cur_num_edges_ := cur_num_edges_ w;
     p_rec_ := p_rec_ w; is_opened_ := is_opened_ w |}.

Definition set_unsorted (w : t) : res t :=
  nu ← vresize (num_threads_ w) 0 [];
  Ret {| kmer_size_ := kmer_size_ w; words_per_edge_ := words_per_edge_ w;
         num_threads_ := num_threads_ w; num_buckets_ := 0;
         unsorted_ := true; num_unsorted_edges_ := nu;
         file_prefix_ := file_prefix_ w; files_ := files_ w;
         cur_bucket_ := cur_bucket_ w; cur_num_edges_ := cur_num_edges_ w;
         p_rec_ := []; is_opened_ := is_opened_ w |}.

(** The members a call of [init_files], [write] or [destroy] assigns. *)
Definition with_vectors (files : list Z) (cb cn : list Z)
    (pr : list PartitionRecord) (opened : bool) (w : t) : t :=
  {| kmer_size_ := kmer_size_ w; words_per_edge_ := words_per_edge_ w;
     num_threads_ := num_threads_ w; num_buckets_ := num_buckets_ w;
     unsorted_ := unsorted_ w; num_unsorted_edges_ := num_unsorted_edges_ w;
     file_prefix_ := file_prefix_ w; files_ := files;
     cur_bucket_ := cb; cur_num_edges_ := cn;
     p_rec_ := pr; is_opened_ := opened |}.

Definition with_num_unsorted_edges (nu : list Z) (w : t) : t :=
  {| kmer_size_ := kmer_size_ w; words_per_edge_ := words_per_edge_ w;
     num_threads_ := num_threads_ w; num_buckets_ := num_buckets_ w;
     unsorted_ := unsorted_ w; num_unsorted_edges_ := nu;
     file_prefix_ := file_prefix_ w; files_ := files_ w;
     cur_bucket_ := cur_bucket_ w; cur_num_edges_ := cur_num_edges_ w;
     p_rec_ := p_rec_ w; is_opened_ := is_opened_ w |}.

(** The loop of [init_files]:
    [files_[i] = OpenFileAndCheck(FormatString("%s.edges.%d", ...), "wb")]. *)
Definition open_thread_file (prefix : string) (i : Z)
    (s : list Z * World) : res (list Z * World) :=
  let '(h, W') := fopen_w (edges_file_name prefix i) (Binary []) s.2 in
  files ← vec_set s.1 i h;
  Ret (files, W').

Definition init_files (w : t) (W : World) : res (t * World) :=
  _ ← assert (negb (is_opened_ w));
  files ← vresize (num_threads_ w) NULLFILE (files_ w);
  cb ← vresize (num_threads_ w) (-1) (cur_bucket_ w);
  cn ← vresize (num_threads_ w) 0 (cur_num_edges_ w);
  pr ← vresize (num_buckets_ w) PartitionRecord_new (p_rec_ w);
  '(files', W') ← for_range 0 (Z.to_nat (num_threads_ w))
                     (open_thread_file (file_prefix_ w)) (files, W);
  Ret (with_vectors files' cb cn pr true w, W').

(** The body of [if (bucket != cur_bucket_[tid])] in [write]. *)
Definition claim (bucket tid : Z) (w : t) : res t :=
  pr ← vec_at (p_rec_ w) bucket;
  _ ← assert (bool_decide (thread_id pr = -1));
  n ← vec_at (cur_num_edges_ w) tid;
  prs ← vec_set (p_rec_ w) bucket
          {| thread_id := tid; starting_offset := n;
             total_number := total_number pr |};
  cbs ← vec_set (cur_bucket_ w) tid bucket;
  Ret (with_vectors (files_ w) cbs (cur_num_edges_ w) prs (is_opened_ w) w).

Definition write (edge_ptr : list Z) (bucket tid : Z) (w : t) (W : World)
  : res (t * World) :=
  cb ← vec_at (cur_bucket_ w) tid;
  w1 ← (if decide (bucket ≠ cb) then claim bucket tid w else Ret w);
  f ← vec_at (files_ w1) tid;
  W' ← fwrite edge_ptr (words_per_edge_ w1) f W;
  n ← vec_at (cur_num_edges_ w1) tid;
  cn ← vec_set (cur_num_edges_ w1) tid (n + 1);
  pr ← vec_at (p_rec_ w1) bucket;
  prs ← vec_set (p_rec_ w1) bucket
          {| thread_id := thread_id pr; starting_offset := starting_offset pr;
             total_number := total_number pr + 1 |};
  Ret (with_vectors (files_ w1) (cur_bucket_ w1) cn prs (is_opened_ w1) w1, W').

Definition write_unsorted (edge_ptr : list Z) (tid : Z) (w : t) (W : World)
  : res (t * World) :=
  f ← vec_at (files_ w) tid;
  W' ← fwrite edge_ptr (words_per_edge_ w) f W;
  n ← vec_at (num_unsorted_edges_ w) tid;
  nu ← vec_set (num_unsorted_edges_ w) tid (n + 1);
  Ret (with_num_unsorted_edges nu w, W').

(** The lines [destroy] prints after the header. *)
Definition bucket_line (i : nat) (p : PartitionRecord) : list token :=
  [Int (Z.of_nat i); Int (thread_id p); Int (starting_offset p);
   Int (total_number p)].

Definition file_line (i : nat) (n : Z) : list token :=
  [Int (Z.of_nat i); Int n].

Definition info_text (w : t) (num_edges : Z) : list token :=
  [Lit "kmer_size"; Int (kmer_size_ w);
   Lit "words_per_edge"; Int (words_per_edge_ w);
   Lit "num_threads"; Int (num_threads_ w);
   Lit "num_bucket"; Int (num_buckets_ w);
   Lit "num_edges"; Int num_edges]
  ++ concat (imap bucket_line (p_rec_ w))
  ++ concat (imap file_line (num_unsorted_edges_ w)).

Definition destroy (w : t) (W : World) : res (t * World) :=
  if is_opened_ w then
    W1 ← for_range 0 (Z.to_nat (num_threads_ w))
           (λ i W, f ← vec_at (files_ w) i; fclose f W) W;
    let num_edges :=
      if negb (unsorted_ w) then sumZ (total_number <$> p_rec_ w)
      else sumZ (num_unsorted_edges_ w) in
    let '(info, W2) := fopen_w (info_file_name (file_prefix_ w)) (Text []) W1 in
    W3 ← fprintf info (info_text w num_edges) W2;
    W4 ← fclose info W3;
    Ret (with_vectors [] [] [] [] false w, W4)
  else Ret (w, W).

End EdgeWriter.

(** ** EdgeReader *)

Module EdgeReader.

(** A [uint32_t*]: the mapping it points into and the offset in words.  A
    mapping is read-only and the files are final once the writer has closed,
    so the words of the mapping stand for the memory itself. *)
Inductive ptr :=
  | NULL
  | Ptr (mem : list Z) (off : Z).

Definition ptr_add (p : ptr) (n : Z) : ptr :=
  match p with
  | NULL => NULL
  | Ptr mem off => Ptr mem (off + n)
  end.

(** The [n] words a caller reads at [p]. *)
Definition load (p : ptr) (n : Z) : res (list Z) :=
  match p with
  | NULL => Abort NullDeref
  | Ptr mem off =>
      if decide (0 ≤ off ∧ 0 ≤ n ∧ off + n ≤ Z.of_nat (length mem)) then
        Ret (take (Z.to_nat n) (drop (Z.to_nat off) mem))
      else Abort OutOfBounds
  end.

Record t := mk {
  kmer_size_ : Z;
  words_per_edge_ : Z;
  num_files_ : Z;
  num_buckets_ : Z;
  num_edges_ : Z;
  file_prefix_ : string;
  fds_ : list Z;
  mmaps_ : list ptr;
  p_rec_ : list PartitionRecord;
  file_sizes_ : list Z;
  cur_bucket_ : Z;
  cur_file_num_ : Z;
  cur_cnt_ : Z;
  cur_vol_ : Z;
  cur_ptr_ : ptr;
  is_opened_ : bool
}.

(** [EdgeReader(): is_opened_(false)]: the scalar members keep the
    indeterminate values found in [u]; the vectors and the prefix start
    empty. *)
Definition new (u : t) : t :=
  {| kmer_size_ := kmer_size_ u; words_per_edge_ := words_per_edge_ u;
     num_files_ := num_files_ u; num_buckets_ := num_buckets_ u;
     num_edges_ := num_edges_ u; file_prefix_ := "";
     fds_ := []; mmaps_ := []; p_rec_ := []; file_sizes_ := [];
     cur_bucket_ := cur_bucket_ u; cur_file_num_ := cur_file_num_ u;
     cur_cnt_ := cur_cnt_ u; cur_vol_ := cur_vol_ u; cur_ptr_ := cur_ptr_ u;
     is_opened_ := false |}.

Definition set_file_prefix (prefix : string) (r : t) : t :=
  {| kmer_size_ := kmer_size_ r; words_per_edge_ := words_per_edge_ r;
     num_files_ := num_files_ r; num_buckets_ := num_buckets_ r;
     num_edges_ := num_edges_ r; file_prefix_ := prefix;
     fds_ := fds_ r; mmaps_ := mmaps_ r; p_rec_ := p_rec_ r;
     file_sizes_ := file_sizes_ r;
     cur_bucket_ := cur_bucket_ r; cur_file_num_ := cur_file_num_ r;
     cur_cnt_ := cur_cnt_ r; cur_vol_ := cur_vol_ r; cur_ptr_ := cur_ptr_ r;
     is_opened_ := is_opened_ r |}.

(** The members [read_info] assigns. *)
Definition with_info (k wpe nf nb ne : Z) (pr : list PartitionRecord)
    (fsz : list Z) (r : t) : t :=
  {| kmer_size_ := k; words_per_edge_ := wpe;
     num_files_ := nf; num_buckets_ := nb;
     num_edges_ := ne; file_prefix_ := file_prefix_ r;
     fds_ := fds_ r; mmaps_ := mmaps_ r; p_rec_ := pr;
     file_sizes_ := fsz;
     cur_bucket_ := cur_bucket_ r; cur_file_num_ := cur_file_num_ r;
     cur_cnt_ := cur_cnt_ r; cur_vol_ := cur_vol_ r; cur_ptr_ := cur_ptr_ r;
     is_opened_ := is_opened_ r |}.

(** The members [init_files] and [destroy] assign. *)
Definition with_files (fds : list Z) (mm : list ptr) (fsz : list Z)
    (opened : bool) (r : t) : t :=
  {| kmer_size_ := kmer_size_ r; words_per_edge_ := words_per_edge_ r;
     num_files_ := num_files_ r; num_buckets_ := num_buckets_ r;
     num_edges_ := num_edges_ r; file_prefix_ := file_prefix_ r;
     fds_ := fds; mmaps_ := mm; p_rec_ := p_rec_ r;
     file_sizes_ := fsz;
     cur_bucket_ := cur_bucket_ r; cur_file_num_ := cur_file_num_ r;
     cur_cnt_ := cur_cnt_ r; cur_vol_ := cur_vol_ r; cur_ptr_ := cur_ptr_ r;
     is_opened_ := opened |}.

(** The cursor: the members the two pull methods assign. *)
Definition with_cursor (b f cnt vol : Z) (p : ptr) (r : t) : t :=
  {| kmer_size_ := kmer_size_ r; words_per_edge_ := words_per_edge_ r;
     num_files_ := num_files_ r; num_buckets_ := num_buckets_ r;
     num_edges_ := num_edges_ r; file_prefix_ := file_prefix_ r;
     fds_ := fds_ r; mmaps_ := mmaps_ r; p_rec_ := p_rec_ r;
     file_sizes_ := file_sizes_ r;
     cur_bucket_ := b; cur_file_num_ := f;
     cur_cnt_ := cnt; cur_vol_ := vol; cur_ptr_ := p;
     is_opened_ := is_opened_ r |}.

(** [OpenFileAndCheck(name, "r")] on the metadata file: the stream and the
    text it will deliver. *)
Definition fopen_r (name : string) (W : World)
  : res (Z * list token * World) :=
  match fs W !! name with
  | Some (Text toks) =>
      Ret (Z.of_nat (length (streams W)), toks,
           {| fs := fs W; streams := streams W ++ [Some name] |})
  | _ => Abort IOFailure
  end.

(** [assert(fscanf(info, "<key> %d\n", &x) == 1)] *)
Definition scan_key (key : string) (toks : list token)
  : res (Z * list token) :=
  match toks with
  | Lit s :: Int v :: rest =>
      if decide (s = key) then Ret (v, rest) else Abort AssertionFailed
  | _ => Abort AssertionFailed
  end.

(** [assert(fscanf(info, "%u %d %lld %lld\n", ...) == 4)] *)
Definition scan_bucket_line (toks : list token)
  : res (Z * Z * Z * Z * list token) :=
  match toks with
  | Int a :: Int b :: Int c :: Int d :: rest => Ret (a, b, c, d, rest)
  | _ => Abort AssertionFailed
  end.

(** [assert(fscanf(info, "%d %lld\n", ...) == 2)] *)
Definition scan_file_line (toks : list token) : res (Z * Z * list token) :=
  match toks with
  | Int a :: Int b :: rest => Ret (a, b, rest)
  | _ => Abort AssertionFailed
  end.

(** [v[i] += n] on a vector of [long long].  Inside the vector the element
    is read and the sum stored.  The bucket loop of [read_info] also gets
    here with [i = -1], the thread id of a bucket without owner: the word
    read is then the one in front of the elements, in the heap block of a
    vector that holds elements, and with [n = 0] the value read is stored
    back, so that nothing changes.  Every other access outside of the vector
    changes memory that is not the vector's, or has no block to read from
    (a vector without elements): there the behaviour is undefined. *)
Definition vec_add (v : list Z) (i n : Z) : res (list Z) :=
  match vec_at v i with
  | Ret old => vec_set v i (old + n)
  | Abort e => if decide (i = -1 ∧ n = 0 ∧ v ≠ []) then Ret v else Abort e
  end.

(** One round of the bucket loop of [read_info]; the state is the bucket
    table, the file sizes and the text still to be read. *)
Definition read_bucket (i : Z)
    (s : list PartitionRecord * list Z * list token)
  : res (list PartitionRecord * list Z * list token) :=
  let '(pr, fsz, toks) := s in
  '(_, tid, off, tot, rest) ← scan_bucket_line toks;
  pr' ← vec_set pr i
          {| thread_id := tid; starting_offset := off; total_number := tot |};
  fsz' ← vec_add fsz tid tot;
  Ret (pr', fsz', rest).

Definition read_file_size (i : Z) (s : list Z * list token)
  : res (list Z * list token) :=
  let '(fsz, toks) := s in
  '(_, n, rest) ← scan_file_line toks;
  fsz' ← vec_set fsz i n;
  Ret (fsz', rest).

Definition read_info (r : t) (W : World) : res (t * World) :=
  '(info, toks, W1) ← fopen_r (info_file_name (file_prefix_ r)) W;
  '(k, toks) ← scan_key "kmer_size" toks;
  '(wpe, toks) ← scan_key "words_per_edge" toks;
  '(nf, toks) ← scan_key "num_threads" toks;
  '(nb, toks) ← scan_key "num_bucket" toks;
  '(ne, toks) ← scan_key "num_edges" toks;
  pr ← vresize nb PartitionRecord_new (p_rec_ r);
  fsz ← vresize nf 0 (file_sizes_ r);
  '(pr, fsz, toks) ← for_range 0 (Z.to_nat nb) read_bucket (pr, fsz, toks);
  '(fsz, toks) ←
    (if decide (nb = 0) then
       for_range 0 (Z.to_nat nf) read_file_size (fsz, toks)
     else Ret (fsz, toks));
  W2 ← fclose info W1;
  Ret (with_info k wpe nf nb ne pr fsz r, W2).

(** [open(name, O_RDONLY)]: [-1] when there is no such file. *)
Definition open_rdonly (name : string) (W : World) : Z * World :=
  match fs W !! name with
  | Some _ =>
      (Z.of_nat (length (streams W)),
       {| fs := fs W; streams := streams W ++ [Some name] |})
  | None => (-1, W)
  end.

(** [mmap(NULL, len, PROT_READ, MAP_SHARED, fd, 0)] with [len] counted in
    words: the words of the file the mapping gives access to.  A failed
    mapping is [MAP_FAILED], which is not [NULL] and gives access to
    nothing. *)
Definition mmap (len : Z) (fd : Z) (W : World) : ptr :=
  match stream_name fd W with
  | Ret name =>
      match fs W !! name with
      | Some (Binary ws) => Ptr (take (Z.to_nat len) ws) 0
      | _ => Ptr [] 0
      end
  | Abort _ => Ptr [] 0
  end.

Definition is_null (p : ptr) : bool :=
  match p with NULL => true | Ptr _ _ => false end.

(** One round of the loop of [init_files]. *)
Definition map_file (r : t) (i : Z) (s : list Z * list ptr * World)
  : res (list Z * list ptr * World) :=
  let '(fds, mm, W) := s in
  let '(fd, W1) := open_rdonly (edges_file_name (file_prefix_ r) i) W in
  fds' ← vec_set fds i fd;
  _ ← assert (bool_decide (fd ≠ -1));
  fsz ← vec_at (file_sizes_ r) i;
  let p := mmap (fsz * words_per_edge_ r) fd W1 in
  mm' ← vec_set mm i p;
  _ ← assert (negb (is_null p));
  Ret (fds', mm', W1).

Definition is_unsorted (r : t) : bool := bool_decide (num_buckets_ r = 0).

Definition init_files (r : t) (W : World) : res (t * World) :=
  _ ← assert (negb (is_opened_ r));
  fds ← vresize (num_files_ r) 0 (fds_ r);
  mm ← vresize (num_files_ r) NULL (mmaps_ r);
  '(fds, mm, W') ← for_range 0 (Z.to_nat (num_files_ r)) (map_file r)
                     (fds, mm, W);
  let r1 := with_files fds mm (file_sizes_ r) true r in
  Ret (with_cursor (-1)
         (if is_unsorted r then -1 else cur_file_num_ r) 0 0 (cur_ptr_ r) r1,
       W').

Definition kmer_size (r : t) : Z := kmer_size_ r.
Definition words_per_edge (r : t) : Z := words_per_edge_ r.
Definition num_edges (r : t) : Z := num_edges_ r.

Definition set_cur_bucket (b : Z) (r : t) : t :=
  with_cursor b (cur_file_num_ r) (cur_cnt_ r) (cur_vol_ r) (cur_ptr_ r) r.

(** The inner loop of [NextSortedEdge]:
    [while (cur_bucket_ < num_buckets_ && p_rec_[cur_bucket_].thread_id < 0)
       ++cur_bucket_;]
    [fuel] bounds the number of rounds; [None] reports that it did not
    suffice. *)
Fixpoint skip_unowned (fuel : nat) (r : t) : res (option t) :=
  if decide (cur_bucket_ r < num_buckets_ r) then
    pr ← vec_at (p_rec_ r) (cur_bucket_ r);
    if decide (thread_id pr < 0) then
      match fuel with
      | O => Ret None
      | S fuel' => skip_unowned fuel' (set_cur_bucket (cur_bucket_ r + 1) r)
      end
    else Ret (Some r)
  else Ret (Some r).

(** The last three statements of both pull methods. *)
Definition yield (r : t) : ptr * t :=
  let r' := with_cursor (cur_bucket_ r) (cur_file_num_ r) (cur_cnt_ r + 1)
              (cur_vol_ r) (ptr_add (cur_ptr_ r) (words_per_edge_ r)) r in
  (ptr_add (cur_ptr_ r') (- words_per_edge_ r'), r').

(** The outer loop of [NextSortedEdge] and what follows it. *)
Fixpoint sorted_loop (fuel : nat) (r : t) : res (option (ptr * t)) :=
  if decide (cur_vol_ r ≤ cur_cnt_ r) then
    match fuel with
    | O => Ret None
    | S fuel' =>
        o ← skip_unowned fuel' (set_cur_bucket (cur_bucket_ r + 1) r);
        match o with
        | None => Ret None
        | Some r1 =>
            if decide (num_buckets_ r1 ≤ cur_bucket_ r1) then
              Ret (Some (NULL, r1))
            else
              pr ← vec_at (p_rec_ r1) (cur_bucket_ r1);
              base ← vec_at (mmaps_ r1) (thread_id pr);
              sorted_loop fuel'
                (with_cursor (cur_bucket_ r1) (cur_file_num_ r1) 0
                   (total_number pr)
                   (ptr_add base (words_per_edge_ r1 * starting_offset pr))
                   r1)
        end
    end
  else Ret (Some (yield r)).

(** Each round of either loop of [NextSortedEdge] advances [cur_bucket_],
    and both stop at [num_buckets_]. *)
Definition sorted_fuel (r : t) : nat :=
  S (Z.to_nat (num_buckets_ r - cur_bucket_ r)).

Definition NextSortedEdge_fuel (fuel : nat) (r : t) : res (option (ptr * t)) :=
  if decide (num_buckets_ r ≤ cur_bucket_ r) then Ret (Some (NULL, r))
  else sorted_loop fuel r.




(** A loop that is cut short by its bound has no counterpart in the code;
    [sorted_fuel] and [unsorted_fuel] are bounds that always suffice (lemmas
    [sorted_loop_enough] and [unsorted_loop_enough]), so the two methods are
    total functions into [res]. *)
Definition finished {A} (d : A) (m : res (option A)) : res A :=
  o ← m; Ret (default d o).

Definition NextSortedEdge (r : t) : res (ptr * t) :=
  finished (NULL, r) (NextSortedEdge_fuel (sorted_fuel r) r).


(** [munmap(mmaps_[i], file_sizes_[i]); close(fds_[i]);]  The address space
    is not part of [World], so [munmap] only reads its two arguments. *)
Definition unmap_file (r : t) (i : Z) (W : World) : res World :=
  _ ← vec_at (mmaps_ r) i;
  _ ← vec_at (file_sizes_ r) i;
  fd ← vec_at (fds_ r) i;
  fclose fd W.

Definition destroy (r : t) (W : World) : res (t * World) :=
  if is_opened_ r then
    W' ← for_range 0 (Z.to_nat (num_files_ r)) (unmap_file r) W;
    Ret (with_files [] [] [] false r, W')
  else Ret (r, W).

End EdgeReader.

(** ** Sessions of the writer *)

Record write_call := mkCall {
  wc_edge : list Z;
  wc_bucket : Z;
  wc_tid : Z
}.

Definition do_write (c : write_call) (s : EdgeWriter.t * World)
  : res (EdgeWriter.t * World) :=
  EdgeWriter.write (wc_edge c) (wc_bucket c) (wc_tid c) s.1 s.2.

Fixpoint run_writes (log : list write_call) (s : EdgeWriter.t * World)
  : res (EdgeWriter.t * World) :=
  match log with
  | [] => Ret s
  | c :: log' => s' ← do_write c s; run_writes log' s'
  end.

Definition thread_log (t : Z) (log : list write_call) : list write_call :=
  filter (λ c, wc_tid c = t) log.

Definition bucket_log (b : Z) (log : list write_call) : list write_call :=
  filter (λ c, wc_bucket c = b) log.

Definition records (wpe : Z) (l : list write_call) : list (list Z) :=
  (λ c, take (Z.to_nat wpe) (wc_edge c)) <$> l.

Definition last_bucket (t : Z) (log : list write_call) : Z :=
  from_option wc_bucket (-1) (last (thread_log t log)).

Section writer_sessions.
Import EdgeWriter.

(** A writer that is not opened holds no vectors: so the constructor leaves
    it, and so does [destroy]. *)
Definition closed (w : EdgeWriter.t) : Prop :=
  is_opened_ w = false ∧ files_ w = [] ∧ cur_bucket_ w = []
  ∧ cur_num_edges_ w = [] ∧ p_rec_ w = [].

(** The state of a bucket after the calls [hist]: untouched, or claimed by
    the thread that wrote all of its records in one run. *)
Definition bucket_inv (N : Z) (b : Z) (pr : PartitionRecord)
    (hist : list write_call) : Prop :=
  (bucket_log b hist = [] ∧ pr = PartitionRecord_new)
  ∨ (0 ≤ thread_id pr < N
     ∧ ∃ pre run post,
         thread_log (thread_id pr) hist = pre ++ run ++ post
         ∧ bucket_log b hist = run
         ∧ run ≠ []
         ∧ starting_offset pr = Z.of_nat (length pre)
         ∧ total_number pr = Z.of_nat (length run)
         ∧ Forall (λ c, wc_bucket c ≠ b) pre
         ∧ Forall (λ c, wc_bucket c ≠ b) post).

(** The writer and the files after [init_files] and the calls [hist];
    [h0] is the number of streams handed out before [init_files]. *)
Record sorted_inv (h0 : nat) (hist : list write_call)
    (w : EdgeWriter.t) (W : World) : Prop := {
  inv_opened : is_opened_ w = true;
  inv_threads : 0 ≤ num_threads_ w;
  inv_buckets : 0 ≤ num_buckets_ w;
  inv_files_len : length (files_ w) = Z.to_nat (num_threads_ w);
  inv_cb_len : length (cur_bucket_ w) = Z.to_nat (num_threads_ w);
  inv_cn_len : length (cur_num_edges_ w) = Z.to_nat (num_threads_ w);
  inv_prec_len : length (p_rec_ w) = Z.to_nat (num_buckets_ w);
  inv_streams_len : (h0 + Z.to_nat (num_threads_ w) ≤ length (streams W))%nat;
  inv_thread : ∀ t, 0 ≤ t < num_threads_ w →
    vec_at (files_ w) t = Ret (Z.of_nat h0 + t)
    ∧ stream_name (Z.of_nat h0 + t) W
      = Ret (edges_file_name (file_prefix_ w) t)
    ∧ fs W !! edges_file_name (file_prefix_ w) t
      = Some (Binary (concat (records (words_per_edge_ w)
                                (thread_log t hist))))
    ∧ vec_at (cur_num_edges_ w) t = Ret (Z.of_nat (length (thread_log t hist)))
    ∧ vec_at (cur_bucket_ w) t = Ret (last_bucket t hist);
  inv_calls : Forall (λ c, 0 ≤ wc_tid c < num_threads_ w
                           ∧ 0 ≤ wc_bucket c < num_buckets_ w
                           ∧ 0 ≤ words_per_edge_ w
                           ∧ (Z.to_nat (words_per_edge_ w)
                              ≤ length (wc_edge c))%nat) hist;
  inv_bucket : ∀ b, 0 ≤ b < num_buckets_ w →
    ∃ pr, vec_at (p_rec_ w) b = Ret pr
          ∧ bucket_inv (num_threads_ w) b pr hist
}.

End writer_sessions.

(** Examples: a world without files and a two-thread writer for k = 21. *)
Definition empty_world : World := {| fs := ∅; streams := [] |}.

Definition ex_writer (num_buckets : Z) : EdgeWriter.t :=
  EdgeWriter.set_num_buckets num_buckets
    (EdgeWriter.set_file_prefix "out"
       (EdgeWriter.set_num_threads 2
          (EdgeWriter.set_kmer_size 21 (EdgeWriter.new 0 0 0 0)))).

Definition ex_log : list write_call :=
  [ {| wc_edge := [1; 2]; wc_bucket := 1; wc_tid := 0 |};
    {| wc_edge := [3; 4]; wc_bucket := 2; wc_tid := 1 |};
    {| wc_edge := [5; 6]; wc_bucket := 1; wc_tid := 0 |};
    {| wc_edge := [7; 8]; wc_bucket := 0; wc_tid := 0 |} ].

(** ** Unsorted stores and sessions of the reader *)

(** The slot of stream [h] exists and is closed. *)
Definition closed_stream (h : Z) (W : World) : Prop :=
  0 ≤ h ∧ streams W !! Z.to_nat h = Some None.

Record unsorted_call := mkUCall {
  uc_edge : list Z;
  uc_tid : Z
}.

Definition do_write_unsorted (c : unsorted_call) (s : EdgeWriter.t * World)
  : res (EdgeWriter.t * World) :=
  EdgeWriter.write_unsorted (uc_edge c) (uc_tid c) s.1 s.2.

Fixpoint run_unsorted (calls : list unsorted_call) (s : EdgeWriter.t * World)
  : res (EdgeWriter.t * World) :=
  match calls with
  | [] => Ret s
  | c :: calls' => s' ← do_write_unsorted c s; run_unsorted calls' s'
  end.

(** The records thread [t] wrote, in the order written. *)
Definition thread_edges (wpe : Z) (t : Z) (calls : list unsorted_call)
  : list (list Z) :=
  (λ c, take (Z.to_nat wpe) (uc_edge c)) <$> filter (λ c, uc_tid c = t) calls.

(** A store written in unsorted mode by a writer that was configured and
    not yet opened: the files it leaves. *)
Definition unsorted_store (w0 : EdgeWriter.t) (W0 : World)
    (calls : list unsorted_call) : res World :=
  w1 ← EdgeWriter.set_unsorted w0;
  s2 ← EdgeWriter.init_files w1 W0;
  s3 ← run_unsorted calls s2;
  s4 ← EdgeWriter.destroy s3.1 s3.2;
  Ret s4.2.

(** A reader made for the store: [read_info()], then [init_files()]. *)
Definition open_reader (prefix : string) (u : EdgeReader.t) (W : World)
  : res EdgeReader.t :=
  s1 ← EdgeReader.read_info
         (EdgeReader.set_file_prefix prefix (EdgeReader.new u)) W;
  s2 ← EdgeReader.init_files s1.1 s1.2;
  Ret s2.1.

Section unsorted_sessions.
Import EdgeWriter.

Record unsorted_inv (h0 : nat) (hist : list unsorted_call)
    (w : EdgeWriter.t) (W : World) : Prop := {
  uinv_opened : is_opened_ w = true;
  uinv_threads : 0 ≤ num_threads_ w;
  uinv_files_len : length (files_ w) = Z.to_nat (num_threads_ w);
  uinv_nu_len : length (num_unsorted_edges_ w) = Z.to_nat (num_threads_ w);
  uinv_thread : ∀ t, 0 ≤ t < num_threads_ w →
    vec_at (files_ w) t = Ret (Z.of_nat h0 + t)
    ∧ stream_name (Z.of_nat h0 + t) W
      = Ret (edges_file_name (file_prefix_ w) t)
    ∧ fs W !! edges_file_name (file_prefix_ w) t
      = Some (Binary (concat (thread_edges (words_per_edge_ w) t hist)))
    ∧ vec_at (num_unsorted_edges_ w) t
      = Ret (Z.of_nat (length (thread_edges (words_per_edge_ w) t hist)));
  uinv_calls : Forall (λ c, 0 ≤ uc_tid c < num_threads_ w
                            ∧ 0 ≤ words_per_edge_ w
                            ∧ (Z.to_nat (words_per_edge_ w)
                               ≤ length (uc_edge c))%nat) hist
}.

End unsorted_sessions.


(** [n] calls of a pull method; each pointer returned is read at once, as a
    caller does, and [None] stands for the null sentinel. *)
Fixpoint pull (next : EdgeReader.t → res (EdgeReader.ptr * EdgeReader.t))
    (n : nat) (r : EdgeReader.t)
  : res (list (option (list Z)) * EdgeReader.t) :=
  match n with
  | O => Ret ([], r)
  | S n' =>
      '(p, r') ← next r;
      x ← (if EdgeReader.is_null p then Ret None
           else Some <$> EdgeReader.load p (EdgeReader.words_per_edge_ r'));
      '(xs, r'') ← pull next n' r';
      Ret (x :: xs, r'')
  end.

(** The memory a reader is constructed in, for examples. *)
Definition ex_reader_memory : EdgeReader.t :=
  EdgeReader.mk 0 0 0 0 0 "" [] [] [] [] 0 0 0 0 EdgeReader.NULL false.

Definition ex_unsorted_calls : list unsorted_call :=
  [ {| uc_edge := [1; 2]; uc_tid := 0 |};
    {| uc_edge := [3; 4]; uc_tid := 0 |};
    {| uc_edge := [5; 6]; uc_tid := 1 |} ].

Section reader_views.
Import EdgeReader.



(** The place of the records [recs] of a bucket: none when the bucket has
    no owner, and otherwise [total_number] records of the owner's mapping
    from record [starting_offset] on. *)
Definition bucket_place (r : EdgeReader.t) (pr : PartitionRecord)
    (recs : list (list Z)) : Prop :=
  (thread_id pr < 0 ∧ recs = [])
  ∨ (0 ≤ thread_id pr
     ∧ total_number pr = Z.of_nat (length recs)
     ∧ 0 ≤ starting_offset pr
     ∧ ∃ all,
         vec_at (mmaps_ r) (thread_id pr) = Ret (Ptr (concat all) 0)
         ∧ Forall (λ x, length x = Z.to_nat (words_per_edge_ r)) all
         ∧ ∀ (c : nat) x, recs !! c = Some x →
             all !! (Z.to_nat (starting_offset pr) + c)%nat = Some x).

(** The sorted reader over [buckets], the records of each bucket. *)
Record sorted_view (buckets : list (list (list Z))) (r : EdgeReader.t)
  : Prop := {
  sv_wpe : ∀ (b : nat) recs, buckets !! b = Some recs → recs ≠ [] →
           0 ≤ words_per_edge_ r;
  sv_buckets : num_buckets_ r = Z.of_nat (length buckets);
  sv_bucket : ∀ (b : nat) recs, buckets !! b = Some recs →
    ∃ pr, vec_at (p_rec_ r) (Z.of_nat b) = Ret pr ∧ bucket_place r pr recs;
  sv_cursor_range : -1 ≤ cur_bucket_ r ≤ num_buckets_ r;
  sv_cnt : 0 ≤ cur_cnt_ r;
  sv_current : cur_cnt_ r < cur_vol_ r →
    ∃ recs pr all,
      buckets !! Z.to_nat (cur_bucket_ r) = Some recs
      ∧ 0 ≤ cur_bucket_ r
      ∧ cur_vol_ r = Z.of_nat (length recs)
      ∧ 0 ≤ starting_offset pr
      ∧ Forall (λ x, length x = Z.to_nat (words_per_edge_ r)) all
      ∧ (∀ (c : nat) x, recs !! c = Some x →
           all !! (Z.to_nat (starting_offset pr) + c)%nat = Some x)
      ∧ cur_ptr_ r
        = Ptr (concat all)
            (words_per_edge_ r * (starting_offset pr + cur_cnt_ r))
}.

Definition sorted_rest (buckets : list (list (list Z))) (r : EdgeReader.t)
  : list (list Z) :=
  (if decide (cur_cnt_ r < cur_vol_ r) then
     drop (Z.to_nat (cur_cnt_ r))
       (default [] (buckets !! Z.to_nat (cur_bucket_ r)))
   else [])
  ++ concat (drop (Z.to_nat (cur_bucket_ r + 1)) buckets).

End reader_views.

(** A store written in sorted mode by a configured writer: the files it
    leaves. *)
Definition sorted_store (w0 : EdgeWriter.t) (W0 : World)
    (log : list write_call) : res World :=
  s1 ← EdgeWriter.init_files w0 W0;
  s2 ← run_writes log s1;
  s3 ← EdgeWriter.destroy s2.1 s2.2;
  Ret s3.2.

(** The records of a sorted store, bucket by bucket. *)
Definition sorted_buckets (w0 : EdgeWriter.t) (log : list write_call)
  : list (list (list Z)) :=
  (λ b, records (EdgeWriter.words_per_edge_ w0) (bucket_log b log))
    <$> seqZ 0 (EdgeWriter.num_buckets_ w0).

(** A bucket line [read_info] gets through with [n] file sizes: the bucket
    of a thread, or a bucket without owner and without records when there
    is a file size at all. *)
Definition line_in_reach (n : nat) (p : PartitionRecord) : Prop :=
  0 ≤ thread_id p < Z.of_nat n
  ∨ (thread_id p = -1 ∧ total_number p = 0 ∧ (0 < n)%nat).

(** The number of records in the buckets of [prs] that thread [t] owns. *)
Definition owned_sum (t : Z) (prs : list PartitionRecord) : Z :=
  sumZ ((λ pr, if decide (thread_id pr = t) then total_number pr else 0)
          <$> prs).

(** One record for bucket 1 of two; bucket 0 is left without owner. *)
Definition ex_sparse_log : list write_call :=
  [ {| wc_edge := [1; 2]; wc_bucket := 1; wc_tid := 0 |} ].

(** ** UnitigGraph: the adapter algorithms of [AdapterImpl] *)

Module Unitig.

(** The vertex type with its adapters (unitig_graph_vertex.h) and the
    succinct de Bruijn graph (sdbg/sdbg.h) are not part of the sources at
    hand.  [AdapterImpl] is a template over the adapter type and uses the
    vertex only through the accessors of an adapter, each of which reads or
    writes the vertex in the adapter's strand; they are the interface
    below. *)
Class VertexModel := {
  Vertex : Type;
  (** [begin()] and [end()] of an adapter over the vertex in strand [s] *)
  v_begin : Vertex → Z → Z;
  v_end : Vertex → Z → Z;
  (** [cached_out_degree()] and [set_cached_outdegree(d)] in strand [s] *)
  v_cached_out_degree : Vertex → Z → Z;
  v_set_cached_outdegree : Vertex → Z → Z → Vertex;
  (** [Vertex::kUnknownDegree] and [SDBG::kNullID] *)
  kUnknownDegree : Z;
  kNullID : Z
}.

(** What the spec states of that interface: the cache of a strand holds the
    fan-out written to it (at most 4, the alphabet size), is separate from
    the cache of the other strand, and is not where the end points are
    kept. *)
Class VertexLaws {VM : VertexModel} : Prop := {
  cached_set_same v s d :
    0 ≤ d ≤ 4 → v_cached_out_degree (v_set_cached_outdegree v s d) s = d;
  cached_set_other v s s' d :
    s ≠ s' →
    v_cached_out_degree (v_set_cached_outdegree v s d) s'
    = v_cached_out_degree v s';
  begin_set_cached v s s' d :
    v_begin (v_set_cached_outdegree v s d) s' = v_begin v s';
  end_set_cached v s s' d :
    v_end (v_set_cached_outdegree v s d) s' = v_end v s'
}.

(** The query interface of the succinct graph: [OutgoingEdges(id, starts)]
    returns the fan-out and fills [starts]; [NextSimplePathEdge(id)] returns
    the successor or [kNullID]. *)
Record SDBG := mkSDBG {
  OutgoingEdges : Z → Z * list Z;
  NextSimplePathEdge : Z → Z
}.

Section with_vertex.
Context {VM : VertexModel}.

Record UnitigGraph := mkGraph {
  sdbg_ : SDBG;
  vertices_ : list Vertex;
  id_map_ : gmap Z Z;
  count_cache_used : Z;
  count_cache_missed : Z
}.

(** An adapter is built from a reference to a vertex, a strand and an id
    ([{graph_->vertices_[id], strand, id}]); the reference is the position of
    the vertex in [vertices_], and a default-constructed adapter has none. *)
Record Adapter := mkAdapter {
  vertex_ : option Z;
  strand_ : Z;
  id_ : Z
}.

Definition kMaxNumVertices : Z := 2 ^ 32 - 1 - 1.
Definition kNullVertexID : Z := kMaxNumVertices + 1.

(** Modelled from the spec: the empty adapter [AdapterType{}] returned "at a
    branch or dead end"; it refers to no vertex. *)
Definition Adapter_empty : Adapter :=
  {| vertex_ := None; strand_ := 0; id_ := kNullVertexID |}.

(** Modelled from the spec: [ReverseComplement()], "an in-place strand flip",
    "a strand bit carried on every adapter". *)
Definition ReverseComplement (a : Adapter) : Adapter :=
  {| vertex_ := vertex_ a; strand_ := Z.lxor (strand_ a) 1; id_ := id_ a |}.

Definition id (a : Adapter) : Z := id_ a.
Definition strand (a : Adapter) : Z := strand_ a.

(** The vertex an adapter refers to. *)
Definition vertex_of (g : UnitigGraph) (a : Adapter) : res Vertex :=
  match vertex_ a with
  | None => Abort NullDeref
  | Some i => vec_at (vertices_ g) i
  end.

Definition begin_ (g : UnitigGraph) (a : Adapter) : res Z :=
  v ← vertex_of g a; Ret (v_begin v (strand_ a)).

Definition end_ (g : UnitigGraph) (a : Adapter) : res Z :=
  v ← vertex_of g a; Ret (v_end v (strand_ a)).

Definition cached_out_degree (g : UnitigGraph) (a : Adapter) : res Z :=
  v ← vertex_of g a; Ret (v_cached_out_degree v (strand_ a)).

Definition with_vertices (vs : list Vertex) (g : UnitigGraph) : UnitigGraph :=
  {| sdbg_ := sdbg_ g; vertices_ := vs; id_map_ := id_map_ g;
     count_cache_used := count_cache_used g;
     count_cache_missed := count_cache_missed g |}.

(** [set_cached_outdegree(d)] writes through the reference. *)
Definition set_cached_outdegree (g : UnitigGraph) (a : Adapter) (d : Z)
  : res UnitigGraph :=
  match vertex_ a with
  | None => Abort NullDeref
  | Some i =>
      v ← vec_at (vertices_ g) i;
      vs ← vec_set (vertices_ g) i (v_set_cached_outdegree v (strand_ a) d);
      Ret (with_vertices vs g)
  end.

(** [return {graph_->vertices_[id], strand, id};], the same for
    [MakeSudoAdapter]. *)
Definition MakeVertexAdapter (g : UnitigGraph) (i : Z) (s : Z) : res Adapter :=
  _ ← vec_at (vertices_ g) i;
  Ret {| vertex_ := Some i; strand_ := s; id_ := i |}.

(** [id_map_.at(sdbg_id)] throws when the key is absent. *)
Definition MakeVertexAdapterWithSdbgId (g : UnitigGraph) (sdbg_id : Z)
  : res Adapter :=
  i ← match id_map_ g !! sdbg_id with
      | Some i => Ret i
      | None => Abort KeyNotFound
      end;
  adapter ← MakeVertexAdapter g i 0;
  b ← begin_ g adapter;
  Ret (if decide (b ≠ sdbg_id) then ReverseComplement adapter else adapter).

(** [for (int i = 0; i < degree; ++i)
       out[i] = MakeVertexAdapterWithSdbgId(next_starts[i]);] *)
Definition fill_out (g : UnitigGraph) (next_starts : list Z) (i : Z)
    (out : list Adapter) : res (list Adapter) :=
  x ← vec_at next_starts i;
  a ← MakeVertexAdapterWithSdbgId g x;
  vec_set out i a.

(** [out] is [None] for [nullptr] and the caller's array otherwise. *)
Definition GetNextAdapters (g : UnitigGraph) (adapter : Adapter)
    (out : option (list Adapter))
  : res (Z * option (list Adapter) * UnitigGraph) :=
  e ← end_ g adapter;
  let '(degree, next_starts) := OutgoingEdges (sdbg_ g) e in
  out' ← match out with
         | Some buf =>
             buf' ← for_range 0 (Z.to_nat degree) (fill_out g next_starts) buf;
             Ret (Some buf')
         | None => Ret None
         end;
  c ← cached_out_degree g adapter;
  g' ← (if decide (c = kUnknownDegree) then
          sudo ← MakeVertexAdapter g (id adapter) (strand adapter);
          set_cached_outdegree g sudo degree
        else Ret g);
  Ret (degree, out', g').

(** [for (int i = 0; i < degree; ++i) { out[i].ReverseComplement(); }] *)
Definition flip_out (i : Z) (out : list Adapter) : res (list Adapter) :=
  a ← vec_at out i;
  vec_set out i (ReverseComplement a).

(** The adapter is passed by reference: its value after the call is part of
    the result. *)
Definition GetPrevAdapters (g : UnitigGraph) (adapter : Adapter)
    (out : option (list Adapter))
  : res (Z * Adapter * option (list Adapter) * UnitigGraph) :=
  let adapter := ReverseComplement adapter in
  '(degree, out, g') ← GetNextAdapters g adapter out;
  out ← match out with
        | Some buf =>
            buf' ← for_range 0 (Z.to_nat degree) flip_out buf;
            Ret (Some buf')
        | None => Ret None
        end;
  let adapter := ReverseComplement adapter in
  Ret (degree, adapter, out, g').

Definition hit (g : UnitigGraph) : UnitigGraph :=
  {| sdbg_ := sdbg_ g; vertices_ := vertices_ g; id_map_ := id_map_ g;
     count_cache_used := count_cache_used g + 1;
     count_cache_missed := count_cache_missed g |}.

Definition miss (g : UnitigGraph) : UnitigGraph :=
  {| sdbg_ := sdbg_ g; vertices_ := vertices_ g; id_map_ := id_map_ g;
     count_cache_used := count_cache_used g;
     count_cache_missed := count_cache_missed g + 1 |}.

Definition OutDegree (g : UnitigGraph) (adapter : Adapter)
  : res (Z * UnitigGraph) :=
  c ← cached_out_degree g adapter;
  if decide (c ≠ kUnknownDegree) then
    let g := hit g in
    c ← cached_out_degree g adapter;
    Ret (c, g)
  else
    let g := miss g in
    '(degree, _, g') ← GetNextAdapters g adapter None;
    Ret (degree, g').

Definition InDegree (g : UnitigGraph) (adapter : Adapter)
  : res (Z * Adapter * UnitigGraph) :=
  let adapter := ReverseComplement adapter in
  '(degree, g') ← OutDegree g adapter;
  let adapter := ReverseComplement adapter in
  Ret (degree, adapter, g').

Definition NextSimplePathAdapter (g : UnitigGraph) (adapter : Adapter)
  : res Adapter :=
  e ← end_ g adapter;
  let next_sdbg_id := NextSimplePathEdge (sdbg_ g) e in
  if decide (next_sdbg_id ≠ kNullID) then
    MakeVertexAdapterWithSdbgId g next_sdbg_id
  else Ret Adapter_empty.

Definition PrevSimplePathAdapter (g : UnitigGraph) (adapter : Adapter)
  : res (Adapter * Adapter) :=
  let adapter := ReverseComplement adapter in
  ret ← NextSimplePathAdapter g adapter;
  let ret := ReverseComplement ret in
  let adapter := ReverseComplement adapter in
  Ret (ret, adapter).

(** The operations of [AdapterImpl] on an adapter, for statements about all
    of them. *)
Inductive adapter_op :=
  | OpGetNextAdapters (out : option (list Adapter))
  | OpGetPrevAdapters (out : option (list Adapter))
  | OpOutDegree
  | OpInDegree
  | OpNextSimplePathAdapter
  | OpPrevSimplePathAdapter.

(** The graph after the operation. *)
Definition graph_after (op : adapter_op) (g : UnitigGraph) (a : Adapter)
  : res UnitigGraph :=
  match op with
  | OpGetNextAdapters out => '(_, _, g') ← GetNextAdapters g a out; Ret g'
  | OpGetPrevAdapters out => '(_, _, _, g') ← GetPrevAdapters g a out; Ret g'
  | OpOutDegree => '(_, g') ← OutDegree g a; Ret g'
  | OpInDegree => '(_, _, g') ← InDegree g a; Ret g'
  | OpNextSimplePathAdapter => _ ← NextSimplePathAdapter g a; Ret g
  | OpPrevSimplePathAdapter => _ ← PrevSimplePathAdapter g a; Ret g
  end.

(** The cache entry of vertex [i] in strand [s]. *)
Definition cache_entry (g : UnitigGraph) (i : Z) (s : Z) : res Z :=
  v ← vec_at (vertices_ g) i; Ret (v_cached_out_degree v s).

(** An adapter made by the graph refers to the vertex its id names. *)
Definition made_by_graph (a : Adapter) : Prop := vertex_ a = Some (id_ a).

(** The fan-out the succinct graph reports at the end of vertex [v] in
    strand [s]. *)
Definition fan_out (g : UnitigGraph) (v : Vertex) (s : Z) : Z :=
  (OutgoingEdges (sdbg_ g) (v_end v s)).1.

(** Every cache entry that is known is the fan-out of its strand. *)
Definition coherent (g : UnitigGraph) : Prop :=
  ∀ (i : nat) v s,
    vertices_ g !! i = Some v →
    v_cached_out_degree v s ≠ kUnknownDegree →
    v_cached_out_degree v s = fan_out g v s.

(** The fan-out is bounded by the alphabet size. *)
Definition bounded_fan_out (g : UnitigGraph) : Prop :=
  ∀ e, 0 ≤ (OutgoingEdges (sdbg_ g) e).1 ≤ 4.

(** Every entry of [id_map_] is the index of a vertex of the graph. *)
Definition id_map_names_vertices (g : UnitigGraph) : Prop :=
  ∀ x i, id_map_ g !! x = Some i → ∃ v, vec_at (vertices_ g) i = Ret v.

(** [g'] is [g] up to the degree caches and the two counters. *)
Definition ends_kept (g g' : UnitigGraph) : Prop :=
  sdbg_ g' = sdbg_ g ∧ id_map_ g' = id_map_ g
  ∧ length (vertices_ g') = length (vertices_ g)
  ∧ ∀ (i : nat) v, vertices_ g !! i = Some v →
      ∃ v', vertices_ g' !! i = Some v'
            ∧ ∀ s, v_begin v' s = v_begin v s ∧ v_end v' s = v_end v s.

(** [g'] is [g] except that cache entries that were unknown may now hold
    the fan-out of their strand. *)
Definition cache_filled (g g' : UnitigGraph) : Prop :=
  sdbg_ g' = sdbg_ g ∧ id_map_ g' = id_map_ g
  ∧ length (vertices_ g') = length (vertices_ g)
  ∧ ∀ (i : nat) v, vertices_ g !! i = Some v →
      ∃ v', vertices_ g' !! i = Some v'
            ∧ ∀ s, v_begin v' s = v_begin v s ∧ v_end v' s = v_end v s
                   ∧ (v_cached_out_degree v' s = v_cached_out_degree v s
                      ∨ (v_cached_out_degree v s = kUnknownDegree
                         ∧ v_cached_out_degree v' s = fan_out g v s)).

End with_vertex.

(** A vertex that keeps its two strands in three tables, for examples. *)
Record TableVertex := mkTableVertex {
  tv_begin : Z → Z;
  tv_end : Z → Z;
  tv_cache : Z → Z
}.

Definition table_model : VertexModel :=
  {| Vertex := TableVertex;
     v_begin := tv_begin;
     v_end := tv_end;
     v_cached_out_degree := tv_cache;
     v_set_cached_outdegree := λ v s d,
       {| tv_begin := tv_begin v; tv_end := tv_end v;
          tv_cache := λ s', if decide (s' = s) then d else tv_cache v s' |};
     kUnknownDegree := 7;
     kNullID := -1 |}.

(** A graph of three vertices over [table_model], for examples. *)
Definition strands (x y : Z) : Z → Z := λ s, if decide (s = 0) then x else y.

Definition ex_sdbg : SDBG :=
  {| OutgoingEdges := λ e,
       if decide (e = 11) then (2, [20; 30; 0; 0]) else (0, [0; 0; 0; 0]);
     NextSimplePathEdge := λ e, if decide (e = 21) then 10 else -1 |}.

Definition ex_vertices : list TableVertex :=
  [ {| tv_begin := strands 10 12; tv_end := strands 11 13;
       tv_cache := λ _, 7 |};
    {| tv_begin := strands 22 20; tv_end := strands 21 23;
       tv_cache := λ _, 7 |};
    {| tv_begin := strands 30 32; tv_end := strands 31 33;
       tv_cache := λ _, 7 |} ].

Definition ex_graph : @UnitigGraph table_model :=
  {| sdbg_ := ex_sdbg;
     vertices_ := ex_vertices : list (@Vertex table_model);
     id_map_ := <[10 := 0]> (<[12 := 0]> (<[22 := 1]> (<[20 := 1]>
                  (<[30 := 2]> (<[32 := 2]> ∅)))));
     count_cache_used := 0;
     count_cache_missed := 0 |}.


(** The same graph with raw id 30 left out of [id_map_]. *)
Definition ex_graph_unmapped : @UnitigGraph table_model :=
  {| sdbg_ := ex_sdbg;
     vertices_ := ex_vertices : list (@Vertex table_model);
     id_map_ := <[10 := 0]> (<[12 := 0]> (<[22 := 1]> (<[20 := 1]>
                  (<[32 := 2]> ∅))));
     count_cache_used := 0;
     count_cache_missed := 0 |}.

End Unitig.

(* ===================================================================== *)
(** * Part II: properties *)
(* ===================================================================== *)

(** ** The outcome monad, vectors and loops *)

Lemma bind_Ret {A B} (m : res A) (k : A → res B) b :
  m ≫= k = Ret b ↔ ∃ a, m = Ret a ∧ k a = Ret b.
Proof.
  destruct m as [a|e]; simpl; split.
  - eauto.
  - intros (a' & Ha & Hk). by injection Ha as <-.
  - done.
  - intros (a' & Ha & Hk). discriminate.
Qed.

Lemma vec_at_Ret {A} (v : list A) i x :
  vec_at v i = Ret x ↔ 0 ≤ i ∧ v !! Z.to_nat i = Some x.
Proof.
  unfold vec_at. destruct (decide (0 ≤ i)) as [Hi|Hi].
  - destruct (v !! Z.to_nat i) as [y|]; split.
    + intros [= ->]. done.
    + intros [_ [= ->]]. done.
    + done.
    + intros [_ ?]. done.
  - split; [done|]. intros [? _]. lia.
Qed.

Lemma vec_set_Ret {A} (v : list A) i x v' :
  vec_set v i x = Ret v'
  ↔ 0 ≤ i ∧ (Z.to_nat i < length v)%nat ∧ v' = <[Z.to_nat i := x]> v.
Proof.
  unfold vec_set. destruct (decide (0 ≤ i)) as [Hi|Hi].
  - destruct (decide (Z.to_nat i < length v)%nat) as [Hl|Hl]; split.
    + intros [= <-]. done.
    + intros (_ & _ & ->). done.
    + done.
    + intros (_ & ? & _). lia.
  - split; [done|]. intros (? & _). lia.
Qed.

Lemma vec_at_fault {A} (v : list A) i e :
  vec_at v i = Abort e → e = OutOfBounds ∧ ¬ (0 ≤ i < Z.of_nat (length v)).
Proof.
  unfold vec_at. destruct (decide (0 ≤ i)) as [Hi|Hi].
  - destruct (v !! Z.to_nat i) as [y|] eqn:Hy; [done|].
    intros [= <-]. split; [done|]. apply lookup_ge_None in Hy. lia.
  - intros [= <-]. split; [done|]. lia.
Qed.

Lemma for_range_Ret_inv {St} (P : Z → St → Prop) (body : Z → St → res St) n :
  ∀ from s s',
    P from s →
    (∀ i t t', from ≤ i < from + Z.of_nat n → P i t → body i t = Ret t' →
               P (i + 1) t') →
    for_range from n body s = Ret s' →
    P (from + Z.of_nat n) s'.
Proof.
  induction n as [|n IH]; intros from s s' HP Hstep Hrun; simpl in Hrun.
  - injection Hrun as <-. by rewrite Z.add_0_r.
  - apply bind_Ret in Hrun as (t & Hb & Hrun).
    replace (from + Z.of_nat (S n)) with ((from + 1) + Z.of_nat n) by lia.
    apply (IH (from + 1) t s'); [|intros i u u' Hi; apply Hstep; lia|done].
    apply (Hstep from s t); [lia|done|done].
Qed.

Lemma DivCeiling_spec a b :
  0 < b → b * (DivCeiling a b - 1) < a ≤ b * DivCeiling a b.
Proof.
  intros Hb. unfold DivCeiling.
  pose proof (Z.div_mod (- a) b ltac:(lia)) as Hdm.
  pose proof (Z.mod_pos_bound (- a) b Hb) as Hm. nia.
Qed.

Lemma wrap32_small z : - 2 ^ 31 ≤ z < 2 ^ 31 → wrap32 z = z.
Proof.
  intros Hz. unfold wrap32. rewrite Z.mod_small by lia. lia.
Qed.

(** C3.  [set_kmer_size k] stores [k] and sets [words_per_edge_] to the
    ceiling of [((k+1)*2+16)/32], that is the least [q] with
    [(k+1)*2+16 ≤ 32*q], for every [k] whose expression [(k+1)*2+16] is
    representable as an [int32_t]; at [k = 21] this is 2 and at [k = 127]
    it is 9. *)
Theorem C3_set_kmer_size_words_per_edge (k : Z) (w : EdgeWriter.t) :
  - 2 ^ 30 ≤ k + 1 ≤ 2 ^ 30 - 9 →
  let q := EdgeWriter.words_per_edge_ (EdgeWriter.set_kmer_size k w) in
  EdgeWriter.kmer_size_ (EdgeWriter.set_kmer_size k w) = k
  ∧ 32 * (q - 1) < (k + 1) * 2 + 16 ≤ 32 * q
  ∧ (k = 21 → q = 2)
  ∧ (k = 127 → q = 9).
Proof.
  intros Hk q. subst q. simpl.
  rewrite (wrap32_small (k + 1)) by lia.
  rewrite (wrap32_small ((k + 1) * 2)) by lia.
  rewrite (wrap32_small ((k + 1) * 2 + 16)) by lia.
  split; [done|]. split; [apply DivCeiling_spec; lia|].
  split; intros ->; reflexivity.
Qed.

Lemma C3_set_kmer_size_witness :
  let w := EdgeWriter.set_kmer_size 21 (EdgeWriter.new 0 0 0 0) in
  EdgeWriter.kmer_size_ w = 21 ∧ EdgeWriter.words_per_edge_ w = 2.
Proof.
  pose proof (C3_set_kmer_size_words_per_edge 21 (EdgeWriter.new 0 0 0 0)
                ltac:(lia)) as (Hk & _ & H21 & _).
  split; [exact Hk | exact (H21 eq_refl)].
Defined.

(** ** The writer *)

(** File names *)

Lemma edges_file_name_inj prefix i j :
  edges_file_name prefix i = edges_file_name prefix j → i = j.
Proof.
  unfold edges_file_name. intros Heq.
  apply (inj (String.app prefix)) in Heq.
  apply (inj (String.app ".edges.")) in Heq.
  by apply (inj pretty) in Heq.
Qed.

Lemma pretty_N_go_not_i x :
  ∀ s, (∀ s', s ≠ String "i"%char s') →
       ∀ s', pretty_N_go x s ≠ String "i"%char s'.
Proof.
  induction (N.lt_wf_0 x) as [x _ IH]. intros s Hs s'.
  destruct (decide (x = 0)%N) as [->|Hx].
  - rewrite pretty_N_go_0. apply Hs.
  - rewrite pretty_N_go_step by lia. apply IH.
    + apply N.div_lt; lia.
    + intros s'' [= Hc _]. revert Hc. unfold pretty_N_char.
      repeat case_match; discriminate.
Qed.

Lemma pretty_Z_not_info (i : Z) : pretty i ≠ "info".
Proof.
  unfold pretty, pretty_Z. destruct i as [|p|p]; [done| |done].
  unfold pretty, pretty_positive, pretty, pretty_N.
  rewrite decide_False by done. by apply pretty_N_go_not_i.
Qed.

Lemma edges_file_name_not_info prefix i :
  edges_file_name prefix i ≠ info_file_name prefix.
Proof.
  unfold edges_file_name, info_file_name. intros Heq.
  apply (inj (String.app prefix)) in Heq.
  apply (inj (String.app ".edges.")) in Heq.
  by apply pretty_Z_not_info in Heq.
Qed.

Lemma for_range_total {St} (P : Z → St → Prop) (body : Z → St → res St) n :
  ∀ from s,
    P from s →
    (∀ i t, from ≤ i < from + Z.of_nat n → P i t →
            ∃ t', body i t = Ret t' ∧ P (i + 1) t') →
    ∃ s', for_range from n body s = Ret s' ∧ P (from + Z.of_nat n) s'.
Proof.
  induction n as [|n IH]; intros from s HP Hstep; simpl.
  - exists s. by rewrite Z.add_0_r.
  - destruct (Hstep from s) as (t & Hb & Ht); [lia|done|].
    rewrite Hb. simpl.
    destruct (IH (from + 1) t Ht) as (s' & Hrun & Hs').
    { intros i u Hi. apply Hstep. lia. }
    exists s'. split; [done|].
    by replace (from + Z.of_nat (S n)) with (from + 1 + Z.of_nat n) by lia.
Qed.

Section writer_lemmas.
Import EdgeWriter.

Lemma stream_name_Ret h W name :
  stream_name h W = Ret name
  ↔ 0 ≤ h ∧ streams W !! Z.to_nat h = Some (Some name).
Proof.
  unfold stream_name. destruct (decide (0 ≤ h)) as [Hh|Hh].
  - destruct (streams W !! Z.to_nat h) as [[n|]|]; split.
    + intros [= ->]. done.
    + intros [_ [= ->]]. done.
    + done.
    + intros [_ [=]].
    + done.
    + intros [_ [=]].
  - split; [done|]. intros [? _]. lia.
Qed.

Lemma fwrite_Ret buf count h W W' :
  fwrite buf count h W = Ret W'
  ↔ ∃ name ws,
      stream_name h W = Ret name
      ∧ fs W !! name = Some (Binary ws)
      ∧ 0 ≤ count ∧ (Z.to_nat count ≤ length buf)%nat
      ∧ W' = {| fs := <[name := Binary (ws ++ take (Z.to_nat count) buf)]> (fs W);
                streams := streams W |}.
Proof.
  unfold fwrite. split.
  - intros Hrun. apply bind_Ret in Hrun as (name & Hn & Hrun).
    destruct (decide _) as [[Hc Hl]|]; [|done].
    destruct (fs W !! name) as [[ws|]|] eqn:Hf; try done.
    injection Hrun as <-. eauto 10.
  - intros (name & ws & -> & Hf & Hc & Hl & ->). simpl.
    rewrite decide_True by done. by rewrite Hf.
Qed.

Lemma write_Ret e b t w W w' W' :
  write e b t w W = Ret (w', W') →
  ∃ cb pr n h name ws,
    vec_at (cur_bucket_ w) t = Ret cb
    ∧ vec_at (p_rec_ w) b = Ret pr
    ∧ (b ≠ cb → thread_id pr = -1)
    ∧ vec_at (cur_num_edges_ w) t = Ret n
    ∧ vec_at (files_ w) t = Ret h
    ∧ stream_name h W = Ret name
    ∧ fs W !! name = Some (Binary ws)
    ∧ 0 ≤ words_per_edge_ w
    ∧ (Z.to_nat (words_per_edge_ w) ≤ length e)%nat
    ∧ w' = with_vectors (files_ w)
             (<[Z.to_nat t := b]> (cur_bucket_ w))
             (<[Z.to_nat t := n + 1]> (cur_num_edges_ w))
             (<[Z.to_nat b :=
                  if decide (b ≠ cb) then
                    {| thread_id := t; starting_offset := n;
                       total_number := total_number pr + 1 |}
                  else
                    {| thread_id := thread_id pr;
                       starting_offset := starting_offset pr;
                       total_number := total_number pr + 1 |}]> (p_rec_ w))
             (is_opened_ w) w
    ∧ W' = {| fs := <[name := Binary (ws ++ take (Z.to_nat (words_per_edge_ w)) e)]>
                      (fs W);
              streams := streams W |}.
Proof.
  unfold write. intros Hrun.
  apply bind_Ret in Hrun as (cb & Hcb & Hrun).
  apply bind_Ret in Hrun as (w1 & Hw1 & Hrun).
  destruct (decide (b ≠ cb)) as [Hne|Heq].
  - unfold claim in Hw1.
    apply bind_Ret in Hw1 as (pr & Hpr & Hw1).
    apply bind_Ret in Hw1 as ([] & Has & Hw1).
    apply bind_Ret in Hw1 as (n & Hn & Hw1).
    apply bind_Ret in Hw1 as (prs & Hprs & Hw1).
    apply bind_Ret in Hw1 as (cbs & Hcbs & Hw1).
    injection Hw1 as <-. simpl in Hrun.
    apply vec_set_Ret in Hprs as (Hb0 & Hbl & ->).
    apply vec_set_Ret in Hcbs as (Ht0 & Htl & ->).
    unfold assert in Has. case_bool_decide as Hown; [|done].
    apply bind_Ret in Hrun as (h & Hh & Hrun).
    apply bind_Ret in Hrun as (W1 & HW1 & Hrun).
    apply fwrite_Ret in HW1 as (name & ws & Hname & Hfs & Hc & Hl & ->).
    rewrite Hn in Hrun. simpl in Hrun.
    apply bind_Ret in Hrun as (cn & Hcn & Hrun).
    apply vec_set_Ret in Hcn as (_ & _ & ->).
    assert (vec_at (<[Z.to_nat b :=
                       {| thread_id := t; starting_offset := n;
                          total_number := total_number pr |}]> (p_rec_ w)) b
            = Ret {| thread_id := t; starting_offset := n;
                     total_number := total_number pr |}) as Hat.
    { apply vec_at_Ret. split; [done|]. by apply list_lookup_insert_eq. }
    rewrite Hat in Hrun. simpl in Hrun.
    apply bind_Ret in Hrun as (prs & Hprs & Hrun).
    apply vec_set_Ret in Hprs as (_ & _ & ->).
    injection Hrun as <- <-.
    exists cb, pr, n, h, name, ws. rewrite list_insert_insert_eq.
    rewrite decide_True by done.
    repeat (split; [done|]). done.
  - apply dec_stable in Heq. subst cb. injection Hw1 as <-.
    apply bind_Ret in Hrun as (h & Hh & Hrun).
    apply bind_Ret in Hrun as (W1 & HW1 & Hrun).
    apply fwrite_Ret in HW1 as (name & ws & Hname & Hfs & Hc & Hl & ->).
    apply bind_Ret in Hrun as (n & Hn & Hrun).
    apply bind_Ret in Hrun as (cn & Hcn & Hrun).
    apply vec_set_Ret in Hcn as (_ & _ & ->).
    apply bind_Ret in Hrun as (pr & Hpr & Hrun).
    apply bind_Ret in Hrun as (prs & Hprs & Hrun).
    apply vec_set_Ret in Hprs as (_ & _ & ->).
    injection Hrun as <- <-.
    exists b, pr, n, h, name, ws.
    rewrite (list_insert_id (cur_bucket_ w) (Z.to_nat t) b)
      by (by apply vec_at_Ret in Hcb as [_ ?]).
    repeat (split; [done|]). split; [|done].
    rewrite decide_False by (intros Hn'; by apply Hn').
    done.
Qed.


Lemma vec_at_lt {A} (v : list A) i x :
  vec_at v i = Ret x → 0 ≤ i < Z.of_nat (length v).
Proof.
  intros [Hi Hx]%vec_at_Ret. apply lookup_lt_Some in Hx. lia.
Qed.

Lemma vec_at_insert {A} (v : list A) i j x :
  0 ≤ i → 0 ≤ j →
  vec_at (<[Z.to_nat i := x]> v) j
  = if decide (j = i) then
      (if decide (Z.to_nat i < length v)%nat then Ret x
       else Abort OutOfBounds)
    else vec_at v j.
Proof.
  intros Hi Hj. unfold vec_at. destruct (decide (0 ≤ j)); [|done].
  destruct (decide (j = i)) as [->|Hne].
  - destruct (decide (Z.to_nat i < length v)%nat) as [Hl|Hl].
    + by rewrite list_lookup_insert_eq.
    + rewrite list_insert_ge by lia.
      rewrite lookup_ge_None_2 by lia. done.
  - rewrite list_lookup_insert_ne by lia. done.
Qed.

Lemma thread_log_snoc t hist c :
  thread_log t (hist ++ [c])
  = thread_log t hist ++ (if decide (wc_tid c = t) then [c] else []).
Proof.
  unfold thread_log. rewrite filter_app. f_equal.
Qed.

Lemma bucket_log_snoc b hist c :
  bucket_log b (hist ++ [c])
  = bucket_log b hist ++ (if decide (wc_bucket c = b) then [c] else []).
Proof.
  unfold bucket_log. rewrite filter_app. f_equal.
Qed.

Lemma last_bucket_snoc t hist c :
  last_bucket t (hist ++ [c])
  = if decide (wc_tid c = t) then wc_bucket c else last_bucket t hist.
Proof.
  unfold last_bucket. rewrite thread_log_snoc.
  destruct (decide (wc_tid c = t)).
  - by rewrite last_snoc.
  - by rewrite app_nil_r.
Qed.

(** When the last call of thread [t] was for bucket [b], all calls for [b]
    are by [t] and they end the calls of [t]. *)
Lemma bucket_inv_current N b pr hist t :
  bucket_inv N b pr hist →
  thread_log t hist ≠ [] → last_bucket t hist = b →
  thread_id pr = t
  ∧ ∃ pre run,
      thread_log t hist = pre ++ run
      ∧ bucket_log b hist = run ∧ run ≠ []
      ∧ starting_offset pr = Z.of_nat (length pre)
      ∧ total_number pr = Z.of_nat (length run)
      ∧ Forall (λ c, wc_bucket c ≠ b) pre.
Proof.
  intros Hinv Hne Hlast. unfold last_bucket in Hlast.
  destruct (last (thread_log t hist)) as [c0|] eqn:Hl;
    [|by apply last_None in Hl].
  simpl in Hlast.
  assert (c0 ∈ thread_log t hist) as Hc0 by (by apply last_Some_elem_of).
  apply list_elem_of_filter in Hc0 as [Htid Hin].
  assert (c0 ∈ bucket_log b hist) as Hcb by (by apply list_elem_of_filter).
  destruct Hinv as [[Hnil _]|(Hrange & pre & run & post & Hlog & Hrun & Hrn
                              & Hoff & Htot & Hpre & Hpost)].
  { rewrite Hnil in Hcb. by apply not_elem_of_nil in Hcb. }
  assert (thread_id pr = t) as Howner.
  { rewrite Hrun in Hcb.
    assert (c0 ∈ thread_log (thread_id pr) hist) as Hin'.
    { rewrite Hlog. apply elem_of_app. right. apply elem_of_app. by left. }
    apply list_elem_of_filter in Hin' as [? _]. congruence. }
  split; [done|]. rewrite Howner in Hlog.
  assert (post = []) as ->.
  { destruct post as [|p post _] using rev_ind; [done|].
    rewrite Hlog, !app_assoc, last_snoc in Hl. injection Hl as ->.
    rewrite Forall_app, Forall_singleton in Hpost.
    destruct Hpost as [_ Hp]. done. }
  rewrite app_nil_r in Hlog. eauto 10.
Qed.


Lemma stream_name_same_streams h (W W' : World) :
  streams W' = streams W → stream_name h W' = stream_name h W.
Proof. unfold stream_name. by intros ->. Qed.

Lemma records_snoc wpe l c :
  concat (records wpe (l ++ [c]))
  = concat (records wpe l) ++ take (Z.to_nat wpe) (wc_edge c).
Proof.
  unfold records. rewrite fmap_app, concat_app. simpl. by rewrite app_nil_r.
Qed.

Lemma bucket_inv_other N b b' pr hist c :
  wc_bucket c ≠ b' → b = wc_bucket c →
  bucket_inv N b' pr hist → bucket_inv N b' pr (hist ++ [c]).
Proof.
  intros Hne _ [[Hnil ->]|(Hr & pre & run & post & Hlog & Hrun & Hrn & Hoff
                             & Htot & Hpre & Hpost)].
  - left. rewrite bucket_log_snoc, Hnil, decide_False by done. done.
  - right. split; [done|].
    rewrite bucket_log_snoc, decide_False by done.
    rewrite thread_log_snoc, Hlog.
    exists pre, run, (post ++ if decide (wc_tid c = thread_id pr) then [c]
                              else []).
    rewrite app_nil_r, <- !app_assoc.
    repeat (split; [done|]). apply Forall_app. split; [done|].
    case_decide; [by apply Forall_singleton | by apply Forall_nil].
Qed.

Lemma write_inv h0 hist w W c s' :
  sorted_inv h0 hist w W →
  do_write c (w, W) = Ret s' →
  sorted_inv h0 (hist ++ [c]) s'.1 s'.2.
Proof.
  intros Hinv Hrun. destruct c as [e b t], s' as [w' W'].
  unfold do_write in Hrun. simpl in Hrun.
  apply write_Ret in Hrun
    as (cb & pr & n & h & name & ws & Hcb & Hpr & Hown & Hn & Hh & Hname
        & Hfs & Hwpe & Hlen & -> & ->).
  destruct Hinv as [Hop HN HB Hfl Hcbl Hcnl Hprl Hsl Hth Hcalls Hbk].
  assert (0 ≤ t < num_threads_ w) as Ht.
  { apply vec_at_lt in Hcb. lia. }
  assert (0 ≤ b < num_buckets_ w) as Hb.
  { apply vec_at_lt in Hpr. lia. }
  destruct (Hth t Ht) as (Hh' & Hname' & Hfs' & Hn' & Hcb').
  rewrite Hh in Hh'. injection Hh' as ->.
  rewrite Hname in Hname'. injection Hname' as ->.
  rewrite Hfs in Hfs'. injection Hfs' as ->.
  rewrite Hn in Hn'. injection Hn' as ->.
  rewrite Hcb in Hcb'. injection Hcb' as ->.
  split; simpl; try done.
  - by rewrite length_insert.
  - by rewrite length_insert.
  - by rewrite length_insert.
  - intros t' Ht'. destruct (Hth t' Ht') as (Hh' & Hname' & Hfs' & Hn' & Hcb').
    split; [done|]. split.
    { rewrite <- Hname'. by apply stream_name_same_streams. }
    rewrite !vec_at_insert by lia.
    rewrite thread_log_snoc, last_bucket_snoc. simpl.
    destruct (decide (t' = t)) as [->|Hne].
    + rewrite lookup_insert_eq, !decide_True by done.
      rewrite !decide_True by lia.
      rewrite records_snoc, length_app. simpl.
      split; [done|]. split; [f_equal; lia|done].
    + rewrite lookup_insert_ne
        by (intros Heq; apply edges_file_name_inj in Heq; congruence).
      rewrite !decide_False by congruence. rewrite app_nil_r. done.
  - apply Forall_app. split; [done|]. apply Forall_singleton. simpl. done.
  - intros b' Hb'. rewrite vec_at_insert by lia.
    destruct (decide (b' = b)) as [->|Hne].
    + rewrite decide_True by lia. eexists. split; [done|].
      destruct (Hbk b Hb) as (pr0 & Hpr0 & Hbinv).
      rewrite Hpr in Hpr0. injection Hpr0 as <-.
      destruct (decide (b ≠ last_bucket t hist)) as [Hcl|Hcur].
      * specialize (Hown Hcl).
        destruct Hbinv as [[Hnil ->]|[Hr _]]; [|lia].
        right. simpl. split; [done|].
        exists (thread_log t hist), [{| wc_edge := e; wc_bucket := b;
                                        wc_tid := t |}], [].
        rewrite thread_log_snoc, bucket_log_snoc, Hnil. simpl.
        rewrite !decide_True by done.
        repeat (split; [done|]). split; [|done].
        apply Forall_forall. intros c Hc Hcbk.
        apply list_elem_of_filter in Hc as [_ Hc].
        by eapply (filter_nil_not_elem_of _ _ c Hnil).
      * apply dec_stable in Hcur.
        assert (thread_log t hist ≠ []) as Hnonempty.
        { intros Hnil. unfold last_bucket in Hcur. rewrite Hnil in Hcur.
          simpl in Hcur. lia. }
        destruct (bucket_inv_current _ _ _ _ _ Hbinv Hnonempty (eq_sym Hcur))
          as (Howner & pre & run & Hlog & Hrunb & Hrn & Hoff & Htot & Hpre).
        right. simpl. rewrite Howner. split; [done|].
        exists pre, (run ++ [{| wc_edge := e; wc_bucket := b; wc_tid := t |}]),
               [].
        rewrite thread_log_snoc, bucket_log_snoc, Hlog, Hrunb. simpl.
        rewrite !decide_True by done. rewrite app_nil_r, app_assoc.
        split; [done|]. split; [done|].
        split; [by destruct run|]. split; [done|].
        split; [rewrite length_app; simpl; lia|]. done.
    + destruct (Hbk b' Hb') as (pr' & Hpr' & Hbinv). exists pr'.
      split; [done|].
      by apply (bucket_inv_other _ b).
Qed.


Lemma vresize_Ret {A} n (d : A) v v' :
  vresize n d v = Ret v' ↔ 0 ≤ n ∧ v' = resize (Z.to_nat n) d v.
Proof.
  unfold vresize. destruct (decide (0 ≤ n)); split.
  - intros [= <-]. done.
  - intros [_ ->]. done.
  - done.
  - intros [? _]. lia.
Qed.

(** The loop of [init_files]. *)
Lemma open_thread_files prefix (N : nat) W :
  ∃ files W',
    for_range 0 N (open_thread_file prefix) (replicate N NULLFILE, W)
    = Ret (files, W')
    ∧ length files = N
    ∧ length (streams W') = (length (streams W) + N)%nat
    ∧ (∀ h, (h < length (streams W))%nat → streams W' !! h = streams W !! h)
    ∧ (∀ t, 0 ≤ t < Z.of_nat N →
         vec_at files t = Ret (Z.of_nat (length (streams W)) + t)
         ∧ stream_name (Z.of_nat (length (streams W)) + t) W'
           = Ret (edges_file_name prefix t)
         ∧ fs W' !! edges_file_name prefix t = Some (Binary []))
    ∧ (∀ name, (∀ t, 0 ≤ t < Z.of_nat N → name ≠ edges_file_name prefix t) →
         fs W' !! name = fs W !! name).
Proof.
  set (h0 := length (streams W)).
  set (P := λ (i : Z) (s : list Z * World),
         length s.1 = N
         ∧ length (streams s.2) = (h0 + Z.to_nat i)%nat
         ∧ (∀ h, (h < h0)%nat → streams s.2 !! h = streams W !! h)
         ∧ (∀ t, 0 ≤ t < i →
              vec_at s.1 t = Ret (Z.of_nat h0 + t)
              ∧ stream_name (Z.of_nat h0 + t) s.2
                = Ret (edges_file_name prefix t)
              ∧ fs s.2 !! edges_file_name prefix t = Some (Binary []))
         ∧ (∀ name, (∀ t, 0 ≤ t < i → name ≠ edges_file_name prefix t) →
              fs s.2 !! name = fs W !! name)).
  destruct (for_range_total P (open_thread_file prefix) N 0
              (replicate N NULLFILE, W)) as ([files W'] & Hrun & HP).
  - unfold P. simpl. rewrite length_replicate.
    split; [done|]. split; [lia|]. split; [done|].
    split; [intros; lia|done].
  - intros i [files Wi] Hi (Hlen & Hsl & Hold & Hth & Hfr). simpl in *.
    unfold open_thread_file, fopen_w. simpl.
    assert (vec_set files i (Z.of_nat (length (streams Wi)))
            = Ret (<[Z.to_nat i := Z.of_nat (length (streams Wi))]> files))
      as ->.
    { apply vec_set_Ret. split; [lia|]. split; [lia|done]. }
    simpl. eexists. split; [done|]. unfold P. simpl.
    rewrite length_insert, length_app. simpl.
    split; [done|]. split; [lia|]. split.
    { intros h Hh. rewrite lookup_app_l by lia. by apply Hold. }
    split.
    + intros t Ht. rewrite vec_at_insert by lia.
      destruct (decide (t = i)) as [->|Hne].
      * rewrite decide_True by lia. split; [f_equal; lia|]. split.
        -- apply stream_name_Ret. simpl. split; [lia|].
           rewrite lookup_app_r by lia.
           replace (Z.to_nat (Z.of_nat h0 + i) - length (streams Wi))%nat
             with 0%nat by lia. done.
        -- apply lookup_insert_eq.
      * destruct (Hth t ltac:(lia)) as (Hv & Hs & Hf).
        split; [done|]. split.
        -- apply stream_name_Ret in Hs as [? Hs]. apply stream_name_Ret.
           simpl. split; [done|]. rewrite lookup_app_l; [done|].
           by eapply lookup_lt_Some.
        -- rewrite lookup_insert_ne; [done|].
           intros Heq. apply edges_file_name_inj in Heq. lia.
    + intros name Hname. rewrite lookup_insert_ne.
      * apply Hfr. intros t Ht. apply Hname. lia.
      * intros Heq. by apply (Hname i ltac:(lia)).
  - exists files, W'. destruct HP as (Hlen & Hsl & Hold & Hth & Hfr).
    simpl in *. split; [done|]. split; [done|]. split; [lia|].
    split; [done|]. split; [|done].
    intros t Ht. apply Hth. lia.
Qed.

Lemma init_files_ok w W :
  closed w → 0 ≤ num_threads_ w → 0 ≤ num_buckets_ w →
  ∃ w' W',
    init_files w W = Ret (w', W')
    ∧ sorted_inv (length (streams W)) [] w' W'
    ∧ (∀ name,
         (∀ t, 0 ≤ t < num_threads_ w →
               name ≠ edges_file_name (file_prefix_ w) t) →
         fs W' !! name = fs W !! name)
    ∧ kmer_size_ w' = kmer_size_ w
    ∧ words_per_edge_ w' = words_per_edge_ w
    ∧ num_threads_ w' = num_threads_ w
    ∧ num_buckets_ w' = num_buckets_ w
    ∧ unsorted_ w' = unsorted_ w
    ∧ num_unsorted_edges_ w' = num_unsorted_edges_ w
    ∧ file_prefix_ w' = file_prefix_ w.
Proof.
  intros (Hop & Hf & Hcb & Hcn & Hpr) HN HB. unfold init_files.
  rewrite Hop, Hf, Hcb, Hcn, Hpr. simpl.
  unfold vresize. rewrite !decide_True by done. simpl.
  rewrite !resize_nil.
  destruct (open_thread_files (file_prefix_ w) (Z.to_nat (num_threads_ w)) W)
    as (files & W' & Hrun & Hlen & Hsl & Hold & Hth & Hfr).
  rewrite Hrun. simpl. eexists _, _. split; [done|].
  split; [|split; [|done]].
  - split; simpl; try done.
    + by rewrite length_replicate.
    + by rewrite length_replicate.
    + by rewrite length_replicate.
    + lia.
    + intros t Ht. destruct (Hth t ltac:(lia)) as (Hv & Hs & Hfs).
      split; [done|]. split; [done|]. split; [done|].
      split; apply vec_at_Ret; (split; [lia|]);
        apply lookup_replicate_2; lia.
    + intros b Hb. exists PartitionRecord_new. split.
      * apply vec_at_Ret. split; [lia|]. apply lookup_replicate_2. lia.
      * by left.
  - intros name Hname. apply Hfr. intros t Ht. apply Hname. lia.
Qed.

Lemma init_files_pre w W s :
  init_files w W = Ret s →
  is_opened_ w = false ∧ 0 ≤ num_threads_ w ∧ 0 ≤ num_buckets_ w.
Proof.
  unfold init_files. intros Hrun.
  apply bind_Ret in Hrun as ([] & Ha & Hrun).
  apply bind_Ret in Hrun as (f & Hf & Hrun).
  apply bind_Ret in Hrun as (cb & _ & Hrun).
  apply bind_Ret in Hrun as (cn & _ & Hrun).
  apply bind_Ret in Hrun as (pr & Hp & _).
  apply vresize_Ret in Hf as [? _]. apply vresize_Ret in Hp as [? _].
  unfold assert in Ha. destruct (is_opened_ w); done.
Qed.

Lemma run_writes_inv log :
  ∀ h0 hist w W s',
    sorted_inv h0 hist w W →
    run_writes log (w, W) = Ret s' →
    sorted_inv h0 (hist ++ log) s'.1 s'.2.
Proof.
  induction log as [|c log IH]; intros h0 hist w W s' Hinv Hrun.
  - simpl in Hrun. injection Hrun as <-. by rewrite app_nil_r.
  - simpl in Hrun. apply bind_Ret in Hrun as ([w1 W1] & Hc & Hrun).
    pose proof (write_inv _ _ _ _ _ _ Hinv Hc) as Hinv1.
    replace (hist ++ c :: log) with ((hist ++ [c]) ++ log)
      by (by rewrite <- app_assoc).
    by eapply IH.
Qed.


Lemma vec_set_ok {A} (v : list A) i x :
  0 ≤ i < Z.of_nat (length v) → vec_set v i x = Ret (<[Z.to_nat i := x]> v).
Proof. intros Hi. apply vec_set_Ret. split; [lia|]. split; [lia|done]. Qed.

Lemma vec_at_insert_eq {A} (v : list A) i x :
  0 ≤ i < Z.of_nat (length v) → vec_at (<[Z.to_nat i := x]> v) i = Ret x.
Proof.
  intros Hi. rewrite vec_at_insert by lia.
  rewrite decide_True by done. rewrite decide_True by lia. done.
Qed.

(** A write that claims an unowned bucket. *)
Lemma write_claim_ok e b t w W cb pr n h name ws :
  vec_at (cur_bucket_ w) t = Ret cb → b ≠ cb →
  vec_at (p_rec_ w) b = Ret pr → thread_id pr = -1 →
  vec_at (cur_num_edges_ w) t = Ret n →
  vec_at (files_ w) t = Ret h →
  stream_name h W = Ret name →
  fs W !! name = Some (Binary ws) →
  0 ≤ words_per_edge_ w → (Z.to_nat (words_per_edge_ w) ≤ length e)%nat →
  write e b t w W
  = Ret (with_vectors (files_ w)
           (<[Z.to_nat t := b]> (cur_bucket_ w))
           (<[Z.to_nat t := n + 1]> (cur_num_edges_ w))
           (<[Z.to_nat b :=
                {| thread_id := t; starting_offset := n;
                   total_number := total_number pr + 1 |}]> (p_rec_ w))
           (is_opened_ w) w,
         {| fs := <[name := Binary (ws ++ take (Z.to_nat (words_per_edge_ w)) e)]>
                    (fs W);
            streams := streams W |}).
Proof.
  intros Hcb Hne Hpr Hown Hn Hh Hname Hfs Hw Hl.
  pose proof (vec_at_lt _ _ _ Hcb) as Ht.
  pose proof (vec_at_lt _ _ _ Hpr) as Hb.
  pose proof (vec_at_lt _ _ _ Hn) as Ht'.
  unfold write, claim. rewrite Hcb. simpl. rewrite decide_True by done.
  rewrite Hpr. simpl. rewrite Hown. simpl. rewrite Hn. simpl.
  rewrite vec_set_ok by done. simpl. rewrite vec_set_ok by done. simpl.
  rewrite Hh. simpl.
  assert (fwrite e (words_per_edge_ w) h W
          = Ret {| fs := <[name := Binary (ws ++ take (Z.to_nat
                                                  (words_per_edge_ w)) e)]>
                           (fs W);
                   streams := streams W |}) as ->.
  { apply fwrite_Ret. eauto 10. }
  simpl. rewrite Hn. simpl. rewrite vec_set_ok by done. simpl.
  rewrite vec_at_insert_eq by done. simpl.
  rewrite vec_set_ok by (rewrite length_insert; done). simpl.
  rewrite list_insert_insert_eq. done.
Qed.

(** A write to the current bucket of the thread. *)
Lemma write_current_ok e b t w W pr n h name ws :
  vec_at (cur_bucket_ w) t = Ret b →
  vec_at (p_rec_ w) b = Ret pr →
  vec_at (cur_num_edges_ w) t = Ret n →
  vec_at (files_ w) t = Ret h →
  stream_name h W = Ret name →
  fs W !! name = Some (Binary ws) →
  0 ≤ words_per_edge_ w → (Z.to_nat (words_per_edge_ w) ≤ length e)%nat →
  write e b t w W
  = Ret (with_vectors (files_ w) (cur_bucket_ w)
           (<[Z.to_nat t := n + 1]> (cur_num_edges_ w))
           (<[Z.to_nat b :=
                {| thread_id := thread_id pr;
                   starting_offset := starting_offset pr;
                   total_number := total_number pr + 1 |}]> (p_rec_ w))
           (is_opened_ w) w,
         {| fs := <[name := Binary (ws ++ take (Z.to_nat (words_per_edge_ w)) e)]>
                    (fs W);
            streams := streams W |}).
Proof.
  intros Hcb Hpr Hn Hh Hname Hfs Hw Hl.
  pose proof (vec_at_lt _ _ _ Hpr) as Hb.
  pose proof (vec_at_lt _ _ _ Hn) as Ht'.
  unfold write. rewrite Hcb. simpl.
  rewrite decide_False by (intros Hne; by apply Hne). simpl.
  rewrite Hh. simpl.
  assert (fwrite e (words_per_edge_ w) h W
          = Ret {| fs := <[name := Binary (ws ++ take (Z.to_nat
                                                  (words_per_edge_ w)) e)]>
                           (fs W);
                   streams := streams W |}) as ->.
  { apply fwrite_Ret. eauto 10. }
  simpl. rewrite Hn. simpl. rewrite vec_set_ok by done. simpl.
  rewrite Hpr. simpl. rewrite vec_set_ok by done. done.
Qed.

(** A write that would claim a bucket that has an owner. *)
Lemma write_owned_fails e b t w W cb pr :
  vec_at (cur_bucket_ w) t = Ret cb → b ≠ cb →
  vec_at (p_rec_ w) b = Ret pr → thread_id pr ≠ -1 →
  write e b t w W = Abort AssertionFailed.
Proof.
  intros Hcb Hne Hpr Hown. unfold write, claim. rewrite Hcb. simpl.
  rewrite decide_True by done. rewrite Hpr. simpl.
  rewrite bool_decide_eq_false_2 by done. done.
Qed.

(** In a state reached by writes, a bucket without owner has no records and
    is the current bucket of no thread, and the current bucket of a thread
    is one it owns. *)
Lemma sorted_inv_unowned h0 hist w W b pr t :
  sorted_inv h0 hist w W →
  vec_at (p_rec_ w) b = Ret pr → thread_id pr = -1 →
  0 ≤ t < num_threads_ w →
  pr = PartitionRecord_new ∧ bucket_log b hist = []
  ∧ last_bucket t hist ≠ b.
Proof.
  intros Hinv Hpr Hown Ht.
  assert (0 ≤ b < num_buckets_ w) as Hb.
  { apply vec_at_lt in Hpr. rewrite (inv_prec_len _ _ _ _ Hinv) in Hpr. lia. }
  destruct (inv_bucket _ _ _ _ Hinv b Hb) as (pr' & Hpr' & Hbinv).
  rewrite Hpr in Hpr'. injection Hpr' as <-.
  destruct Hbinv as [[Hnil ->]|[Hr _]]; [|lia].
  split; [done|]. split; [done|]. intros Hlast.
  destruct (decide (thread_log t hist = [])) as [Hth|Hth].
  - unfold last_bucket in Hlast. rewrite Hth in Hlast. simpl in Hlast. lia.
  - destruct (bucket_inv_current (num_threads_ w) b PartitionRecord_new hist t)
      as (Ho & _); [by left|done|done|]. simpl in Ho. lia.
Qed.

Lemma sorted_inv_current h0 hist w W b pr t :
  sorted_inv h0 hist w W →
  vec_at (p_rec_ w) b = Ret pr →
  vec_at (cur_bucket_ w) t = Ret b →
  thread_id pr = t.
Proof.
  intros Hinv Hpr Hcb.
  assert (0 ≤ b < num_buckets_ w) as Hb.
  { apply vec_at_lt in Hpr. rewrite (inv_prec_len _ _ _ _ Hinv) in Hpr. lia. }
  assert (0 ≤ t < num_threads_ w) as Ht.
  { apply vec_at_lt in Hcb. rewrite (inv_cb_len _ _ _ _ Hinv) in Hcb. lia. }
  destruct (inv_thread _ _ _ _ Hinv t Ht) as (_ & _ & _ & _ & Hcb').
  rewrite Hcb in Hcb'. injection Hcb' as Hlast.
  destruct (inv_bucket _ _ _ _ Hinv b Hb) as (pr' & Hpr' & Hbinv).
  rewrite Hpr in Hpr'. injection Hpr' as <-.
  destruct (decide (thread_log t hist = [])) as [Hth|Hth].
  - unfold last_bucket in Hlast. rewrite Hth in Hlast. simpl in Hlast. lia.
  - by destruct (bucket_inv_current _ _ _ _ _ Hbinv Hth (eq_sym Hlast)).
Qed.


Lemma reached_sorted_inv w0 W0 s1 log s :
  closed w0 →
  init_files w0 W0 = Ret s1 →
  run_writes log s1 = Ret s →
  sorted_inv (length (streams W0)) log s.1 s.2
  ∧ num_threads_ s.1 = num_threads_ w0
  ∧ num_buckets_ s.1 = num_buckets_ w0
  ∧ words_per_edge_ s.1 = words_per_edge_ w0
  ∧ file_prefix_ s.1 = file_prefix_ w0.
Proof.
  intros Hcl Hinit Hrun.
  destruct (init_files_pre _ _ _ Hinit) as (_ & HN & HB).
  destruct (init_files_ok w0 W0 Hcl HN HB)
    as (w1 & W1 & Hinit' & Hinv & _ & _ & Hwpe & Hn & Hb & _ & _ & Hp).
  rewrite Hinit in Hinit'. injection Hinit' as ->.
  clear Hinit. revert Hwpe Hn Hb Hp Hinv Hrun.
  generalize (length (streams W0)). intros h0.
  change log with ([] ++ log) at 2. generalize (@nil write_call) as hist.
  revert w1 W1. induction log as [|c log IH]; intros w1 W1 hist.
  - intros ???? Hinv [= <-]. rewrite app_nil_r. done.
  - intros Hwpe Hn Hb Hp Hinv Hrun. simpl in Hrun.
    apply bind_Ret in Hrun as ([w2 W2] & Hc & Hrun).
    pose proof (write_inv _ _ _ _ _ _ Hinv Hc) as Hinv2. simpl in Hinv2.
    replace (hist ++ c :: log) with ((hist ++ [c]) ++ log)
      by (by rewrite <- app_assoc).
    unfold do_write in Hc. simpl in Hc.
    apply write_Ret in Hc as (? & ? & ? & ? & ? & ? & _ & _ & _ & _ & _ & _
                              & _ & _ & _ & -> & ->).
    eapply (IH _ _ (hist ++ [c])); [..|exact Hinv2|exact Hrun]; done.
Qed.

Lemma length_concat_records wpe l :
  Forall (λ c, (Z.to_nat wpe ≤ length (wc_edge c))%nat) l →
  length (concat (records wpe l)) = (Z.to_nat wpe * length l)%nat.
Proof.
  induction 1 as [|c l Hc _ IH]; simpl; [lia|].
  rewrite length_app, length_take, IH. lia.
Qed.

Lemma concat_records_slice wpe pre run post :
  Forall (λ c, (Z.to_nat wpe ≤ length (wc_edge c))%nat) (pre ++ run ++ post) →
  take (Z.to_nat wpe * length run)
    (drop (Z.to_nat wpe * length pre)
       (concat (records wpe (pre ++ run ++ post))))
  = concat (records wpe run).
Proof.
  rewrite !Forall_app. intros (Hpre & Hrun & Hpost).
  unfold records. rewrite !fmap_app, !concat_app.
  rewrite drop_app_length' by (by rewrite <- length_concat_records).
  rewrite take_app_length' by (by rewrite <- length_concat_records). done.
Qed.

End writer_lemmas.

Section writer_claims.
Import EdgeWriter.

(** C4.  In a state reached by [init_files] and writes, for a thread [tid]
    and a bucket [bucket] of the store:
    - when the bucket is owned by another thread, [write] fails its
      assertion;
    - when the bucket has no owner, [write] succeeds and records [tid] as
      the owner and the record count of the thread as the starting offset,
      the bucket now counting one record and the thread one more;
    - when the bucket is the current bucket of the thread, [write] succeeds
      and adds one to the count of the thread and to the total of the
      bucket, owner and starting offset staying as they are. *)
Theorem C4_write_claims_bucket_exclusively
    (w0 : EdgeWriter.t) (W0 : World) (s1 : EdgeWriter.t * World)
    (log : list write_call) (w : EdgeWriter.t) (W : World)
    (e : list Z) (bucket tid : Z) (pr : PartitionRecord) (n : Z) :
  closed w0 →
  init_files w0 W0 = Ret s1 →
  run_writes log s1 = Ret (w, W) →
  vec_at (p_rec_ w) bucket = Ret pr →
  vec_at (cur_num_edges_ w) tid = Ret n →
  (thread_id pr ≠ -1 → thread_id pr ≠ tid →
   write e bucket tid w W = Abort AssertionFailed)
  ∧ (thread_id pr = -1 →
     0 ≤ words_per_edge_ w ≤ Z.of_nat (length e) →
     ∃ w' W',
       write e bucket tid w W = Ret (w', W')
       ∧ vec_at (p_rec_ w') bucket
         = Ret {| thread_id := tid; starting_offset := n; total_number := 1 |}
       ∧ vec_at (cur_num_edges_ w') tid = Ret (n + 1)
       ∧ vec_at (cur_bucket_ w') tid = Ret bucket)
  ∧ (vec_at (cur_bucket_ w) tid = Ret bucket →
     0 ≤ words_per_edge_ w ≤ Z.of_nat (length e) →
     thread_id pr = tid
     ∧ ∃ w' W',
         write e bucket tid w W = Ret (w', W')
         ∧ vec_at (p_rec_ w') bucket
           = Ret {| thread_id := tid;
                    starting_offset := starting_offset pr;
                    total_number := total_number pr + 1 |}
         ∧ vec_at (cur_num_edges_ w') tid = Ret (n + 1)
         ∧ vec_at (cur_bucket_ w') tid = Ret bucket).
Proof.
  intros Hcl Hinit Hrun Hpr Hn.
  destruct (reached_sorted_inv _ _ _ _ _ Hcl Hinit Hrun) as (Hinv & _).
  simpl in Hinv.
  assert (0 ≤ tid < num_threads_ w) as Ht.
  { apply vec_at_lt in Hn. rewrite (inv_cn_len _ _ _ _ Hinv) in Hn. lia. }
  pose proof (vec_at_lt _ _ _ Hpr) as Hb.
  pose proof (vec_at_lt _ _ _ Hn) as Ht'.
  destruct (inv_thread _ _ _ _ Hinv tid Ht) as (Hh & Hname & Hfs & _ & Hcb).
  split; [|split].
  - intros Hown Hother. eapply write_owned_fails; [done| |done|done].
    intros ->. by apply Hother, (sorted_inv_current _ _ _ _ _ _ _ Hinv Hpr).
  - intros Hown Hwpe.
    destruct (sorted_inv_unowned _ _ _ _ _ _ _ Hinv Hpr Hown Ht)
      as (-> & _ & Hlast).
    eexists _, _. split.
    { eapply write_claim_ok; try done; lia. }
    simpl. rewrite !vec_at_insert_eq by (done || lia).
    split; [done|]. split; [done|]. apply vec_at_insert_eq.
    rewrite (inv_cb_len _ _ _ _ Hinv). lia.
  - intros Hcur Hwpe.
    pose proof (sorted_inv_current _ _ _ _ _ _ _ Hinv Hpr Hcur) as Howner.
    split; [done|]. eexists _, _. split.
    { eapply write_current_ok; try done; lia. }
    simpl. rewrite !vec_at_insert_eq by done. rewrite Howner. done.
Qed.


(** C10.  [write] fails its assertion whenever the bucket is not the current
    bucket of the calling thread and has an owner, whoever the owner is --
    the calling thread included.  Hence, after any writes that all returned,
    the records of a bucket with an owner are one run of the records its
    owner wrote, in the order written: the run starts [starting_offset]
    records into the owner's calls, is [total_number] records long, no other
    call of the owner is for the bucket, and the words of the run are the
    words of the owner's file from word [words_per_edge * starting_offset]
    on. *)
Theorem C10_bucket_is_one_contiguous_run :
  (∀ e bucket tid w W cb pr,
     vec_at (cur_bucket_ w) tid = Ret cb → bucket ≠ cb →
     vec_at (p_rec_ w) bucket = Ret pr → thread_id pr ≠ -1 →
     write e bucket tid w W = Abort AssertionFailed)
  ∧ (∀ w0 W0 s1 log w W b pr,
       closed w0 →
       init_files w0 W0 = Ret s1 →
       run_writes log s1 = Ret (w, W) →
       vec_at (p_rec_ w) b = Ret pr → thread_id pr ≠ -1 →
       ∃ pre post ws,
         thread_log (thread_id pr) log = pre ++ bucket_log b log ++ post
         ∧ Forall (λ c, wc_bucket c ≠ b) pre
         ∧ Forall (λ c, wc_bucket c ≠ b) post
         ∧ starting_offset pr = Z.of_nat (length pre)
         ∧ total_number pr = Z.of_nat (length (bucket_log b log))
         ∧ 1 ≤ total_number pr
         ∧ fs W !! edges_file_name (file_prefix_ w) (thread_id pr)
           = Some (Binary ws)
         ∧ ws = concat (records (words_per_edge_ w)
                          (thread_log (thread_id pr) log))
         ∧ take (Z.to_nat (words_per_edge_ w * total_number pr))
             (drop (Z.to_nat (words_per_edge_ w * starting_offset pr)) ws)
           = concat (records (words_per_edge_ w) (bucket_log b log))).
Proof.
  split.
  - intros e bucket tid w W cb pr. apply write_owned_fails.
  - intros w0 W0 s1 log w W b pr Hcl Hinit Hrun Hpr Hown.
    destruct (reached_sorted_inv _ _ _ _ _ Hcl Hinit Hrun) as (Hinv & _).
    simpl in Hinv.
    assert (0 ≤ b < num_buckets_ w) as Hb.
    { apply vec_at_lt in Hpr. rewrite (inv_prec_len _ _ _ _ Hinv) in Hpr.
      lia. }
    destruct (inv_bucket _ _ _ _ Hinv b Hb) as (pr' & Hpr' & Hbinv).
    rewrite Hpr in Hpr'. injection Hpr' as <-.
    destruct Hbinv as [[_ ->]|(Hr & pre & run & post & Hlog & Hrunb & Hrn
                               & Hoff & Htot & Hpre & Hpost)]; [done|].
    destruct (inv_thread _ _ _ _ Hinv _ Hr) as (_ & _ & Hfs & _ & _).
    subst run. exists pre, post. eexists.
    repeat (split; [done|]).
    split; [destruct (bucket_log b log); [done|simpl in Htot; lia]|].
    split; [done|]. split; [done|].
    pose proof (inv_calls _ _ _ _ Hinv) as Hcalls.
    assert (0 ≤ words_per_edge_ w) as Hwpe.
    { destruct (bucket_log b log) as [|c l] eqn:Hbl; [done|].
      assert (c ∈ bucket_log b log) as Hc by (rewrite Hbl; left).
      apply list_elem_of_filter in Hc as [_ Hc].
      rewrite Forall_forall in Hcalls. by destruct (Hcalls c Hc) as (_&_&?&_). }
    rewrite Hoff, Htot, Hlog.
    replace (Z.to_nat (words_per_edge_ w * Z.of_nat (length (bucket_log b log))))
      with (Z.to_nat (words_per_edge_ w) * length (bucket_log b log))%nat
      by lia.
    replace (Z.to_nat (words_per_edge_ w * Z.of_nat (length pre)))
      with (Z.to_nat (words_per_edge_ w) * length pre)%nat by lia.
    apply concat_records_slice. rewrite <- Hlog.
    apply Forall_forall. intros c Hc.
    apply list_elem_of_filter in Hc as [_ Hc].
    rewrite Forall_forall in Hcalls. by destruct (Hcalls c Hc) as (_&_&_&?).
Qed.

End writer_claims.

Lemma ex_writer_closed B : closed (ex_writer B).
Proof. by repeat split. Qed.

Lemma C4_witness :
  ∃ w W,
    (s1 ← EdgeWriter.init_files (ex_writer 3) empty_world;
     run_writes ex_log s1) = Ret (w, W)
    ∧ EdgeWriter.write [9; 9] 2 0 w W = Abort AssertionFailed
    ∧ ∃ w' W', EdgeWriter.write [9; 9] 0 0 w W = Ret (w', W')
               ∧ vec_at (EdgeWriter.p_rec_ w') 0
                 = Ret {| thread_id := 0; starting_offset := 2;
                          total_number := 2 |}.
Proof.
  eassert (EdgeWriter.init_files (ex_writer 3) empty_world = Ret _) as Hinit
    by (vm_compute; reflexivity).
  match type of Hinit with
  | _ = Ret ?s1 =>
      eassert (run_writes ex_log s1 = Ret (_, _)) as Hrun
        by (vm_compute; reflexivity)
  end.
  match type of Hrun with
  | _ = Ret (?w, ?W) =>
      exists w, W;
      eassert (vec_at (EdgeWriter.p_rec_ w) 2 = Ret _) as Hp2
        by (vm_compute; reflexivity);
      eassert (vec_at (EdgeWriter.p_rec_ w) 0 = Ret _) as Hp0
        by (vm_compute; reflexivity);
      eassert (vec_at (EdgeWriter.cur_num_edges_ w) 0 = Ret _) as Hn
        by (vm_compute; reflexivity)
  end.
  split; [rewrite Hinit; exact Hrun|].
  split.
  - apply (C4_write_claims_bucket_exclusively _ _ _ _ _ _ [9; 9] 2 0 _ _
             (ex_writer_closed 3) Hinit Hrun Hp2 Hn); discriminate.
  - destruct (C4_write_claims_bucket_exclusively _ _ _ _ _ _ [9; 9] 0 0 _ _
                (ex_writer_closed 3) Hinit Hrun Hp0 Hn) as (_ & _ & Hcur).
    destruct Hcur as (_ & w' & W' & Hw & Hp & _);
      [vm_compute; reflexivity|vm_compute; split; discriminate|].
    exists w', W'. split; [exact Hw|exact Hp].
Defined.

Lemma C10_witness :
  ∃ w W,
    (s1 ← EdgeWriter.init_files (ex_writer 3) empty_world;
     run_writes ex_log s1) = Ret (w, W)
    ∧ ∃ ws, fs W !! edges_file_name "out" 0 = Some (Binary ws)
            ∧ take (Z.to_nat (2 * 2)) (drop (Z.to_nat (2 * 0)) ws)
              = [1; 2; 5; 6].
Proof.
  eassert (EdgeWriter.init_files (ex_writer 3) empty_world = Ret _) as Hinit
    by (vm_compute; reflexivity).
  match type of Hinit with
  | _ = Ret ?s1 =>
      eassert (run_writes ex_log s1 = Ret (_, _)) as Hrun
        by (vm_compute; reflexivity)
  end.
  match type of Hrun with
  | _ = Ret (?w, ?W) =>
      exists w, W;
      eassert (vec_at (EdgeWriter.p_rec_ w) 1 = Ret _) as Hp1
        by (vm_compute; reflexivity)
  end.
  split; [rewrite Hinit; exact Hrun|].
  destruct C10_bucket_is_one_contiguous_run as [_ Hrun_of].
  destruct (Hrun_of _ _ _ _ _ _ 1 _ (ex_writer_closed 3) Hinit Hrun Hp1)
    as (pre & post & ws & _ & _ & _ & _ & _ & _ & Hfs & _ & Hslice);
    [discriminate|].
  exists ws. split; [exact Hfs|exact Hslice].
Defined.

(** ** Teardown *)

Lemma fclose_Ret h W W' :
  fclose h W = Ret W'
  ↔ (∃ name, stream_name h W = Ret name)
    ∧ W' = {| fs := fs W; streams := <[Z.to_nat h := None]> (streams W) |}.
Proof.
  unfold fclose. destruct (stream_name h W) as [name|e]; simpl; split.
  - intros [= <-]. eauto.
  - intros [_ ->]. done.
  - done.
  - intros [[name [=]] _].
Qed.

Lemma fclose_closes h W W' : fclose h W = Ret W' → closed_stream h W'.
Proof.
  intros [[name Hn] ->]%fclose_Ret. apply stream_name_Ret in Hn as [Hh Hn].
  split; [done|]. simpl. apply list_lookup_insert_eq. by eapply lookup_lt_Some.
Qed.

Lemma fclose_keeps_closed h h' W W' :
  fclose h W = Ret W' → closed_stream h' W → closed_stream h' W'.
Proof.
  intros [_ ->]%fclose_Ret [Hh' Hc]. split; [done|]. simpl.
  destruct (decide (Z.to_nat h = Z.to_nat h')) as [Heq|Hne].
  - rewrite Heq. apply list_lookup_insert_eq. by eapply lookup_lt_Some.
  - by rewrite list_lookup_insert_ne.
Qed.


Lemma closed_stream_name h W : closed_stream h W → stream_name h W = Abort IOFailure.
Proof.
  intros [Hh Hc]. unfold stream_name. rewrite decide_True by done.
  by rewrite Hc.
Qed.


(** A loop that closes the stream found by [get] in each round. *)
Lemma close_loop (get : Z → res Z) n :
  ∀ from W W',
    for_range from n (λ i W, f ← get i; fclose f W) W = Ret W' →
    fs W' = fs W
    ∧ length (streams W') = length (streams W)
    ∧ (∀ h, closed_stream h W → closed_stream h W')
    ∧ ∀ i, from ≤ i < from + Z.of_nat n →
           ∃ h, get i = Ret h ∧ closed_stream h W'.
Proof.
  induction n as [|n IH]; intros from W W' Hrun; simpl in Hrun.
  - injection Hrun as <-. split; [done|]. split; [done|]. split; [done|].
    intros i Hi. lia.
  - apply bind_Ret in Hrun as (W1 & Hb & Hrun).
    apply bind_Ret in Hb as (f & Hf & Hc).
    destruct (IH _ _ _ Hrun) as (Hfs & Hlen & Hkeep & Hall).
    pose proof Hc as [_ HW1]%fclose_Ret.
    split; [by rewrite Hfs, HW1|].
    split; [by rewrite Hlen, HW1; simpl; rewrite length_insert|].
    split.
    + intros h Hh. by eapply Hkeep, fclose_keeps_closed.
    + intros i Hi. destruct (decide (i = from)) as [->|Hne].
      * exists f. split; [done|]. by eapply Hkeep, fclose_closes.
      * apply (Hall i). lia.
Qed.

(** [destroy] returns on an opened instance whose streams are open, as
    [init_files] leaves them. *)
Section teardown_returns.
Import EdgeWriter.

Lemma destroy_ok (h0 : nat) w W :
  is_opened_ w = true →
  (∀ t, 0 ≤ t < num_threads_ w →
     ∃ name, vec_at (files_ w) t = Ret (Z.of_nat h0 + t)
             ∧ stream_name (Z.of_nat h0 + t) W = Ret name) →
  ∃ s, destroy w W = Ret s.
Proof.
  intros Hop Hth. unfold destroy. rewrite Hop.
  set (P := λ (i : Z) (Wi : World),
         ∀ t, i ≤ t < num_threads_ w →
           ∃ name, stream_name (Z.of_nat h0 + t) Wi = Ret name).
  destruct (for_range_total P (λ i W, f ← vec_at (files_ w) i; fclose f W)
              (Z.to_nat (num_threads_ w)) 0 W) as (W1 & Hloop & _).
  - intros t Ht. destruct (Hth t ltac:(lia)) as (name & _ & Hn). eauto.
  - intros i Wi Hi HP.
    destruct (Hth i ltac:(lia)) as (name & Hf & _). rewrite Hf. simpl.
    destruct (HP i ltac:(lia)) as (name' & Hn'). unfold fclose.
    rewrite Hn'. simpl. eexists. split; [done|].
    intros t Ht. destruct (HP t ltac:(lia)) as (nt & Hnt).
    exists nt. apply stream_name_Ret in Hnt as [? Hnt].
    apply stream_name_Ret. split; [done|]. simpl.
    rewrite list_lookup_insert_ne by lia. done.
  - rewrite Hloop. simpl. unfold fprintf.
    assert (∀ fsm, stream_name (Z.of_nat (length (streams W1)))
                     {| fs := fsm;
                        streams := streams W1
                          ++ [Some (info_file_name (file_prefix_ w))] |}
                   = Ret (info_file_name (file_prefix_ w))) as Hnew.
    { intros fsm. apply stream_name_Ret. split; [lia|]. simpl.
      rewrite Nat2Z.id, lookup_app_r by lia. by rewrite Nat.sub_diag. }
    rewrite Hnew. simpl. rewrite lookup_insert_eq. simpl.
    unfold fclose. rewrite Hnew. simpl. eauto.
Qed.

End teardown_returns.

Section reader_teardown_returns.
Import EdgeReader.

Lemma reader_destroy_ok (h0 : nat) r W :
  is_opened_ r = true →
  (∀ i, 0 ≤ i < num_files_ r →
     ∃ p n name,
       vec_at (mmaps_ r) i = Ret p ∧ vec_at (file_sizes_ r) i = Ret n
       ∧ vec_at (fds_ r) i = Ret (Z.of_nat h0 + i)
       ∧ stream_name (Z.of_nat h0 + i) W = Ret name) →
  ∃ s, destroy r W = Ret s.
Proof.
  intros Hop Hf. unfold destroy. rewrite Hop.
  set (P := λ (i : Z) (Wi : World),
         ∀ t, i ≤ t < num_files_ r →
           ∃ name, stream_name (Z.of_nat h0 + t) Wi = Ret name).
  destruct (for_range_total P (unmap_file r) (Z.to_nat (num_files_ r)) 0 W)
    as (W1 & Hloop & _).
  - intros t Ht. destruct (Hf t ltac:(lia)) as (p & n & name & _ & _ & _ & Hn).
    eauto.
  - intros i Wi Hi HP.
    destruct (Hf i ltac:(lia)) as (p & n & name & Hp & Hn & Hfd & _).
    unfold unmap_file. rewrite Hp. simpl. rewrite Hn. simpl.
    rewrite Hfd. simpl.
    destruct (HP i ltac:(lia)) as (name' & Hn'). unfold fclose.
    rewrite Hn'. simpl. eexists. split; [done|].
    intros t Ht. destruct (HP t ltac:(lia)) as (nt & Hnt).
    exists nt. apply stream_name_Ret in Hnt as [? Hnt].
    apply stream_name_Ret. split; [done|]. simpl.
    rewrite list_lookup_insert_ne by lia. done.
  - rewrite Hloop. simpl. eauto.
Qed.

End reader_teardown_returns.



(** ** Unsorted stores: the writer *)

Section unsorted_writer.
Import EdgeWriter.

Lemma thread_edges_snoc wpe t hist c :
  thread_edges wpe t (hist ++ [c])
  = thread_edges wpe t hist
    ++ (if decide (uc_tid c = t) then [take (Z.to_nat wpe) (uc_edge c)]
        else []).
Proof.
  unfold thread_edges. rewrite filter_app, fmap_app. f_equal.
  destruct (decide (uc_tid c = t)).
  - by rewrite filter_cons_True.
  - by rewrite filter_cons_False.
Qed.

Lemma write_unsorted_inv h0 hist w W c s' :
  unsorted_inv h0 hist w W →
  do_write_unsorted c (w, W) = Ret s' →
  unsorted_inv h0 (hist ++ [c]) s'.1 s'.2
  ∧ num_threads_ s'.1 = num_threads_ w
  ∧ num_buckets_ s'.1 = num_buckets_ w
  ∧ words_per_edge_ s'.1 = words_per_edge_ w
  ∧ kmer_size_ s'.1 = kmer_size_ w
  ∧ file_prefix_ s'.1 = file_prefix_ w
  ∧ unsorted_ s'.1 = unsorted_ w
  ∧ p_rec_ s'.1 = p_rec_ w.
Proof.
  intros [Hop HN Hfl Hnl Hth Hcalls] Hrun. destruct c as [e t].
  unfold do_write_unsorted, write_unsorted in Hrun. simpl in Hrun.
  apply bind_Ret in Hrun as (h & Hh & Hrun).
  apply bind_Ret in Hrun as (W1 & HW1 & Hrun).
  apply fwrite_Ret in HW1 as (name & ws & Hname & Hfs & Hc & Hl & ->).
  apply bind_Ret in Hrun as (n & Hn & Hrun).
  apply bind_Ret in Hrun as (nu & Hnu & Hrun).
  apply vec_set_Ret in Hnu as (_ & _ & ->). injection Hrun as <-.
  assert (0 ≤ t < num_threads_ w) as Ht.
  { apply vec_at_lt in Hh. lia. }
  destruct (Hth t Ht) as (Hh' & Hname' & Hfs' & Hn').
  rewrite Hh in Hh'. injection Hh' as ->.
  rewrite Hname in Hname'. injection Hname' as ->.
  rewrite Hfs in Hfs'. injection Hfs' as ->.
  rewrite Hn in Hn'. injection Hn' as ->.
  simpl. split; [|done]. split; simpl; try done.
  - by rewrite length_insert.
  - intros t' Ht'. destruct (Hth t' Ht') as (Hh' & Hname' & Hfs' & Hn').
    split; [done|]. split.
    { rewrite <- Hname'. by apply stream_name_same_streams. }
    rewrite vec_at_insert by lia. rewrite thread_edges_snoc. simpl.
    destruct (decide (t' = t)) as [->|Hne].
    + rewrite lookup_insert_eq, !decide_True by done.
      rewrite decide_True by lia.
      rewrite concat_app, length_app. simpl. rewrite app_nil_r.
      split; [done|]. f_equal. lia.
    + rewrite lookup_insert_ne
        by (intros Heq; apply edges_file_name_inj in Heq; congruence).
      rewrite !decide_False by congruence. rewrite app_nil_r. done.
  - apply Forall_app. split; [done|]. apply Forall_singleton. simpl. done.
Qed.

Lemma run_unsorted_inv calls :
  ∀ h0 hist w W s',
    unsorted_inv h0 hist w W →
    run_unsorted calls (w, W) = Ret s' →
    unsorted_inv h0 (hist ++ calls) s'.1 s'.2
    ∧ num_threads_ s'.1 = num_threads_ w
    ∧ num_buckets_ s'.1 = num_buckets_ w
    ∧ words_per_edge_ s'.1 = words_per_edge_ w
    ∧ kmer_size_ s'.1 = kmer_size_ w
    ∧ file_prefix_ s'.1 = file_prefix_ w
    ∧ unsorted_ s'.1 = unsorted_ w
    ∧ p_rec_ s'.1 = p_rec_ w.
Proof.
  induction calls as [|c calls IH]; intros h0 hist w W s' Hinv Hrun.
  - simpl in Hrun. injection Hrun as <-. by rewrite app_nil_r.
  - simpl in Hrun. apply bind_Ret in Hrun as ([w1 W1] & Hc & Hrun).
    destruct (write_unsorted_inv _ _ _ _ _ _ Hinv Hc)
      as (Hinv1 & <- & <- & <- & <- & <- & <- & <-).
    replace (hist ++ c :: calls) with ((hist ++ [c]) ++ calls)
      by (by rewrite <- app_assoc).
    by eapply IH.
Qed.

(** [set_unsorted] and [init_files] on a writer that is not opened. *)
Lemma unsorted_init w0 W0 w1 s2 :
  closed w0 →
  set_unsorted w0 = Ret w1 →
  init_files w1 W0 = Ret s2 →
  unsorted_inv (length (streams W0)) [] s2.1 s2.2
  ∧ (∀ name,
       (∀ t, 0 ≤ t < num_threads_ w0 →
             name ≠ edges_file_name (file_prefix_ w0) t) →
       fs s2.2 !! name = fs W0 !! name)
  ∧ num_threads_ s2.1 = num_threads_ w0
  ∧ num_buckets_ s2.1 = 0
  ∧ words_per_edge_ s2.1 = words_per_edge_ w0
  ∧ kmer_size_ s2.1 = kmer_size_ w0
  ∧ file_prefix_ s2.1 = file_prefix_ w0
  ∧ unsorted_ s2.1 = true
  ∧ p_rec_ s2.1 = [].
Proof.
  intros (Hop & Hf & Hcb & Hcn & Hpr) Hset Hinit.
  unfold set_unsorted in Hset.
  apply bind_Ret in Hset as (nu & Hnu & Hset). injection Hset as <-.
  apply vresize_Ret in Hnu as [HN ->]. rewrite resize_nil in Hinit.
  match type of Hinit with
  | init_files ?w _ = _ =>
      destruct (init_files_ok w W0) as (w2 & W2 & Hinit' & Hinv & Hfr & Hk
                                        & Hw & Hn & Hb & Hu & Hnu & Hp);
        [by repeat split|done|done|]
  end.
  rewrite Hinit in Hinit'. injection Hinit' as ->. simpl in *.
  destruct Hinv as [Hop2 HN2 HB2 Hfl Hcbl Hcnl Hprl Hsl Hth Hcalls Hbk].
  rewrite Hn in *. rewrite Hb in *. rewrite Hw in *. rewrite Hp in *.
  split; [|repeat (split; [done|])].
  - split; try done.
    + by rewrite Hn.
    + by rewrite Hn.
    + rewrite Hnu, length_replicate. by rewrite Hn.
    + rewrite Hn, Hp, Hw. intros t Ht.
      destruct (Hth t Ht) as (Hh & Hname & Hfs & _ & _).
      split; [done|]. split; [done|]. split; [done|].
      rewrite Hnu. apply vec_at_Ret. split; [lia|].
      apply lookup_replicate_2. lia.
  - destruct (p_rec_ w2); [done|]. simpl in Hprl. lia.
Qed.

End unsorted_writer.

(** ** The metadata file *)

Lemma destroy_opened w W w' W' :
  EdgeWriter.is_opened_ w = true →
  EdgeWriter.destroy w W = Ret (w', W') →
  w' = EdgeWriter.with_vectors [] [] [] [] false w
  ∧ fs W'
    = <[info_file_name (EdgeWriter.file_prefix_ w) :=
          Text (EdgeWriter.info_text w
                  (if negb (EdgeWriter.unsorted_ w)
                   then sumZ (total_number <$> EdgeWriter.p_rec_ w)
                   else sumZ (EdgeWriter.num_unsorted_edges_ w)))]> (fs W).
Proof.
  intros Hop. unfold EdgeWriter.destroy. rewrite Hop. intros Hrun.
  apply bind_Ret in Hrun as (W1 & Hloop & Hrun).
  destruct (fopen_w _ _ W1) as [info W2] eqn:Hopen.
  apply bind_Ret in Hrun as (W3 & Hpr & Hrun).
  apply bind_Ret in Hrun as (W4 & Hcl & Hrun).
  injection Hrun as <- <-. split; [done|].
  apply close_loop in Hloop as (Hfs1 & _).
  unfold fopen_w in Hopen. injection Hopen as <- <-.
  unfold fprintf in Hpr. apply bind_Ret in Hpr as (name & Hname & Hpr).
  assert (name = info_file_name (EdgeWriter.file_prefix_ w)) as ->.
  { apply stream_name_Ret in Hname as [_ Hname]. simpl in Hname.
    rewrite lookup_app_r in Hname by lia.
    replace (Z.to_nat (Z.of_nat (length (streams W1)))
             - length (streams W1))%nat with 0%nat in Hname by lia.
    simpl in Hname. congruence. }
  simpl in Hpr. rewrite lookup_insert_eq in Hpr. injection Hpr as <-.
  apply fclose_Ret in Hcl as [_ ->]. simpl.
  by rewrite insert_insert_eq, Hfs1.
Qed.

Section metadata.
Import EdgeReader.

Lemma scan_key_ok key v rest :
  scan_key key (Lit key :: Int v :: rest) = Ret (v, rest).
Proof. unfold scan_key. by rewrite decide_True. Qed.

(** The loop of [read_info] over the per-file lines. *)
Lemma read_file_sizes (g : nat → Z) counts rest :
  ∀ (i : nat) fsz,
    length fsz = (i + length counts)%nat →
    for_range (Z.of_nat i) (length counts) read_file_size
      (fsz, concat (imap (λ j c, [Int (g j); Int c]) counts) ++ rest)
    = Ret (take i fsz ++ counts, rest).
Proof.
  revert g. induction counts as [|c counts IH]; intros g i fsz Hlen; simpl.
  - rewrite take_ge by (simpl in Hlen; lia). by rewrite app_nil_r.
  - simpl in Hlen. rewrite vec_set_ok by lia. simpl.
    replace (Z.of_nat i + 1) with (Z.of_nat (S i)) by lia.
    rewrite (IH (g ∘ S)) by (rewrite length_insert; lia).
    rewrite Nat2Z.id. f_equal. f_equal.
    rewrite (take_S_r _ _ c) by (apply list_lookup_insert_eq; lia).
    rewrite take_insert_ge by lia. by rewrite <- app_assoc.
Qed.

Lemma read_info_unsorted r W w ne :
  p_rec_ r = [] → file_sizes_ r = [] →
  fs W !! info_file_name (file_prefix_ r)
  = Some (Text (EdgeWriter.info_text w ne)) →
  EdgeWriter.num_buckets_ w = 0 → EdgeWriter.p_rec_ w = [] →
  0 ≤ EdgeWriter.num_threads_ w →
  length (EdgeWriter.num_unsorted_edges_ w)
  = Z.to_nat (EdgeWriter.num_threads_ w) →
  ∃ W',
    read_info r W
    = Ret (with_info (EdgeWriter.kmer_size_ w) (EdgeWriter.words_per_edge_ w)
             (EdgeWriter.num_threads_ w) 0 ne []
             (EdgeWriter.num_unsorted_edges_ w) r, W')
    ∧ fs W' = fs W.
Proof.
  intros Hpr Hfsz Hinfo HB Hwpr HN Hlen.
  unfold read_info, fopen_r. rewrite Hinfo. simpl.
  unfold EdgeWriter.info_text. rewrite Hwpr, HB. simpl.
  rewrite Hpr, Hfsz.
  unfold vresize. rewrite !decide_True by done. simpl.
  rewrite resize_nil.
  pose proof (read_file_sizes Z.of_nat (EdgeWriter.num_unsorted_edges_ w) []
                0 (replicate (Z.to_nat (EdgeWriter.num_threads_ w)) 0)) as Hloop.
  rewrite app_nil_r in Hloop. simpl in Hloop. rewrite Hlen in Hloop.
  unfold EdgeWriter.file_line. change (Z.of_nat 0) with 0 in Hloop.
  rewrite Hloop by (by rewrite length_replicate). simpl.
  unfold fclose, stream_name. rewrite decide_True by lia. simpl.
  rewrite Nat2Z.id, lookup_app_r by lia. rewrite Nat.sub_diag. simpl.
  eexists. split; [done|]. done.
Qed.

End metadata.

(** ** The reader: mapping the files *)

Section reader_init.
Import EdgeReader.

Lemma stream_name_new name W :
  stream_name (Z.of_nat (length (streams W)))
    {| fs := fs W; streams := streams W ++ [Some name] |} = Ret name.
Proof.
  apply stream_name_Ret. split; [lia|]. simpl.
  rewrite Nat2Z.id, lookup_app_r by lia. by rewrite Nat.sub_diag.
Qed.

Lemma stream_name_old h name name' W :
  stream_name h W = Ret name →
  stream_name h {| fs := fs W; streams := streams W ++ [Some name'] |}
  = Ret name.
Proof.
  intros [Hh Hs]%stream_name_Ret. apply stream_name_Ret. split; [done|].
  simpl. rewrite lookup_app_l; [done|]. by eapply lookup_lt_Some.
Qed.

Lemma mmap_new len name W ws :
  fs W !! name = Some (Binary ws) →
  mmap len (Z.of_nat (length (streams W)))
    {| fs := fs W; streams := streams W ++ [Some name] |}
  = Ptr (take (Z.to_nat len) ws) 0.
Proof.
  intros Hws. unfold mmap. rewrite stream_name_new. simpl. by rewrite Hws.
Qed.

Lemma map_file_ok r i fds mm W ws fsz :
  fs W !! edges_file_name (file_prefix_ r) i = Some (Binary ws) →
  vec_at (file_sizes_ r) i = Ret fsz →
  0 ≤ i < Z.of_nat (length fds) → 0 ≤ i < Z.of_nat (length mm) →
  map_file r i (fds, mm, W)
  = Ret (<[Z.to_nat i := Z.of_nat (length (streams W))]> fds,
         <[Z.to_nat i :=
             Ptr (take (Z.to_nat (fsz * words_per_edge_ r)) ws) 0]> mm,
         {| fs := fs W;
            streams := streams W
                       ++ [Some (edges_file_name (file_prefix_ r) i)] |}).
Proof.
  intros Hws Hfsz Hf Hm. unfold map_file, open_rdonly. rewrite Hws.
  rewrite vec_set_ok by done. cbn [mbind res_bind].
  rewrite bool_decide_eq_true_2 by lia. cbn [mbind res_bind assert].
  rewrite Hfsz. cbn [mbind res_bind].
  rewrite (mmap_new _ _ _ ws) by done.
  rewrite vec_set_ok by done. done.
Qed.

Lemma reader_init_files_ok r W :
  is_opened_ r = false → fds_ r = [] → mmaps_ r = [] →
  0 ≤ num_files_ r →
  (∀ i, 0 ≤ i < num_files_ r →
     ∃ ws fsz, fs W !! edges_file_name (file_prefix_ r) i = Some (Binary ws)
               ∧ vec_at (file_sizes_ r) i = Ret fsz) →
  ∃ fds mm W',
    init_files r W
    = Ret (with_cursor (-1) (if is_unsorted r then -1 else cur_file_num_ r)
             0 0 (cur_ptr_ r) (with_files fds mm (file_sizes_ r) true r), W')
    ∧ fs W' = fs W
    ∧ length fds = Z.to_nat (num_files_ r)
    ∧ length mm = Z.to_nat (num_files_ r)
    ∧ (∀ i ws fsz,
         0 ≤ i < num_files_ r →
         fs W !! edges_file_name (file_prefix_ r) i = Some (Binary ws) →
         vec_at (file_sizes_ r) i = Ret fsz →
         vec_at mm i
         = Ret (Ptr (take (Z.to_nat (fsz * words_per_edge_ r)) ws) 0))
    ∧ (∀ i, 0 ≤ i < num_files_ r →
         vec_at fds i = Ret (Z.of_nat (length (streams W)) + i)
         ∧ stream_name (Z.of_nat (length (streams W)) + i) W'
           = Ret (edges_file_name (file_prefix_ r) i)).
Proof.
  intros Hop Hfds Hmm HN Hfiles. unfold init_files.
  rewrite Hop, Hfds, Hmm. simpl. unfold vresize.
  rewrite !decide_True by done. simpl. rewrite !resize_nil.
  set (N := Z.to_nat (num_files_ r)).
  set (P := λ (i : Z) (s : list Z * list ptr * World),
         length s.1.1 = N ∧ length s.1.2 = N ∧ fs s.2 = fs W
         ∧ Z.of_nat (length (streams s.2)) = Z.of_nat (length (streams W)) + i
         ∧ (∀ j ws fsz,
              0 ≤ j < i →
              fs W !! edges_file_name (file_prefix_ r) j = Some (Binary ws) →
              vec_at (file_sizes_ r) j = Ret fsz →
              vec_at s.1.2 j
              = Ret (Ptr (take (Z.to_nat (fsz * words_per_edge_ r)) ws) 0))
         ∧ (∀ j, 0 ≤ j < i →
              vec_at s.1.1 j = Ret (Z.of_nat (length (streams W)) + j)
              ∧ stream_name (Z.of_nat (length (streams W)) + j) s.2
                = Ret (edges_file_name (file_prefix_ r) j))).
  destruct (for_range_total P (map_file r) N 0
              (replicate N 0, replicate N NULL, W))
    as ([[fds mm] W'] & Hrun & HP).
  - unfold P. simpl. rewrite !length_replicate.
    repeat (split; [done|]). split; [lia|]. split; intros; lia.
  - intros i [[fds mm] Wi] Hi (Hlf & Hlm & Hfs & Hst & Hmaps & Hfd).
    simpl in Hlf, Hlm, Hfs, Hst, Hmaps, Hfd.
    destruct (Hfiles i ltac:(lia)) as (ws & fsz & Hws & Hfsz).
    rewrite (map_file_ok r i fds mm Wi ws fsz)
      by (done || lia || by rewrite Hfs).
    eexists. split; [done|]. unfold P. simpl. rewrite !length_insert.
    repeat (split; [done|]). split; [rewrite length_app; simpl; lia|]. split.
    + intros j ws' fsz' Hj Hws' Hfsz'. rewrite vec_at_insert by lia.
      destruct (decide (j = i)) as [->|Hne].
      * rewrite decide_True by lia. congruence.
      * apply Hmaps; [lia|done|done].
    + intros j Hj. rewrite vec_at_insert by lia.
      destruct (decide (j = i)) as [->|Hne].
      * rewrite decide_True by lia. rewrite Hst. split; [done|].
        rewrite <- Hst. apply stream_name_new.
      * destruct (Hfd j ltac:(lia)) as (Hfdj & Hsn).
        split; [done|]. by apply stream_name_old.
  - rewrite Hrun. simpl.
    destruct HP as (Hlf & Hlm & Hfs & _ & Hmaps & Hfd).
    simpl in *. exists fds, mm, W'. split; [done|].
    repeat (split; [done|]). split.
    + intros i ws fsz Hi. apply Hmaps. lia.
    + intros i Hi. apply Hfd. lia.
Qed.

End reader_init.

(** An opened reader can be torn down. *)
Lemma reader_init_then_destroy r W :
  EdgeReader.is_opened_ r = false →
  EdgeReader.fds_ r = [] → EdgeReader.mmaps_ r = [] →
  0 ≤ EdgeReader.num_files_ r →
  (∀ i, 0 ≤ i < EdgeReader.num_files_ r →
     ∃ ws fsz,
       fs W !! edges_file_name (EdgeReader.file_prefix_ r) i
       = Some (Binary ws)
       ∧ vec_at (EdgeReader.file_sizes_ r) i = Ret fsz) →
  ∃ r1 W1 s,
    EdgeReader.init_files r W = Ret (r1, W1)
    ∧ EdgeReader.destroy r1 W1 = Ret s.
Proof.
  intros Hop Hfds Hmm HN Hfiles.
  destruct (reader_init_files_ok r W Hop Hfds Hmm HN Hfiles)
    as (fds & mm & W1 & Hinit & _ & Hlf & Hlm & Hmaps & Hstreams).
  rewrite Hinit.
  match goal with
  | |- ∃ r1 W1 s, Ret (?r2, ?W2) = _ ∧ _ =>
      destruct (reader_destroy_ok (length (streams W)) r2 W2) as (s & Hdes)
  end.
  - done.
  - simpl. intros i Hi.
    destruct (Hfiles i Hi) as (ws & fsz & Hws & Hfsz).
    destruct (Hstreams i Hi) as (Hfd & Hname).
    eexists _, _, _. split; [by apply (Hmaps i ws fsz)|].
    split; [done|]. split; done.
  - eexists _, _, s. split; [done|]. exact Hdes.
Qed.

(** ** The reader: pulling records *)

Section reader_pull.
Import EdgeReader.

Lemma concat_lookup_chunk (w : nat) (recs : list (list Z)) :
  Forall (λ x, length x = w) recs →
  ∀ c x, recs !! c = Some x →
         take w (drop (w * c) (concat recs)) = x.
Proof.
  induction 1 as [|y recs Hy _ IH]; intros c x Hc; [done|].
  destruct c as [|c]; simpl in *.
  - injection Hc as ->. rewrite Nat.mul_0_r, drop_0.
    by rewrite take_app_length'.
  - replace (w * S c)%nat with (length y + w * c)%nat by lia.
    rewrite drop_app_add. by apply IH.
Qed.

Lemma length_concat_chunks (w : nat) (recs : list (list Z)) :
  Forall (λ x, length x = w) recs →
  length (concat recs) = (w * length recs)%nat.
Proof.
  induction 1 as [|y recs Hy _ IH]; simpl; [lia|].
  rewrite length_app, IH. lia.
Qed.

(** Reading the record number [c] of a mapping made of records of [wpe]
    words. *)
Lemma load_record wpe recs (c : nat) x off :
  0 ≤ wpe →
  Forall (λ y, length y = Z.to_nat wpe) recs →
  recs !! c = Some x →
  off = wpe * Z.of_nat c →
  load (Ptr (concat recs) off) wpe = Ret x.
Proof.
  intros Hw Hall Hc ->. unfold load.
  pose proof (length_concat_chunks _ _ Hall) as Hlen.
  apply lookup_lt_Some in Hc as Hlt.
  rewrite decide_True by nia. f_equal.
  replace (Z.to_nat (wpe * Z.of_nat c)) with (Z.to_nat wpe * c)%nat by nia.
  by apply concat_lookup_chunk.
Qed.





End reader_pull.

(** ** Unsorted stores: the round trip *)



(** ** The writer returns *)

Section writer_total.
Import EdgeWriter.




End writer_total.



(** ** The reader: pulling records by bucket *)

Section reader_sorted.
Import EdgeReader.

(** The inner loop stops at the next bucket with an owner, or at
    [num_buckets_]; the buckets it passes hold no records. *)
Lemma skip_unowned_spec buckets fuel :
  ∀ r,
    (∀ (b : nat) recs, buckets !! b = Some recs →
       ∃ pr, vec_at (p_rec_ r) (Z.of_nat b) = Ret pr
             ∧ bucket_place r pr recs) →
    num_buckets_ r = Z.of_nat (length buckets) →
    0 ≤ cur_bucket_ r ≤ num_buckets_ r →
    (Z.to_nat (num_buckets_ r - cur_bucket_ r) ≤ fuel)%nat →
    ∃ b2,
      skip_unowned fuel r = Ret (Some (set_cur_bucket b2 r))
      ∧ cur_bucket_ r ≤ b2 ≤ num_buckets_ r
      ∧ concat (drop (Z.to_nat b2) buckets)
        = concat (drop (Z.to_nat (cur_bucket_ r)) buckets)
      ∧ (b2 < num_buckets_ r →
         ∃ pr, vec_at (p_rec_ r) b2 = Ret pr ∧ 0 ≤ thread_id pr).
Proof.
  induction fuel as [|fuel IH]; intros r Hbk HB Hrange Hfuel.
  - assert (cur_bucket_ r = num_buckets_ r) as Heq by lia.
    exists (cur_bucket_ r). simpl. rewrite decide_False by lia.
    split; [by destruct r|]. split; [lia|]. split; [done|]. lia.
  - simpl. destruct (decide (cur_bucket_ r < num_buckets_ r)) as [Hlt|Hge].
    + destruct (lookup_lt_is_Some_2 buckets (Z.to_nat (cur_bucket_ r)))
        as [recs Hrecs]; [lia|].
      destruct (Hbk _ _ Hrecs) as (pr & Hpr & Hplace).
      rewrite Z2Nat.id in Hpr by lia. rewrite Hpr. simpl.
      destruct (decide (thread_id pr < 0)) as [Hun|Hown].
      * destruct (IH (set_cur_bucket (cur_bucket_ r + 1) r))
          as (b2 & Hrun & Hb2 & Hcat & Hnext); simpl; try done; try lia.
        simpl in Hb2, Hcat, Hnext.
        exists b2. split; [by rewrite Hrun|]. split; [lia|]. split; [|done].
        rewrite Hcat. rewrite (drop_S _ _ _ Hrecs).
        destruct Hplace as [[_ ->]|[? _]]; [|lia]. simpl.
        do 2 f_equal. lia.
      * exists (cur_bucket_ r). split; [by destruct r|]. split; [lia|].
        split; [done|]. intros _. exists pr. split; [done|lia].
    + exists (cur_bucket_ r). split; [by destruct r|]. split; [lia|].
      split; [done|]. lia.
Qed.

Lemma sorted_loop_spec buckets fuel :
  ∀ r,
    sorted_view buckets r →
    cur_bucket_ r < num_buckets_ r →
    (Z.to_nat (num_buckets_ r - cur_bucket_ r) ≤ fuel)%nat →
    ∃ p r',
      sorted_loop fuel r = Ret (Some (p, r'))
      ∧ sorted_view buckets r'
      ∧ words_per_edge_ r' = words_per_edge_ r
      ∧ match sorted_rest buckets r with
        | [] => p = NULL ∧ sorted_rest buckets r' = []
        | x :: rest =>
            load p (words_per_edge_ r) = Ret x ∧ is_null p = false
            ∧ sorted_rest buckets r' = rest
        end.
Proof.
  induction fuel as [|fuel IH]; intros r Hv Hlt Hfuel.
  { lia. }
  simpl. destruct (decide (cur_vol_ r ≤ cur_cnt_ r)) as [Hdone|Hmore].
  - pose proof (sv_cursor_range _ _ Hv) as Hrange.
    destruct (skip_unowned_spec buckets fuel
                (set_cur_bucket (cur_bucket_ r + 1) r))
      as (b2 & Hskip & Hb2 & Hcat & Hnext); simpl.
    { apply (sv_bucket _ _ Hv). }
    { apply (sv_buckets _ _ Hv). }
    { lia. }
    { lia. }
    rewrite Hskip. simpl in *.
    assert (sorted_rest buckets r = concat (drop (Z.to_nat b2) buckets))
      as Hrest.
    { unfold sorted_rest. rewrite decide_False by lia. simpl. by rewrite Hcat. }
    destruct (decide (num_buckets_ r ≤ b2)) as [Hend|Hin].
    + eexists _, _. split; [done|].
      assert (drop (Z.to_nat b2) buckets = []) as Hnil.
      { apply drop_ge. rewrite (sv_buckets _ _ Hv) in Hend. lia. }
      split; [|split; [done|]].
      * destruct Hv as [Hw Hf Hbk Hr Hc Hcur]. split; simpl; try done.
        -- lia.
        -- intros. lia.
      * rewrite Hrest, Hnil. simpl. split; [done|].
        unfold sorted_rest. simpl. rewrite decide_False by lia. simpl.
        rewrite drop_ge; [done|]. rewrite (sv_buckets _ _ Hv) in Hend. lia.
    + destruct (Hnext ltac:(lia)) as (pr & Hpr & Hown).
      rewrite Hpr. simpl.
      destruct (lookup_lt_is_Some_2 buckets (Z.to_nat b2)) as [recs Hrecs].
      { rewrite (sv_buckets _ _ Hv) in Hin. lia. }
      destruct (sv_bucket _ _ Hv _ _ Hrecs) as (pr' & Hpr' & Hplace).
      rewrite Z2Nat.id in Hpr' by lia. rewrite Hpr in Hpr'.
      injection Hpr' as <-.
      destruct Hplace as [[? _]|(_ & Htot & Hoff & all & Hmm & Hall & Hat)];
        [lia|].
      rewrite Hmm. simpl.
      match goal with
      | |- ∃ p r', sorted_loop fuel ?r1 = _ ∧ _ =>
          destruct (IH r1) as (p & r' & Hrun & Hv' & Hw' & Hrest')
      end.
      * destruct Hv as [Hw Hf Hbk Hr Hc Hcur]. split; simpl; try done.
        -- lia.
        -- intros _. exists recs, pr, all. split; [done|]. split; [lia|].
           split; [done|]. split; [done|]. split; [done|]. split; [done|].
           f_equal. lia.
      * simpl. lia.
      * simpl. lia.
      * exists p, r'. split; [done|]. split; [done|]. split; [done|].
        rewrite Hrest. rewrite (drop_S _ _ _ Hrecs). simpl.
        revert Hrest'. unfold sorted_rest at 1. simpl.
        rewrite Hrecs. simpl. rewrite Htot.
        replace (Z.to_nat (b2 + 1)) with (S (Z.to_nat b2)) by lia.
        destruct (decide (0 < Z.of_nat (length recs))) as [Hpos|Hz]; [done|].
        destruct recs; [done|]. simpl in Hz. lia.
  - destruct (sv_current _ _ Hv ltac:(lia))
      as (recs & pr & all & Hrecs & Hb0 & Hvol & Hoff & Hall & Hat & Hptr).
    pose proof (sv_cnt _ _ Hv) as Hc0.
    destruct (lookup_lt_is_Some_2 recs (Z.to_nat (cur_cnt_ r))) as [x Hx];
      [lia|].
    assert (0 ≤ words_per_edge_ r) as Hw.
    { apply (sv_wpe _ _ Hv _ _ Hrecs). by intros ->. }
    eexists _, _. split; [done|]. split; [|split; [done|]].
    + destruct Hv as [Hw' Hf Hbk Hr Hc Hcur]. split; simpl; try done.
      * lia.
      * intros Hlt'. exists recs, pr, all. split; [done|]. split; [done|].
        split; [done|]. split; [done|]. split; [done|]. split; [done|].
        rewrite Hptr. simpl. f_equal. lia.
    + unfold sorted_rest at 1. rewrite decide_True by lia.
      rewrite Hrecs. simpl. rewrite (drop_S _ _ _ Hx). simpl.
      rewrite Hptr. simpl. split.
      * eapply load_record; [done|done|exact (Hat _ _ Hx)|]. lia.
      * split; [done|]. unfold sorted_rest. simpl. rewrite Hrecs. simpl.
        replace (Z.to_nat (cur_cnt_ r + 1)) with (S (Z.to_nat (cur_cnt_ r)))
          by lia.
        destruct (decide (cur_cnt_ r + 1 < cur_vol_ r)) as [Hm|Hm]; [done|].
        rewrite (drop_ge recs) by lia. done.
Qed.

Lemma NextSortedEdge_spec buckets r :
  sorted_view buckets r →
  ∃ p r',
    NextSortedEdge r = Ret (p, r')
    ∧ sorted_view buckets r'
    ∧ words_per_edge_ r' = words_per_edge_ r
    ∧ match sorted_rest buckets r with
      | [] => p = NULL ∧ sorted_rest buckets r' = []
      | x :: rest =>
          load p (words_per_edge_ r) = Ret x ∧ is_null p = false
          ∧ sorted_rest buckets r' = rest
      end.
Proof.
  intros Hv. unfold NextSortedEdge, NextSortedEdge_fuel.
  destruct (decide (num_buckets_ r ≤ cur_bucket_ r)) as [Hend|Hlt].
  - simpl. exists NULL, r. split; [done|]. split; [done|]. split; [done|].
    assert (sorted_rest buckets r = []) as ->; [|done].
    unfold sorted_rest. rewrite (sv_buckets _ _ Hv) in Hend.
    rewrite (drop_ge buckets) by lia. rewrite app_nil_r.
    destruct (decide (cur_cnt_ r < cur_vol_ r)) as [Hc|Hc]; [|done].
    destruct (sv_current _ _ Hv Hc) as (recs & ? & ? & Hrecs & _).
    apply lookup_lt_Some in Hrecs. lia.
  - destruct (sorted_loop_spec buckets (sorted_fuel r) r Hv)
      as (p & r' & Hrun & Hv' & Hw & Hrest); [lia|unfold sorted_fuel; lia|].
    rewrite Hrun. simpl. exists p, r'. done.
Qed.

Lemma pull_sorted buckets rest :
  ∀ r m,
    sorted_view buckets r →
    sorted_rest buckets r = rest →
    ∃ r', pull NextSortedEdge (length rest + m) r
          = Ret ((Some <$> rest) ++ replicate m None, r').
Proof.
  induction rest as [|x rest IH]; intros r m Hv Hrest.
  - simpl. revert r Hv Hrest. induction m as [|m IHm]; intros r Hv Hrest.
    + by exists r.
    + destruct (NextSortedEdge_spec buckets r Hv)
        as (p & r1 & Hrun & Hv1 & Hw & Hnext).
      rewrite Hrest in Hnext. destruct Hnext as [-> Hrest1].
      destruct (IHm r1 Hv1 Hrest1) as (r' & Hpull).
      exists r'. simpl. rewrite Hrun. simpl. rewrite Hpull. done.
  - destruct (NextSortedEdge_spec buckets r Hv)
      as (p & r1 & Hrun & Hv1 & Hw & Hnext).
    rewrite Hrest in Hnext. destruct Hnext as (Hload & Hnn & Hrest1).
    destruct (IH r1 m Hv1 Hrest1) as (r' & Hpull).
    exists r'. simpl. rewrite Hrun. simpl. rewrite Hnn, Hw, Hload. simpl.
    rewrite Hpull. done.
Qed.

End reader_sorted.

(** ** Sorted stores: the records each thread owns *)

Lemma sumZ_insert {A} (f : A → Z) l (i : nat) x y :
  l !! i = Some y →
  sumZ (f <$> <[i := x]> l) = sumZ (f <$> l) - f y + f x.
Proof.
  unfold sumZ. revert i. induction l as [|a l IH]; intros i Hi; [done|].
  destruct i as [|i]; simpl in *.
  - injection Hi as ->. lia.
  - specialize (IH i Hi). unfold fmap in IH. lia.
Qed.

Lemma owned_sum_cons t p prs :
  owned_sum t (p :: prs)
  = (if decide (thread_id p = t) then total_number p else 0)
    + owned_sum t prs.
Proof. reflexivity. Qed.

Section owned.
Import EdgeWriter.

Lemma write_owned_sum h0 hist w W c s' t :
  sorted_inv h0 hist w W →
  do_write c (w, W) = Ret s' →
  0 ≤ t →
  owned_sum t (p_rec_ s'.1)
  = owned_sum t (p_rec_ w) + (if decide (wc_tid c = t) then 1 else 0).
Proof.
  intros Hinv Hrun Ht. destruct c as [e b tid], s' as [w' W'].
  unfold do_write in Hrun. simpl in *.
  pose proof Hrun as Hrun'.
  apply write_Ret in Hrun
    as (cb & pr & n & h & name & ws & Hcb & Hpr & Hown & Hn & Hh & Hname
        & Hfs & Hwpe & Hlen & -> & ->).
  simpl. unfold owned_sum.
  pose proof Hpr as [Hb0 Hprl]%vec_at_Ret.
  rewrite (sumZ_insert _ _ _ _ _ Hprl).
  assert (0 ≤ tid < num_threads_ w) as Htid.
  { apply vec_at_lt in Hcb. rewrite (inv_cb_len _ _ _ _ Hinv) in Hcb. lia. }
  destruct (decide (b ≠ cb)) as [Hne|Heq].
  - specialize (Hown Hne).
    destruct (sorted_inv_unowned _ _ _ _ _ _ _ Hinv Hpr Hown Htid)
      as (-> & _). simpl.
    rewrite (decide_False (P := -1 = t)) by lia. case_decide; lia.
  - apply dec_stable in Heq. subst cb.
    pose proof (sorted_inv_current _ _ _ _ _ _ _ Hinv Hpr Hcb) as Howner.
    simpl. rewrite Howner. case_decide; lia.
Qed.

Lemma owned_sum_replicate t n :
  0 ≤ t → owned_sum t (replicate n PartitionRecord_new) = 0.
Proof.
  intros Ht. induction n as [|n IH]; [done|].
  simpl. rewrite owned_sum_cons, IH. simpl.
  rewrite decide_False by lia. done.
Qed.

Lemma reached_owned_sum w0 W0 s1 log s t :
  closed w0 →
  init_files w0 W0 = Ret s1 →
  run_writes log s1 = Ret s →
  0 ≤ t →
  owned_sum t (p_rec_ s.1) = Z.of_nat (length (thread_log t log)).
Proof.
  intros Hcl Hinit Hrun Ht.
  destruct (init_files_pre _ _ _ Hinit) as (_ & HN & HB).
  destruct (init_files_ok w0 W0 Hcl HN HB) as (w1 & W1 & Hinit' & Hinv & _).
  rewrite Hinit in Hinit'. injection Hinit' as ->.
  assert (owned_sum t (p_rec_ w1) = Z.of_nat (length (thread_log t []))) as H0.
  { unfold init_files in Hinit.
    apply bind_Ret in Hinit as ([] & _ & Hinit).
    apply bind_Ret in Hinit as (f & _ & Hinit).
    apply bind_Ret in Hinit as (cb & _ & Hinit).
    apply bind_Ret in Hinit as (cn & _ & Hinit).
    apply bind_Ret in Hinit as (pr & Hpr & Hinit).
    apply bind_Ret in Hinit as ([f' W'] & _ & Hinit).
    injection Hinit as <- <-. simpl.
    apply vresize_Ret in Hpr as [_ ->]. destruct Hcl as (_ & _ & _ & _ & ->).
    rewrite resize_nil. by apply owned_sum_replicate. }
  clear Hinit. revert H0 Hinv Hrun. generalize (length (streams W0)).
  intros h0. change log with ([] ++ log) at 2.
  generalize (@nil write_call) as hist. revert w1 W1.
  induction log as [|c log IH]; intros w1 W1 hist H0 Hinv Hrun.
  - simpl in Hrun. injection Hrun as <-. by rewrite app_nil_r.
  - simpl in Hrun. apply bind_Ret in Hrun as ([w2 W2] & Hc & Hrun).
    pose proof (write_inv _ _ _ _ _ _ Hinv Hc) as Hinv2.
    pose proof (write_owned_sum _ _ _ _ _ _ t Hinv Hc Ht) as Hsum.
    simpl in Hinv2, Hsum.
    replace (hist ++ c :: log) with ((hist ++ [c]) ++ log)
      by (by rewrite <- app_assoc).
    eapply IH; [|exact Hinv2|exact Hrun].
    rewrite Hsum, H0, thread_log_snoc, length_app.
    case_decide; simpl; lia.
Qed.

End owned.

Section metadata_sorted.
Import EdgeReader.

(** The loop of [read_info] over the bucket lines. *)
Lemma read_buckets (g : nat → Z) prs rest :
  ∀ (i : nat) pr0 fsz,
    length pr0 = (i + length prs)%nat →
    Forall (line_in_reach (length fsz)) prs →
    ∃ fsz',
      for_range (Z.of_nat i) (length prs) read_bucket
        (pr0, fsz,
         concat (imap (λ j p, [Int (g j); Int (thread_id p);
                               Int (starting_offset p);
                               Int (total_number p)]) prs) ++ rest)
      = Ret (take i pr0 ++ prs, fsz', rest)
      ∧ length fsz' = length fsz
      ∧ ∀ t : nat, fsz' !! t
                  = (λ z, z + owned_sum (Z.of_nat t) prs) <$> fsz !! t.
Proof.
  revert g. induction prs as [|p prs IH]; intros g i pr0 fsz Hlen Hall.
  - simpl. exists fsz. rewrite take_ge by (simpl in Hlen; lia).
    rewrite app_nil_r. split; [done|]. split; [done|].
    intros t. unfold owned_sum. simpl.
    destruct (fsz !! t); simpl; [f_equal; lia|done].
  - apply Forall_cons in Hall as [Hp Hall]. simpl in Hlen. simpl.
    rewrite vec_set_ok by lia. simpl.
    assert (∃ fsz1,
              vec_add fsz (thread_id p) (total_number p) = Ret fsz1
              ∧ length fsz1 = length fsz
              ∧ ∀ t : nat,
                  fsz1 !! t
                  = (λ z, z + (if decide (thread_id p = Z.of_nat t)
                               then total_number p else 0)) <$> fsz !! t)
      as (fsz1 & -> & Hl1 & Hfsz1).
    { unfold vec_add. destruct Hp as [Hin|(Htid & Htot & Hne)].
      - destruct (lookup_lt_is_Some_2 fsz (Z.to_nat (thread_id p)))
          as [old Hold]; [lia|].
        assert (vec_at fsz (thread_id p) = Ret old) as ->
          by (apply vec_at_Ret; split; [lia|done]).
        rewrite vec_set_ok by lia. eexists. split; [done|].
        split; [by rewrite length_insert|]. intros t.
        destruct (decide (t = Z.to_nat (thread_id p))) as [->|Hneq].
        + rewrite list_lookup_insert_eq by lia. rewrite Hold. simpl.
          by rewrite decide_True by lia.
        + rewrite list_lookup_insert_ne by done.
          rewrite decide_False by lia.
          destruct (fsz !! t); simpl; [f_equal; lia|done].
      - destruct (vec_at fsz (thread_id p)) as [old|e] eqn:Hold.
        { apply vec_at_Ret in Hold as [? _]. lia. }
        rewrite decide_True by (by destruct fsz; repeat split; simpl in *;
                                   (lia || done)).
        exists fsz. split; [done|]. split; [done|]. intros t.
        rewrite decide_False by lia.
        destruct (fsz !! t); simpl; [f_equal; lia|done]. }
    simpl.
    replace (Z.of_nat i + 1) with (Z.of_nat (S i)) by lia.
    destruct (IH (g ∘ S) (S i)
                (<[i := {| thread_id := thread_id p;
                           starting_offset := starting_offset p;
                           total_number := total_number p |}]> pr0)
                fsz1)
      as (fsz' & Hrun & Hlen' & Hsum).
    { rewrite length_insert. lia. }
    { by rewrite Hl1. }
    exists fsz'. rewrite Nat2Z.id. split.
    + etrans; [exact Hrun|]. f_equal. f_equal. f_equal.
      rewrite (take_S_r _ _ p).
      * rewrite take_insert_ge by lia. by rewrite <- app_assoc.
      * destruct p. apply list_lookup_insert_eq. lia.
    + split; [by rewrite Hlen', Hl1|].
      intros t. rewrite Hsum, Hfsz1, owned_sum_cons.
      destruct (fsz !! t); simpl; [|done]. f_equal.
      destruct (decide (thread_id p = Z.of_nat t)); lia.
Qed.

Lemma read_info_sorted r W w ne :
  p_rec_ r = [] → file_sizes_ r = [] →
  fs W !! info_file_name (file_prefix_ r)
  = Some (Text (EdgeWriter.info_text w ne)) →
  0 < EdgeWriter.num_buckets_ w →
  length (EdgeWriter.p_rec_ w) = Z.to_nat (EdgeWriter.num_buckets_ w) →
  0 ≤ EdgeWriter.num_threads_ w →
  Forall (line_in_reach (Z.to_nat (EdgeWriter.num_threads_ w)))
    (EdgeWriter.p_rec_ w) →
  ∃ fsz W',
    read_info r W
    = Ret (with_info (EdgeWriter.kmer_size_ w) (EdgeWriter.words_per_edge_ w)
             (EdgeWriter.num_threads_ w) (EdgeWriter.num_buckets_ w) ne
             (EdgeWriter.p_rec_ w) fsz r, W')
    ∧ fs W' = fs W
    ∧ length fsz = Z.to_nat (EdgeWriter.num_threads_ w)
    ∧ ∀ t, 0 ≤ t < EdgeWriter.num_threads_ w →
        vec_at fsz t = Ret (owned_sum t (EdgeWriter.p_rec_ w)).
Proof.
  intros Hpr Hfsz Hinfo HB Hlen HN Hall.
  unfold read_info, fopen_r. rewrite Hinfo. simpl.
  rewrite Hpr, Hfsz.
  unfold vresize. rewrite !decide_True by lia. simpl.
  rewrite !resize_nil.
  destruct (read_buckets Z.of_nat (EdgeWriter.p_rec_ w)
              (concat (imap EdgeWriter.file_line
                         (EdgeWriter.num_unsorted_edges_ w)))
              0 (replicate (Z.to_nat (EdgeWriter.num_buckets_ w))
                   PartitionRecord_new)
              (replicate (Z.to_nat (EdgeWriter.num_threads_ w)) 0))
    as (fsz & Hloop & Hlf & Hsum).
  { rewrite length_replicate. lia. }
  { by rewrite length_replicate. }
  change (Z.of_nat 0) with 0 in Hloop. rewrite Hlen in Hloop.
  unfold EdgeWriter.bucket_line. rewrite Hloop. simpl.
  rewrite decide_False by lia. simpl.
  unfold fclose, stream_name. rewrite decide_True by lia. simpl.
  rewrite Nat2Z.id, lookup_app_r by lia. rewrite Nat.sub_diag. simpl.
  exists fsz. eexists. split; [done|]. split; [done|].
  rewrite length_replicate in Hlf. split; [done|].
  intros t Ht. apply vec_at_Ret. split; [lia|].
  rewrite Hsum. rewrite lookup_replicate_2 by lia. simpl.
  rewrite Z2Nat.id by lia. done.
Qed.

End metadata_sorted.

(** ** Sorted stores: the round trip when every bucket has an owner *)

Lemma records_lengths wpe l :
  Forall (λ c, (Z.to_nat wpe ≤ length (wc_edge c))%nat) l →
  Forall (λ x, length x = Z.to_nat wpe) (records wpe l).
Proof.
  intros Hall. unfold records. apply Forall_fmap.
  eapply Forall_impl; [exact Hall|]. intros c Hc. simpl in Hc.
  unfold compose. rewrite length_take. lia.
Qed.

Lemma Forall_thread_log (P : write_call → Prop) t log :
  Forall P log → Forall P (thread_log t log).
Proof.
  rewrite !Forall_forall. intros Hall c [_ Hc]%list_elem_of_filter. auto.
Qed.

(** The place a bucket of a reached writer state takes in the mapping of
    its owner. *)
Lemma bucket_inv_place N b pr log wpe :
  bucket_inv N b pr log →
  (thread_id pr < 0 ∧ records wpe (bucket_log b log) = [])
  ∨ (0 ≤ thread_id pr < N
     ∧ total_number pr = Z.of_nat (length (records wpe (bucket_log b log)))
     ∧ 0 ≤ starting_offset pr
     ∧ ∀ (c : nat) x,
         records wpe (bucket_log b log) !! c = Some x →
         records wpe (thread_log (thread_id pr) log)
           !! (Z.to_nat (starting_offset pr) + c)%nat = Some x).
Proof.
  intros [[Hnil ->]|(Hr & pre & run & post & Hth & Hrun & Hne & Hoff & Htot
                     & _)].
  - left. rewrite Hnil. split; [simpl; lia|done].
  - right. split; [done|]. rewrite Hrun. unfold records.
    rewrite length_fmap. split; [done|]. split; [lia|].
    intros c x Hx. rewrite Hth, Hoff, Nat2Z.id, !fmap_app.
    rewrite lookup_app_r by (rewrite length_fmap; lia).
    rewrite length_fmap.
    replace (length pre + c - length pre)%nat with c by lia.
    apply lookup_app_l_Some. exact Hx.
Qed.

(** The bucket table of a reached writer state holds lines [read_info] gets
    through when there is a thread. *)
Lemma reached_lines_in_reach h0 log w W :
  sorted_inv h0 log w W →
  0 < EdgeWriter.num_threads_ w →
  Forall (line_in_reach (Z.to_nat (EdgeWriter.num_threads_ w)))
    (EdgeWriter.p_rec_ w).
Proof.
  intros Hinv HN. apply Forall_lookup. intros i p Hi.
  assert (0 ≤ Z.of_nat i < EdgeWriter.num_buckets_ w) as Hib.
  { apply lookup_lt_Some in Hi.
    rewrite (inv_prec_len _ _ _ _ Hinv) in Hi. lia. }
  destruct (inv_bucket _ _ _ _ Hinv _ Hib) as (pr & Hpr & Hbi).
  apply vec_at_Ret in Hpr as [_ Hpr]. rewrite Nat2Z.id in Hpr.
  rewrite Hi in Hpr. injection Hpr as <-.
  destruct Hbi as [[_ ->]|[Hr _]].
  - right. simpl. repeat split; lia.
  - left. lia.
Qed.

(** The round trip of a sorted store, with or without buckets that received
    no record. *)
Lemma sparse_round_trip w0 W0 log s1 s2 u m :
  closed w0 →
  EdgeWriter.init_files w0 W0 = Ret s1 →
  run_writes log s1 = Ret s2 →
  0 < EdgeWriter.num_threads_ w0 →
  0 < EdgeWriter.num_buckets_ w0 →
  ∃ W r r',
    sorted_store w0 W0 log = Ret W
    ∧ open_reader (EdgeWriter.file_prefix_ w0) u W = Ret r
    ∧ EdgeReader.words_per_edge_ r = EdgeWriter.words_per_edge_ w0
    ∧ pull EdgeReader.NextSortedEdge
        (length (concat (sorted_buckets w0 log)) + m) r
      = Ret ((Some <$> concat (sorted_buckets w0 log))
             ++ replicate m None, r').
Proof.
  intros Hcl Hinit Hrun HNpos HB.
  destruct (reached_sorted_inv _ _ _ _ _ Hcl Hinit Hrun)
    as (Hinv & HN & HBe & Hw & Hp).
  pose proof (λ t, reached_owned_sum _ _ _ _ _ t Hcl Hinit Hrun) as Hsum.
  destruct s2 as [w3 W3]. simpl in Hinv, HN, HBe, Hw, Hp, Hsum.
  destruct (destroy_ok (length (streams W0)) w3 W3) as ([w4 W4] & Hdes).
  { apply (inv_opened _ _ _ _ Hinv). }
  { intros t Ht. destruct (inv_thread _ _ _ _ Hinv t Ht) as (? & ? & _).
    eauto. }
  destruct (destroy_opened _ _ _ _ (inv_opened _ _ _ _ Hinv) Hdes)
    as (_ & HfsW).
  exists W4.
  assert (sorted_store w0 W0 log = Ret W4) as Hstore.
  { unfold sorted_store. rewrite Hinit. simpl. rewrite Hrun. simpl.
    by rewrite Hdes. }
  pose proof (reached_lines_in_reach _ _ _ _ Hinv ltac:(lia)) as Hall.
  pose proof (inv_threads _ _ _ _ Hinv) as HN0.
  set (r0 := EdgeReader.set_file_prefix (EdgeWriter.file_prefix_ w0)
               (EdgeReader.new u)).
  destruct (read_info_sorted r0 W4 w3
              (if negb (EdgeWriter.unsorted_ w3)
               then sumZ (total_number <$> EdgeWriter.p_rec_ w3)
               else sumZ (EdgeWriter.num_unsorted_edges_ w3)))
    as (fsz & W5 & Hread & Hfs5 & Hlfsz & Hfsz); try done.
  { rewrite HfsW. simpl. rewrite <- Hp. apply lookup_insert_eq. }
  { lia. }
  { apply (inv_prec_len _ _ _ _ Hinv). }
  assert (∀ t, 0 ≤ t < EdgeWriter.num_threads_ w3 →
            fs W5 !! edges_file_name (EdgeWriter.file_prefix_ w0) t
            = Some (Binary (concat (records (EdgeWriter.words_per_edge_ w0)
                                      (thread_log t log))))) as Hfiles.
  { intros t Ht.
    destruct (inv_thread _ _ _ _ Hinv t Ht) as (_ & _ & Hfile & _).
    rewrite Hfs5, HfsW, lookup_insert_ne
      by (apply not_eq_sym; rewrite Hp; apply edges_file_name_not_info).
    by rewrite <- Hp, <- Hw. }
  match type of Hread with
  | _ = Ret (?r1, _) =>
      destruct (reader_init_files_ok r1 W5)
        as (fds & mm & W6 & Hrinit & Hfs6 & Hlf & Hlm & Hmaps & Hfds);
        try done
  end.
  { simpl. intros i Hi. eexists _, _. split; [by apply Hfiles|].
    by apply Hfsz. }
  simpl in Hlf, Hlm, Hmaps, Hfds.
  exists (EdgeReader.with_cursor (-1) (EdgeReader.cur_file_num_ u) 0 0
            (EdgeReader.cur_ptr_ u)
            (EdgeReader.with_files fds mm fsz true
               (EdgeReader.with_info (EdgeWriter.kmer_size_ w3)
                  (EdgeWriter.words_per_edge_ w3)
                  (EdgeWriter.num_threads_ w3) (EdgeWriter.num_buckets_ w3)
                  (if negb (EdgeWriter.unsorted_ w3)
                   then sumZ (total_number <$> EdgeWriter.p_rec_ w3)
                   else sumZ (EdgeWriter.num_unsorted_edges_ w3))
                  (EdgeWriter.p_rec_ w3) fsz r0))).
  assert (Forall (λ c, (Z.to_nat (EdgeWriter.words_per_edge_ w0)
                        ≤ length (wc_edge c))%nat) log) as Hlens.
  { eapply Forall_impl; [exact (inv_calls _ _ _ _ Hinv)|].
    intros c (_ & _ & _ & ?). by rewrite <- Hw. }
  match goal with
  | |- ∃ r', _ ∧ open_reader _ _ _ = Ret ?r2 ∧ _ =>
      destruct (pull_sorted (sorted_buckets w0 log)
                  (concat (sorted_buckets w0 log)) r2 m) as (r' & Hpull)
  end.
  - split; simpl.
    + intros b recs Hb Hne. unfold sorted_buckets in Hb.
      apply list_lookup_fmap_Some in Hb as (b' & -> & Hb').
      destruct (bucket_log b' log) as [|c l] eqn:Hbl; [done|].
      assert (c ∈ bucket_log b' log) as Hc by (rewrite Hbl; left).
      apply list_elem_of_filter in Hc as [_ Hc].
      pose proof (inv_calls _ _ _ _ Hinv) as Hcalls.
      rewrite Forall_forall in Hcalls.
      by destruct (Hcalls c Hc) as (_ & _ & ? & _).
    + unfold sorted_buckets. rewrite length_fmap, length_seqZ. lia.
    + intros b recs Hb. unfold sorted_buckets in Hb.
      apply list_lookup_fmap_Some in Hb as (b' & -> & Hb').
      apply lookup_seqZ in Hb' as [-> Hlt]. rewrite Z.add_0_l.
      destruct (inv_bucket _ _ _ _ Hinv (Z.of_nat b) ltac:(lia))
        as (pr & Hpr & Hbi).
      exists pr. split; [done|].
      destruct (bucket_inv_place _ _ _ _ (EdgeWriter.words_per_edge_ w0) Hbi)
        as [[Hun Hnil]|(Hr & Htot & Hoff & Hat)].
      * left. done.
      * right. split; [lia|]. split; [done|]. split; [done|].
        exists (records (EdgeWriter.words_per_edge_ w0)
                  (thread_log (thread_id pr) log)).
        split; [|split; [|done]].
        -- simpl. rewrite (Hmaps (thread_id pr) _ _ Hr (Hfiles _ Hr) (Hfsz _ Hr)).
           do 2 f_equal. apply take_ge.
           rewrite length_concat_records
             by (by apply Forall_thread_log).
           rewrite Hsum by lia. rewrite Hw. nia.
        -- rewrite Hw. apply records_lengths. by apply Forall_thread_log.
    + lia.
    + done.
    + lia.
  - unfold sorted_rest. simpl. by rewrite drop_0.
  - exists r'. split; [done|]. split; [|split; [by simpl|exact Hpull]].
    unfold open_reader. fold r0. rewrite Hread. simpl. rewrite Hrinit. simpl.
    unfold EdgeReader.is_unsorted. simpl.
    rewrite bool_decide_eq_false_2 by lia. done.
Qed.

(** With a record in every bucket there is a thread. *)
Lemma full_buckets_threads w0 W0 log s1 s2 :
  closed w0 →
  EdgeWriter.init_files w0 W0 = Ret s1 →
  run_writes log s1 = Ret s2 →
  0 < EdgeWriter.num_buckets_ w0 →
  (∀ b, 0 ≤ b < EdgeWriter.num_buckets_ w0 → bucket_log b log ≠ []) →
  0 < EdgeWriter.num_threads_ w0.
Proof.
  intros Hcl Hinit Hrun HB Hown.
  destruct (reached_sorted_inv _ _ _ _ _ Hcl Hinit Hrun)
    as (Hinv & HN & _).
  specialize (Hown 0 ltac:(lia)).
  destruct (bucket_log 0 log) as [|c l] eqn:Hbl; [done|].
  assert (c ∈ bucket_log 0 log) as Hc by (rewrite Hbl; left).
  apply list_elem_of_filter in Hc as [_ Hc].
  pose proof (inv_calls _ _ _ _ Hinv) as Hcalls.
  rewrite Forall_forall in Hcalls.
  destruct (Hcalls c Hc) as (? & _). lia.
Qed.

Lemma sorted_round_trip w0 W0 log s1 s2 u m :
  closed w0 →
  EdgeWriter.init_files w0 W0 = Ret s1 →
  run_writes log s1 = Ret s2 →
  0 < EdgeWriter.num_buckets_ w0 →
  (∀ b, 0 ≤ b < EdgeWriter.num_buckets_ w0 → bucket_log b log ≠ []) →
  ∃ W r r',
    sorted_store w0 W0 log = Ret W
    ∧ open_reader (EdgeWriter.file_prefix_ w0) u W = Ret r
    ∧ EdgeReader.words_per_edge_ r = EdgeWriter.words_per_edge_ w0
    ∧ pull EdgeReader.NextSortedEdge
        (length (concat (sorted_buckets w0 log)) + m) r
      = Ret ((Some <$> concat (sorted_buckets w0 log))
             ++ replicate m None, r').
Proof.
  intros Hcl Hinit Hrun HB Hown.
  apply (sparse_round_trip w0 W0 log s1 s2 u m Hcl Hinit Hrun); [|done].
  by eapply full_buckets_threads.
Qed.

(** The buckets partition the records written. *)
Lemma concat_cons_at {A} (L : list (list A)) (i : nat) l x :
  L !! i = Some l → concat (<[i := x :: l]> L) ≡ₚ x :: concat L.
Proof.
  revert i. induction L as [|l0 L IH]; intros [|i] Hi; simpl in *; try done.
  - by injection Hi as ->.
  - rewrite (IH i Hi). by rewrite Permutation_middle.
Qed.

Lemma sorted_buckets_cons w0 c log :
  0 ≤ wc_bucket c < EdgeWriter.num_buckets_ w0 →
  sorted_buckets w0 (c :: log)
  = <[Z.to_nat (wc_bucket c) :=
        take (Z.to_nat (EdgeWriter.words_per_edge_ w0)) (wc_edge c)
        :: records (EdgeWriter.words_per_edge_ w0)
             (bucket_log (wc_bucket c) log)]> (sorted_buckets w0 log).
Proof.
  intros Hb. apply list_eq. intros i. unfold sorted_buckets.
  destruct (decide (i = Z.to_nat (wc_bucket c))) as [->|Hne].
  - rewrite list_lookup_insert_eq
      by (rewrite length_fmap, length_seqZ; lia).
    rewrite list_lookup_fmap, lookup_seqZ_lt by lia. simpl.
    rewrite Z2Nat.id by lia. unfold bucket_log.
    by rewrite filter_cons_True.
  - rewrite list_lookup_insert_ne by done.
    rewrite !list_lookup_fmap.
    destruct (decide (Z.of_nat i < EdgeWriter.num_buckets_ w0)) as [Hlt|Hge].
    + rewrite lookup_seqZ_lt by lia. simpl. unfold bucket_log.
      by rewrite filter_cons_False by lia.
    + by rewrite lookup_seqZ_ge by lia.
Qed.

Lemma sorted_buckets_perm w0 log :
  Forall (λ c, 0 ≤ wc_bucket c < EdgeWriter.num_buckets_ w0) log →
  concat (sorted_buckets w0 log)
  ≡ₚ records (EdgeWriter.words_per_edge_ w0) log.
Proof.
  induction 1 as [|c log Hc _ IH].
  - unfold sorted_buckets. simpl.
    induction (seqZ 0 (EdgeWriter.num_buckets_ w0)) as [|b l IHl]; done.
  - rewrite (sorted_buckets_cons _ _ _ Hc).
    rewrite (concat_cons_at _ _
               (records (EdgeWriter.words_per_edge_ w0)
                  (bucket_log (wc_bucket c) log))).
    + simpl. by rewrite IH.
    + unfold sorted_buckets.
      rewrite list_lookup_fmap, lookup_seqZ_lt by lia. simpl.
      by rewrite Z2Nat.id by lia.
Qed.

(** Closed comparisons of integers, by evaluation. *)
Ltac by_computation :=
  vm_compute; repeat split; (reflexivity || discriminate).

(** ** Sorted stores: the round trip *)

(** C1.  Round trip of a sorted store.  A writer with at least one thread
    and one bucket is configured, [init_files] and a sequence of [write]
    calls return, and [destroy] is called.  Then [destroy] returns, and a
    reader over the files it leaves gets through [read_info] and
    [init_files] with the writer's [words_per_edge], and its first calls of
    [NextSortedEdge] return the records of bucket 0, then those of bucket 1
    and so on, each bucket's records in the order of the [write] calls, that
    is every record written once; every later call returns the null pointer.
    A bucket has thread id [-1] in the writer's table exactly when no record
    was written to it, and such a bucket has no record to give: the reader
    passes it.  In [read_info] the line of such a bucket adds 0 to the word
    in front of [file_sizes_]. *)
Theorem C1_sorted_round_trip w0 W0 log s1 s2 u m :
  closed w0 →
  EdgeWriter.init_files w0 W0 = Ret s1 →
  run_writes log s1 = Ret s2 →
  0 < EdgeWriter.num_threads_ w0 →
  0 < EdgeWriter.num_buckets_ w0 →
  concat (sorted_buckets w0 log)
  ≡ₚ records (EdgeWriter.words_per_edge_ w0) log
  ∧ (∀ b, 0 ≤ b < EdgeWriter.num_buckets_ w0 →
       ∃ p, vec_at (EdgeWriter.p_rec_ s2.1) b = Ret p
            ∧ (thread_id p = -1 ↔ bucket_log b log = [])
            ∧ sorted_buckets w0 log !! Z.to_nat b
              = Some (records (EdgeWriter.words_per_edge_ w0)
                        (bucket_log b log)))
  ∧ ∃ W r r',
      sorted_store w0 W0 log = Ret W
      ∧ open_reader (EdgeWriter.file_prefix_ w0) u W = Ret r
      ∧ EdgeReader.words_per_edge r = EdgeWriter.words_per_edge_ w0
      ∧ pull EdgeReader.NextSortedEdge
          (length (concat (sorted_buckets w0 log)) + m) r
        = Ret ((Some <$> concat (sorted_buckets w0 log))
               ++ replicate m None, r').
Proof.
  intros Hcl Hinit Hrun HN HB.
  destruct (reached_sorted_inv _ _ _ _ _ Hcl Hinit Hrun)
    as (Hinv & HNe & HBe & _).
  split; [|split].
  - apply sorted_buckets_perm.
    eapply Forall_impl; [exact (inv_calls _ _ _ _ Hinv)|].
    intros c (_ & ? & _). by rewrite <- HBe.
  - intros b Hb.
    destruct (inv_bucket _ _ _ _ Hinv b ltac:(lia)) as (p & Hp & Hbi).
    exists p. split; [done|]. split.
    + destruct Hbi as [[Hnil ->]|(Hr & pre & run & post & _ & Hrn & Hne & _)].
      * done.
      * split; [lia|congruence].
    + unfold sorted_buckets. rewrite list_lookup_fmap.
      rewrite (lookup_seqZ_lt 0 _ (Z.to_nat b)) by lia. simpl.
      do 3 f_equal. lia.
  - destruct (sparse_round_trip w0 W0 log s1 s2 u m Hcl Hinit Hrun HN HB)
      as (W & r & r' & Hstore & Hopen & Hw & Hpull).
    exists W, r, r'. done.
Qed.

Lemma C1_witness :
  ∃ W r r',
    sorted_store (ex_writer 2) empty_world ex_sparse_log = Ret W
    ∧ open_reader "out" ex_reader_memory W = Ret r
    ∧ pull EdgeReader.NextSortedEdge 3 r
      = Ret ([Some [1; 2]; None; None], r').
Proof.
  eassert (EdgeWriter.init_files (ex_writer 2) empty_world = Ret _) as Hinit
    by (vm_compute; reflexivity).
  match type of Hinit with
  | _ = Ret ?s1 =>
      eassert (run_writes ex_sparse_log s1 = Ret _) as Hrun
        by (vm_compute; reflexivity)
  end.
  destruct (C1_sorted_round_trip _ _ _ _ _ ex_reader_memory 2%nat
              (ex_writer_closed 2) Hinit Hrun)
    as (_ & _ & W & r & r' & Hstore & Hopen & _ & Hpull).
  { by_computation. }
  { by_computation. }
  exists W, r, r'. split; [exact Hstore|]. split; [exact Hopen|].
  exact Hpull.
Defined.

(** ** Further properties of the edge store *)

(** A loop stops with the fault of the round that is bound to fail, when
    the rounds before it can fail in no other way. *)
Lemma for_range_abort {St} (P : Z → St → Prop) (body : Z → St → res St)
    (e : fault) n :
  ∀ from s,
    P from s →
    (∀ i t, from ≤ i < from + Z.of_nat n → P i t →
       (∃ t', body i t = Ret t' ∧ P (i + 1) t') ∨ body i t = Abort e) →
    (∃ i, from ≤ i < from + Z.of_nat n ∧ ∀ t, P i t → body i t = Abort e) →
    for_range from n body s = Abort e.
Proof.
  induction n as [|n IH]; intros from s HP Hstep (i & Hi & Hfail).
  { lia. }
  simpl. destruct (Hstep from s ltac:(lia) HP) as [(t' & Hb & HP')|Hb].
  - rewrite Hb. simpl.
    destruct (decide (i = from)) as [->|Hne].
    { rewrite (Hfail s HP) in Hb. discriminate. }
    apply IH; [done| |].
    + intros j t Hj. apply Hstep. lia.
    + exists i. split; [lia|done].
  - by rewrite Hb.
Qed.

(** How many elements of [l] fall to each of the indices [0 .. N-1]. *)
Lemma counts_cons {A} (f : A → Z) (N : Z) c (l : list A) :
  0 ≤ f c < N →
  (λ t, Z.of_nat (length (filter (λ c, f c = t) (c :: l)))) <$> seqZ 0 N
  = <[Z.to_nat (f c) :=
        Z.of_nat (length (filter (λ c', f c' = f c) l)) + 1]>
      ((λ t, Z.of_nat (length (filter (λ c, f c = t) l))) <$> seqZ 0 N).
Proof.
  intros Hc. apply list_eq. intros i.
  destruct (decide (i = Z.to_nat (f c))) as [->|Hne].
  - rewrite list_lookup_insert_eq
      by (rewrite length_fmap, length_seqZ; lia).
    rewrite list_lookup_fmap, lookup_seqZ_lt by lia. simpl.
    rewrite Z2Nat.id, Z.add_0_l by lia. rewrite filter_cons_True by done.
    cbn [length]. f_equal. lia.
  - rewrite list_lookup_insert_ne by done.
    rewrite !list_lookup_fmap.
    destruct (decide (Z.of_nat i < N)) as [Hlt|Hge].
    + rewrite lookup_seqZ_lt by lia. simpl.
      by rewrite filter_cons_False by lia.
    + by rewrite lookup_seqZ_ge by lia.
Qed.

Lemma sum_counts {A} (f : A → Z) (N : Z) (l : list A) :
  Forall (λ c, 0 ≤ f c < N) l →
  sumZ ((λ t, Z.of_nat (length (filter (λ c, f c = t) l))) <$> seqZ 0 N)
  = Z.of_nat (length l).
Proof.
  induction 1 as [|c l Hc _ IH].
  - unfold sumZ. induction (seqZ 0 N) as [|b L IHL]; [done|].
    simpl in *. unfold fmap in IHL. lia.
  - rewrite (counts_cons f N c l Hc).
    pose proof (sumZ_insert (λ z : Z, z)
                  ((λ t, Z.of_nat (length (filter (λ c, f c = t) l)))
                     <$> seqZ 0 N)
                  (Z.to_nat (f c))
                  (Z.of_nat (length (filter (λ c', f c' = f c) l)) + 1)
                  (Z.of_nat (length (filter (λ c', f c' = f c) l)))) as Hins.
    rewrite !list_fmap_id in Hins. rewrite Hins.
    + rewrite IH. simpl. lia.
    + rewrite list_lookup_fmap, lookup_seqZ_lt by lia. simpl.
      by rewrite Z2Nat.id by lia.
Qed.

Section writer_extras.
Import EdgeWriter.

(** X1.  [EdgeWriter::init_files] on a writer that is not opened, with a
    thread count and a bucket count that are not negative: the call returns
    and marks the writer opened; the file of every thread exists and is
    empty, whatever it held before; every thread has no current bucket and
    has written no record; every bucket is without owner; no other file is
    touched.  A second call fails the assertion [!is_opened_]. *)
Theorem X1_init_files_opens_an_empty_store w W :
  closed w → 0 ≤ num_threads_ w → 0 ≤ num_buckets_ w →
  ∃ w' W',
    init_files w W = Ret (w', W')
    ∧ is_opened_ w' = true
    ∧ (∀ t, 0 ≤ t < num_threads_ w →
         fs W' !! edges_file_name (file_prefix_ w) t = Some (Binary [])
         ∧ vec_at (cur_bucket_ w') t = Ret (-1)
         ∧ vec_at (cur_num_edges_ w') t = Ret 0)
    ∧ (∀ b, 0 ≤ b < num_buckets_ w →
         vec_at (p_rec_ w') b = Ret PartitionRecord_new)
    ∧ (∀ name,
         (∀ t, 0 ≤ t < num_threads_ w →
               name ≠ edges_file_name (file_prefix_ w) t) →
         fs W' !! name = fs W !! name)
    ∧ init_files w' W' = Abort AssertionFailed.
Proof.
  intros Hcl HN HB.
  destruct (init_files_ok w W Hcl HN HB)
    as (w' & W' & Hinit & Hinv & Hother & _ & Hw & HN' & HB' & _ & _ & Hp).
  exists w', W'. split; [done|].
  split; [apply (inv_opened _ _ _ _ Hinv)|].
  split; [|split; [|split; [done|]]].
  - intros t Ht.
    destruct (inv_thread _ _ _ _ Hinv t ltac:(lia))
      as (_ & _ & Hfile & Hn & Hcb).
    rewrite Hp in Hfile. done.
  - intros b Hb.
    destruct (inv_bucket _ _ _ _ Hinv b ltac:(lia)) as (pr & Hpr & Hbi).
    destruct Hbi as [[_ ->]|(_ & pre & run & post & _ & Hrun & Hne & _)];
      [done|]. by rewrite <- Hrun in Hne.
  - unfold init_files. by rewrite (inv_opened _ _ _ _ Hinv).
Qed.

(** X2.  A writer can be opened again after [destroy].  From a state
    reached by [init_files] and writes that returned, [destroy] returns and
    leaves the writer not opened, with empty vectors and the configuration
    it had; [init_files] then returns again, and it empties the files of the
    threads while the metadata file of the finished store stays as
    [destroy] wrote it. *)
Theorem X2_writer_opens_again_after_destroy w0 W0 s1 log w W :
  closed w0 →
  init_files w0 W0 = Ret s1 →
  run_writes log s1 = Ret (w, W) →
  ∃ w' W',
    destroy w W = Ret (w', W')
    ∧ closed w'
    ∧ words_per_edge_ w' = words_per_edge_ w0
    ∧ num_threads_ w' = num_threads_ w0
    ∧ num_buckets_ w' = num_buckets_ w0
    ∧ file_prefix_ w' = file_prefix_ w0
    ∧ ∃ w'' W'',
        init_files w' W' = Ret (w'', W'')
        ∧ (∀ t, 0 ≤ t < num_threads_ w0 →
             fs W'' !! edges_file_name (file_prefix_ w0) t
             = Some (Binary []))
        ∧ fs W'' !! info_file_name (file_prefix_ w0)
          = fs W' !! info_file_name (file_prefix_ w0)
        ∧ is_Some (fs W' !! info_file_name (file_prefix_ w0)).
Proof.
  intros Hcl Hinit Hrun.
  destruct (reached_sorted_inv _ _ _ _ _ Hcl Hinit Hrun)
    as (Hinv & HN & HB & Hw & Hp).
  simpl in Hinv, HN, HB, Hw, Hp.
  destruct (destroy_ok (length (streams W0)) w W) as ([w' W'] & Hdes).
  { apply (inv_opened _ _ _ _ Hinv). }
  { intros t Ht. destruct (inv_thread _ _ _ _ Hinv t Ht) as (? & ? & _).
    eauto. }
  destruct (destroy_opened _ _ _ _ (inv_opened _ _ _ _ Hinv) Hdes)
    as (-> & HfsW).
  pose proof (inv_threads _ _ _ _ Hinv) as HN0.
  pose proof (inv_buckets _ _ _ _ Hinv) as HB0.
  set (w1 := with_vectors [] [] [] [] false w) in *.
  assert (closed w1) as Hcl1 by (by repeat split).
  destruct (init_files_ok w1 W' Hcl1 HN0 HB0)
    as (w'' & W'' & Hinit2 & Hinv2 & Hother & _ & _ & HN2 & _ & _ & _ & Hp2).
  exists w1, W'. split; [exact Hdes|]. split; [exact Hcl1|].
  repeat (split; [done|]).
  exists w'', W''. split; [done|]. split; [|split].
  - intros t Ht.
    destruct (inv_thread _ _ _ _ Hinv2 t) as (_ & _ & Hfile & _).
    { rewrite HN2. simpl. lia. }
    rewrite Hp2 in Hfile. simpl in Hfile. by rewrite Hp in Hfile.
  - apply Hother. intros t Ht. simpl. rewrite Hp.
    apply not_eq_sym, edges_file_name_not_info.
  - rewrite HfsW, Hp. rewrite lookup_insert_eq. eauto.
Qed.

End writer_extras.

Lemma X1_witness :
  ∃ w' W',
    EdgeWriter.init_files (ex_writer 3) empty_world = Ret (w', W')
    ∧ fs W' !! edges_file_name (EdgeWriter.file_prefix_ (ex_writer 3)) 1 = Some (Binary [])
    ∧ EdgeWriter.init_files w' W' = Abort AssertionFailed.
Proof.
  destruct (X1_init_files_opens_an_empty_store (ex_writer 3) empty_world
              (ex_writer_closed 3))
    as (w' & W' & Hinit & _ & Hthreads & _ & _ & Hagain).
  { by_computation. }
  { by_computation. }
  exists w', W'. split; [exact Hinit|]. split; [|exact Hagain].
  destruct (Hthreads 1) as (Hfile & _); [by_computation|exact Hfile].
Defined.

Lemma X2_witness :
  ∃ w W w' W' w'' W'',
    (s1 ← EdgeWriter.init_files (ex_writer 3) empty_world;
     run_writes ex_log s1) = Ret (w, W)
    ∧ EdgeWriter.destroy w W = Ret (w', W')
    ∧ EdgeWriter.init_files w' W' = Ret (w'', W'')
    ∧ fs W'' !! edges_file_name (EdgeWriter.file_prefix_ (ex_writer 3)) 0 = Some (Binary []).
Proof.
  eassert (EdgeWriter.init_files (ex_writer 3) empty_world = Ret _) as Hinit
    by (vm_compute; reflexivity).
  match type of Hinit with
  | _ = Ret ?s1 =>
      eassert (run_writes ex_log s1 = Ret (_, _)) as Hrun
        by (vm_compute; reflexivity)
  end.
  destruct (X2_writer_opens_again_after_destroy _ _ _ _ _ _
              (ex_writer_closed 3) Hinit Hrun)
    as (w' & W' & Hdes & _ & _ & _ & _ & _ & w'' & W'' & Hinit2 & Hfiles & _).
  eexists _, _, w', W', w'', W''. split; [rewrite Hinit; exact Hrun|].
  split; [exact Hdes|]. split; [exact Hinit2|].
  apply (Hfiles 0). by_computation.
Defined.

(** The calls of [write] change the vectors only. *)
Lemma run_writes_config log :
  ∀ s s',
    run_writes log s = Ret s' →
    EdgeWriter.kmer_size_ s'.1 = EdgeWriter.kmer_size_ s.1
    ∧ EdgeWriter.unsorted_ s'.1 = EdgeWriter.unsorted_ s.1
    ∧ EdgeWriter.num_unsorted_edges_ s'.1 = EdgeWriter.num_unsorted_edges_ s.1.
Proof.
  induction log as [|c log IH]; intros s s' Hrun; simpl in Hrun.
  - by injection Hrun as <-.
  - apply bind_Ret in Hrun as ([w2 W2] & Hc & Hrun).
    destruct (IH _ _ Hrun) as (Hk & Hu & Hnu). simpl in Hk, Hu, Hnu.
    rewrite Hk, Hu, Hnu. unfold do_write in Hc.
    apply write_Ret in Hc as (? & ? & ? & ? & ? & ? & _ & _ & _ & _ & _ & _
                              & _ & _ & _ & -> & _).
    done.
Qed.

(** The totals of the buckets are the numbers of records written to them. *)
Lemma sorted_inv_totals h0 log w W :
  sorted_inv h0 log w W →
  total_number <$> EdgeWriter.p_rec_ w
  = (λ b, Z.of_nat (length (filter (λ c, wc_bucket c = b) log)))
      <$> seqZ 0 (EdgeWriter.num_buckets_ w).
Proof.
  intros Hinv. apply list_eq. intros i.
  pose proof (inv_buckets _ _ _ _ Hinv) as HB.
  pose proof (inv_prec_len _ _ _ _ Hinv) as Hlen.
  rewrite !list_lookup_fmap.
  destruct (decide (Z.of_nat i < EdgeWriter.num_buckets_ w)) as [Hlt|Hge].
  - rewrite lookup_seqZ_lt by lia. simpl. rewrite Z.add_0_l.
    destruct (inv_bucket _ _ _ _ Hinv (Z.of_nat i) ltac:(lia))
      as (pr & Hpr & Hbi).
    apply vec_at_Ret in Hpr as [_ Hpr]. rewrite Nat2Z.id in Hpr.
    rewrite Hpr. simpl. f_equal. fold (bucket_log (Z.of_nat i) log).
    destruct Hbi as [[-> ->]|(_ & pre & run & post & _ & -> & _ & _ & Htot
                              & _)]; done.
  - rewrite lookup_seqZ_ge by lia.
    rewrite (lookup_ge_None_2 (EdgeWriter.p_rec_ w)) by lia. done.
Qed.

Lemma unsorted_inv_counts h0 calls w W :
  unsorted_inv h0 calls w W →
  EdgeWriter.num_unsorted_edges_ w
  = (λ t, Z.of_nat (length (filter (λ c, uc_tid c = t) calls)))
      <$> seqZ 0 (EdgeWriter.num_threads_ w).
Proof.
  intros Hinv. apply list_eq. intros i.
  pose proof (uinv_threads _ _ _ _ Hinv) as HN.
  pose proof (uinv_nu_len _ _ _ _ Hinv) as Hlen.
  rewrite list_lookup_fmap.
  destruct (decide (Z.of_nat i < EdgeWriter.num_threads_ w)) as [Hlt|Hge].
  - rewrite lookup_seqZ_lt by lia. simpl. rewrite Z.add_0_l.
    destruct (uinv_thread _ _ _ _ Hinv (Z.of_nat i) ltac:(lia))
      as (_ & _ & _ & Hn).
    apply vec_at_Ret in Hn as [_ Hn]. rewrite Nat2Z.id in Hn.
    rewrite Hn. unfold thread_edges. by rewrite length_fmap.
  - rewrite lookup_seqZ_ge by lia.
    rewrite (lookup_ge_None_2 (EdgeWriter.num_unsorted_edges_ w)) by lia.
    done.
Qed.

(** X3.  The metadata of an unsorted store comes back.  For a store written
    by [set_unsorted], [init_files], calls of [write_unsorted] that returned
    and [destroy], [read_info] returns a reader whose [kmer_size()] and
    [words_per_edge()] are the writer's, whose [num_edges()] is the number
    of records written, for which [is_unsorted()] holds, and whose file
    sizes are the numbers of records the threads wrote; it changes no
    file. *)
Theorem X3_unsorted_metadata_round_trip w0 W0 calls W u :
  closed w0 →
  unsorted_store w0 W0 calls = Ret W →
  ∃ r W',
    EdgeReader.read_info
      (EdgeReader.set_file_prefix (EdgeWriter.file_prefix_ w0)
         (EdgeReader.new u)) W = Ret (r, W')
    ∧ EdgeReader.kmer_size r = EdgeWriter.kmer_size_ w0
    ∧ EdgeReader.words_per_edge r = EdgeWriter.words_per_edge_ w0
    ∧ EdgeReader.num_edges r = Z.of_nat (length calls)
    ∧ EdgeReader.is_unsorted r = true
    ∧ EdgeReader.num_files_ r = EdgeWriter.num_threads_ w0
    ∧ (∀ t, 0 ≤ t < EdgeWriter.num_threads_ w0 →
         vec_at (EdgeReader.file_sizes_ r) t
         = Ret (Z.of_nat (length (filter (λ c, uc_tid c = t) calls))))
    ∧ fs W' = fs W.
Proof.
  intros Hcl Hstore. unfold unsorted_store in Hstore.
  apply bind_Ret in Hstore as (w1 & Hset & Hstore).
  apply bind_Ret in Hstore as ([w2 W2] & Hinit & Hstore).
  apply bind_Ret in Hstore as ([w3 W3] & Hrun & Hstore).
  apply bind_Ret in Hstore as ([w4 W4] & Hdes & Hstore).
  injection Hstore as <-. simpl in *.
  destruct (unsorted_init _ _ _ _ Hcl Hset Hinit)
    as (Hinv2 & _ & HN2 & HB2 & Hw2 & Hk2 & Hp2 & Hu2 & Hpr2).
  destruct (run_unsorted_inv _ _ _ _ _ _ Hinv2 Hrun)
    as (Hinv & HN & HB & Hw & Hk & Hp & Hu & Hpr).
  simpl in *.
  destruct (destroy_opened _ _ _ _ (uinv_opened _ _ _ _ Hinv) Hdes)
    as (_ & HfsW).
  rewrite HN2 in HN. rewrite HB2 in HB. rewrite Hw2 in Hw.
  rewrite Hp2 in Hp. rewrite Hpr2 in Hpr. rewrite Hk2 in Hk.
  rewrite Hu2 in Hu. rewrite Hu in HfsW. simpl in HfsW.
  pose proof (unsorted_inv_counts _ _ _ _ Hinv) as Hnu.
  pose proof (uinv_threads _ _ _ _ Hinv) as HN0.
  pose proof (uinv_nu_len _ _ _ _ Hinv) as Hnl.
  set (r0 := EdgeReader.set_file_prefix (EdgeWriter.file_prefix_ w0)
               (EdgeReader.new u)).
  destruct (read_info_unsorted r0 W4 w3
              (sumZ (EdgeWriter.num_unsorted_edges_ w3)))
    as (W5 & Hread & Hfs5); try done.
  { rewrite HfsW. simpl. rewrite <- Hp. apply lookup_insert_eq. }
  exists (EdgeReader.with_info (EdgeWriter.kmer_size_ w3)
            (EdgeWriter.words_per_edge_ w3) (EdgeWriter.num_threads_ w3) 0
            (sumZ (EdgeWriter.num_unsorted_edges_ w3)) []
            (EdgeWriter.num_unsorted_edges_ w3) r0), W5.
  split; [done|]. simpl.
  split; [done|]. split; [done|]. split.
  { rewrite Hnu. apply sum_counts.
    eapply Forall_impl; [exact (uinv_calls _ _ _ _ Hinv)|].
    by intros c (? & _). }
  split; [done|]. split; [done|]. split; [|done].
  intros t Ht. rewrite Hnu. apply vec_at_Ret. split; [lia|].
  rewrite list_lookup_fmap, lookup_seqZ_lt by lia. simpl.
  by rewrite Z.add_0_l, Z2Nat.id by lia.
Qed.

Lemma X3_witness :
  ∃ W r W',
    unsorted_store (ex_writer 0) empty_world ex_unsorted_calls = Ret W
    ∧ EdgeReader.read_info
        (EdgeReader.set_file_prefix "out" (EdgeReader.new ex_reader_memory))
        W = Ret (r, W')
    ∧ EdgeReader.kmer_size r = 21
    ∧ EdgeReader.num_edges r = 3.
Proof.
  eassert (unsorted_store (ex_writer 0) empty_world ex_unsorted_calls
           = Ret _) as Hstore by (vm_compute; reflexivity).
  destruct (X3_unsorted_metadata_round_trip _ _ _ _ ex_reader_memory
              (ex_writer_closed 0) Hstore)
    as (r & W' & Hread & Hk & _ & Hne & _).
  eexists _, r, W'. split; [exact Hstore|]. split; [exact Hread|].
  split; [exact Hk|exact Hne].
Defined.

(** X4.  The metadata of a sorted store comes back.  After [init_files] and
    writes that returned, with at least one record in every bucket,
    [destroy] returns and [read_info] then returns a reader whose
    [kmer_size()] and [words_per_edge()] are the writer's, whose
    [num_edges()] is the number of records written, for which
    [is_unsorted()] does not hold, whose bucket table is the writer's and
    whose file sizes are the numbers of records the threads wrote. *)
Theorem X4_sorted_metadata_round_trip w0 W0 s1 log w W u :
  closed w0 →
  EdgeWriter.unsorted_ w0 = false →
  EdgeWriter.init_files w0 W0 = Ret s1 →
  run_writes log s1 = Ret (w, W) →
  0 < EdgeWriter.num_buckets_ w0 →
  (∀ b, 0 ≤ b < EdgeWriter.num_buckets_ w0 → bucket_log b log ≠ []) →
  ∃ w' W' r W'',
    EdgeWriter.destroy w W = Ret (w', W')
    ∧ EdgeReader.read_info
        (EdgeReader.set_file_prefix (EdgeWriter.file_prefix_ w0)
           (EdgeReader.new u)) W' = Ret (r, W'')
    ∧ EdgeReader.kmer_size r = EdgeWriter.kmer_size_ w0
    ∧ EdgeReader.words_per_edge r = EdgeWriter.words_per_edge_ w0
    ∧ EdgeReader.num_edges r = Z.of_nat (length log)
    ∧ EdgeReader.is_unsorted r = false
    ∧ EdgeReader.num_files_ r = EdgeWriter.num_threads_ w0
    ∧ EdgeReader.p_rec_ r = EdgeWriter.p_rec_ w
    ∧ (∀ t, 0 ≤ t < EdgeWriter.num_threads_ w0 →
         vec_at (EdgeReader.file_sizes_ r) t
         = Ret (Z.of_nat (length (thread_log t log))))
    ∧ fs W'' = fs W'.
Proof.
  intros Hcl Hsorted Hinit Hrun HB Hown.
  destruct (reached_sorted_inv _ _ _ _ _ Hcl Hinit Hrun)
    as (Hinv & HN & HBe & Hw & Hp).
  pose proof (λ t, reached_owned_sum _ _ _ _ _ t Hcl Hinit Hrun) as Hsum.
  destruct (run_writes_config _ _ _ Hrun) as (Hk & Hu & _).
  destruct (init_files_pre _ _ _ Hinit) as (_ & HN0 & HB0).
  destruct (init_files_ok w0 W0 Hcl HN0 HB0)
    as (w1 & W1 & Hinit' & _ & _ & Hk1 & _ & _ & _ & Hu1 & _).
  rewrite Hinit in Hinit'. injection Hinit' as ->.
  simpl in Hinv, HN, HBe, Hw, Hp, Hsum, Hk, Hu.
  rewrite Hk1 in Hk. rewrite Hu1, Hsorted in Hu.
  destruct (destroy_ok (length (streams W0)) w W) as ([w' W'] & Hdes).
  { apply (inv_opened _ _ _ _ Hinv). }
  { intros t Ht. destruct (inv_thread _ _ _ _ Hinv t Ht) as (? & ? & _).
    eauto. }
  destruct (destroy_opened _ _ _ _ (inv_opened _ _ _ _ Hinv) Hdes)
    as (_ & HfsW).
  rewrite Hu in HfsW. simpl in HfsW.
  pose proof (full_buckets_threads _ _ _ _ _ Hcl Hinit Hrun HB Hown) as HNpos.
  pose proof (reached_lines_in_reach _ _ _ _ Hinv ltac:(lia)) as Hall.
  set (r0 := EdgeReader.set_file_prefix (EdgeWriter.file_prefix_ w0)
               (EdgeReader.new u)).
  destruct (read_info_sorted r0 W' w
              (sumZ (total_number <$> EdgeWriter.p_rec_ w)))
    as (fsz & W'' & Hread & Hfs & Hlfsz & Hfsz); try done.
  { rewrite HfsW. simpl. rewrite <- Hp. apply lookup_insert_eq. }
  { lia. }
  { apply (inv_prec_len _ _ _ _ Hinv). }
  { apply (inv_threads _ _ _ _ Hinv). }
  eexists w', W', _, W''. split; [done|]. split; [exact Hread|]. simpl.
  split; [done|]. split; [done|]. split.
  { rewrite (sorted_inv_totals _ _ _ _ Hinv). apply sum_counts.
    eapply Forall_impl; [exact (inv_calls _ _ _ _ Hinv)|].
    by intros c (_ & ? & _). }
  split.
  { unfold EdgeReader.is_unsorted. simpl.
    apply bool_decide_eq_false_2. lia. }
  split; [done|]. split; [done|]. split; [|done].
  intros t Ht. rewrite Hfsz by lia. by rewrite Hsum by lia.
Qed.

Lemma ex_log_fills_buckets b :
  0 ≤ b < 3 → bucket_log b ex_log ≠ [].
Proof.
  intros Hb. assert (b = 0 ∨ b = 1 ∨ b = 2) as [->|[->| ->]] by lia;
    by vm_compute.
Qed.

Lemma X4_witness :
  ∃ w W w' W' r W'',
    (s1 ← EdgeWriter.init_files (ex_writer 3) empty_world;
     run_writes ex_log s1) = Ret (w, W)
    ∧ EdgeWriter.destroy w W = Ret (w', W')
    ∧ EdgeReader.read_info
        (EdgeReader.set_file_prefix "out" (EdgeReader.new ex_reader_memory))
        W' = Ret (r, W'')
    ∧ EdgeReader.num_edges r = 4
    ∧ EdgeReader.is_unsorted r = false.
Proof.
  eassert (EdgeWriter.init_files (ex_writer 3) empty_world = Ret _) as Hinit
    by (vm_compute; reflexivity).
  match type of Hinit with
  | _ = Ret ?s1 =>
      eassert (run_writes ex_log s1 = Ret (_, _)) as Hrun
        by (vm_compute; reflexivity)
  end.
  destruct (X4_sorted_metadata_round_trip _ _ _ _ _ _ ex_reader_memory
              (ex_writer_closed 3) eq_refl Hinit Hrun)
    as (w' & W' & r & W'' & Hdes & Hread & _ & _ & Hne & Hun & _).
  { by_computation. }
  { exact ex_log_fills_buckets. }
  eexists _, _, w', W', r, W''. split; [rewrite Hinit; exact Hrun|].
  split; [exact Hdes|]. split; [exact Hread|]. split; [exact Hne|exact Hun].
Defined.

(** X5.  [read_info] gets past a bucket that received no record.  After
    [init_files] of a sorted writer with at least one thread and writes that
    returned, if some bucket of the store was never written to, [destroy]
    still returns and [read_info] on the store it leaves returns: the
    reader's table has thread id [-1] and no records for that bucket, its
    [num_edges()] is the number of records written and its file sizes are
    the numbers of records the threads wrote. *)
Theorem X5_read_info_passes_a_bucket_without_owner
    w0 W0 s1 log s2 u b :
  closed w0 →
  EdgeWriter.unsorted_ w0 = false →
  EdgeWriter.init_files w0 W0 = Ret s1 →
  run_writes log s1 = Ret s2 →
  0 < EdgeWriter.num_threads_ w0 →
  0 ≤ b < EdgeWriter.num_buckets_ w0 →
  bucket_log b log = [] →
  ∃ W r W',
    sorted_store w0 W0 log = Ret W
    ∧ EdgeReader.read_info
        (EdgeReader.set_file_prefix (EdgeWriter.file_prefix_ w0)
           (EdgeReader.new u)) W = Ret (r, W')
    ∧ vec_at (EdgeReader.p_rec_ r) b = Ret PartitionRecord_new
    ∧ EdgeReader.num_edges r = Z.of_nat (length log)
    ∧ length (EdgeReader.file_sizes_ r)
      = Z.to_nat (EdgeWriter.num_threads_ w0)
    ∧ ∀ t, 0 ≤ t < EdgeWriter.num_threads_ w0 →
        vec_at (EdgeReader.file_sizes_ r) t
        = Ret (Z.of_nat (length (thread_log t log))).
Proof.
  intros Hcl Hsorted Hinit Hrun HNpos Hb Hnil.
  destruct (reached_sorted_inv _ _ _ _ _ Hcl Hinit Hrun)
    as (Hinv & HN & HBe & _ & Hp).
  pose proof (λ t, reached_owned_sum _ _ _ _ _ t Hcl Hinit Hrun) as Hsum.
  destruct (run_writes_config _ _ _ Hrun) as (_ & Hu & _).
  destruct (init_files_pre _ _ _ Hinit) as (_ & HN0 & HB0).
  destruct (init_files_ok w0 W0 Hcl HN0 HB0)
    as (w1 & W1 & Hinit' & _ & _ & _ & _ & _ & _ & Hu1 & _).
  rewrite Hinit in Hinit'. injection Hinit' as ->.
  destruct s2 as [w3 W3]. simpl in Hinv, HN, HBe, Hp, Hsum, Hu.
  rewrite Hu1, Hsorted in Hu.
  destruct (inv_bucket _ _ _ _ Hinv b ltac:(lia)) as (pr & Hpr & Hbi).
  assert (pr = PartitionRecord_new) as ->.
  { destruct Hbi as [[_ ->]|(_ & pre & run & post & _ & Hrn & Hne & _)];
      [done|congruence]. }
  destruct (destroy_ok (length (streams W0)) w3 W3) as ([w4 W4] & Hdes).
  { apply (inv_opened _ _ _ _ Hinv). }
  { intros t Ht. destruct (inv_thread _ _ _ _ Hinv t Ht) as (? & ? & _).
    eauto. }
  destruct (destroy_opened _ _ _ _ (inv_opened _ _ _ _ Hinv) Hdes)
    as (_ & HfsW).
  rewrite Hu in HfsW. simpl in HfsW.
  pose proof (reached_lines_in_reach _ _ _ _ Hinv ltac:(lia)) as Hall.
  set (r0 := EdgeReader.set_file_prefix (EdgeWriter.file_prefix_ w0)
               (EdgeReader.new u)).
  destruct (read_info_sorted r0 W4 w3
              (sumZ (total_number <$> EdgeWriter.p_rec_ w3)))
    as (fsz & W5 & Hread & Hfs & Hlfsz & Hfsz); try done.
  { rewrite HfsW. simpl. rewrite <- Hp. apply lookup_insert_eq. }
  { lia. }
  { apply (inv_prec_len _ _ _ _ Hinv). }
  { lia. }
  eexists W4, _, W5. split.
  { unfold sorted_store. rewrite Hinit. simpl. rewrite Hrun. simpl.
    by rewrite Hdes. }
  split; [exact Hread|]. simpl. split; [done|]. split.
  { rewrite (sorted_inv_totals _ _ _ _ Hinv). apply sum_counts.
    eapply Forall_impl; [exact (inv_calls _ _ _ _ Hinv)|].
    by intros c (_ & ? & _). }
  split; [by rewrite <- HN|].
  intros t Ht. rewrite Hfsz by lia. by rewrite Hsum by lia.
Qed.

Lemma X5_witness :
  ∃ W r W',
    sorted_store (ex_writer 2) empty_world ex_sparse_log = Ret W
    ∧ EdgeReader.read_info
        (EdgeReader.set_file_prefix "out" (EdgeReader.new ex_reader_memory))
        W = Ret (r, W')
    ∧ vec_at (EdgeReader.p_rec_ r) 0 = Ret PartitionRecord_new
    ∧ EdgeReader.num_edges r = 1
    ∧ vec_at (EdgeReader.file_sizes_ r) 0 = Ret 1
    ∧ vec_at (EdgeReader.file_sizes_ r) 1 = Ret 0.
Proof.
  eassert (EdgeWriter.init_files (ex_writer 2) empty_world = Ret _) as Hinit
    by (vm_compute; reflexivity).
  match type of Hinit with
  | _ = Ret ?s1 =>
      eassert (run_writes ex_sparse_log s1 = Ret _) as Hrun
        by (vm_compute; reflexivity)
  end.
  destruct (X5_read_info_passes_a_bucket_without_owner _ _ _ _ _
              ex_reader_memory 0 (ex_writer_closed 2) eq_refl Hinit Hrun)
    as (W & r & W' & Hstore & Hread & Hrec & Hne & _ & Hfsz).
  { by_computation. }
  { by_computation. }
  { reflexivity. }
  exists W, r, W'. split; [exact Hstore|]. split; [exact Hread|].
  split; [exact Hrec|]. split; [exact Hne|].
  split; [apply (Hfsz 0)|apply (Hfsz 1)]; by_computation.
Defined.

(** X6.  A sorted store in which every bucket received a record is read
    back.  After [init_files] and writes that returned, [destroy] returns,
    [read_info] and [init_files] of a reader return, and repeated
    [NextSortedEdge] yields the records of bucket 0 in the order written,
    then those of bucket 1, and so on, and the null sentinel on every call
    after the last record; the records yielded are the records written, each
    as often as it was written. *)
Theorem X6_sorted_round_trip_of_full_buckets w0 W0 log s1 s2 u m :
  closed w0 →
  EdgeWriter.init_files w0 W0 = Ret s1 →
  run_writes log s1 = Ret s2 →
  0 < EdgeWriter.num_buckets_ w0 →
  (∀ b, 0 ≤ b < EdgeWriter.num_buckets_ w0 → bucket_log b log ≠ []) →
  concat (sorted_buckets w0 log)
  ≡ₚ records (EdgeWriter.words_per_edge_ w0) log
  ∧ ∃ W r r',
      sorted_store w0 W0 log = Ret W
      ∧ open_reader (EdgeWriter.file_prefix_ w0) u W = Ret r
      ∧ EdgeReader.words_per_edge r = EdgeWriter.words_per_edge_ w0
      ∧ pull EdgeReader.NextSortedEdge
          (length (concat (sorted_buckets w0 log)) + m) r
        = Ret ((Some <$> concat (sorted_buckets w0 log))
               ++ replicate m None, r').
Proof.
  intros Hcl Hinit Hrun HB Hown. split.
  - destruct (reached_sorted_inv _ _ _ _ _ Hcl Hinit Hrun)
      as (Hinv & _ & HBe & _).
    apply sorted_buckets_perm.
    eapply Forall_impl; [exact (inv_calls _ _ _ _ Hinv)|].
    intros c (_ & ? & _). by rewrite <- HBe.
  - destruct (sorted_round_trip w0 W0 log s1 s2 u m Hcl Hinit Hrun HB Hown)
      as (W & r & r' & Hstore & Hopen & Hw & Hpull).
    exists W, r, r'. done.
Qed.

Lemma X6_witness :
  ∃ W r r',
    sorted_store (ex_writer 3) empty_world ex_log = Ret W
    ∧ open_reader "out" ex_reader_memory W = Ret r
    ∧ pull EdgeReader.NextSortedEdge 6 r
      = Ret ([Some [7; 8]; Some [1; 2]; Some [5; 6]; Some [3; 4];
              None; None], r').
Proof.
  eassert (EdgeWriter.init_files (ex_writer 3) empty_world = Ret _) as Hinit
    by (vm_compute; reflexivity).
  match type of Hinit with
  | _ = Ret ?s1 =>
      eassert (run_writes ex_log s1 = Ret _) as Hrun
        by (vm_compute; reflexivity)
  end.
  destruct (X6_sorted_round_trip_of_full_buckets _ _ _ _ _ ex_reader_memory
              2%nat (ex_writer_closed 3) Hinit Hrun)
    as (_ & W & r & r' & Hstore & Hopen & _ & Hpull).
  { by_computation. }
  { exact ex_log_fills_buckets. }
  exists W, r, r'. split; [exact Hstore|]. split; [exact Hopen|].
  exact Hpull.
Defined.

Section reader_extras.
Import EdgeReader.

(** One round of the loop of [init_files]: it returns when the file of the
    round exists, and fails the assertion on the descriptor when it does
    not. *)
Lemma map_file_cases r i fds mm W :
  0 ≤ i < Z.of_nat (length fds) → 0 ≤ i < Z.of_nat (length mm) →
  0 ≤ i < Z.of_nat (length (file_sizes_ r)) →
  match fs W !! edges_file_name (file_prefix_ r) i with
  | Some _ =>
      ∃ fds' mm' W',
        map_file r i (fds, mm, W) = Ret (fds', mm', W')
        ∧ length fds' = length fds ∧ length mm' = length mm
        ∧ fs W' = fs W
  | None => map_file r i (fds, mm, W) = Abort AssertionFailed
  end.
Proof.
  intros Hf Hm Hs. unfold map_file, open_rdonly.
  destruct (fs W !! edges_file_name (file_prefix_ r) i) as [c|] eqn:Hc.
  - rewrite vec_set_ok by done. cbn [mbind res_bind].
    rewrite bool_decide_eq_true_2 by lia. cbn [mbind res_bind assert].
    destruct (lookup_lt_is_Some_2 (file_sizes_ r) (Z.to_nat i)) as [n Hn];
      [lia|].
    assert (vec_at (file_sizes_ r) i = Ret n) as ->
      by (apply vec_at_Ret; split; [lia|done]).
    cbn [mbind res_bind]. rewrite vec_set_ok by done. cbn [mbind res_bind].
    assert (∀ len fd W1, is_null (mmap len fd W1) = false) as Hnn.
    { intros len fd W1. unfold mmap.
      destruct (stream_name fd W1); [|done].
      by destruct (fs W1 !! _) as [[]|]. }
    rewrite Hnn. cbn [negb assert mbind res_bind].
    eexists _, _, _. split; [done|]. rewrite !length_insert. done.
  - rewrite vec_set_ok by done. cbn [mbind res_bind].
    rewrite bool_decide_eq_false_2 by lia. done.
Qed.

(** X7.  [EdgeReader::init_files] fails its assertions: on a reader that is
    opened already ([assert(!is_opened_)]), and, for a reader that is not
    opened and has a size for every file, whenever the file of one of its
    threads does not exist ([assert(fds_[i] != -1)]). *)
Theorem X7_reader_init_files_asserts r W :
  (is_opened_ r = true → init_files r W = Abort AssertionFailed)
  ∧ (∀ i,
       is_opened_ r = false → fds_ r = [] → mmaps_ r = [] →
       0 ≤ i < num_files_ r →
       Z.to_nat (num_files_ r) = length (file_sizes_ r) →
       fs W !! edges_file_name (file_prefix_ r) i = None →
       init_files r W = Abort AssertionFailed).
Proof.
  split.
  - intros Hop. unfold init_files. by rewrite Hop.
  - intros i Hop Hfds Hmm Hi Hlen Hnone. unfold init_files.
    rewrite Hop, Hfds, Hmm. simpl. unfold vresize.
    rewrite !decide_True by lia. simpl. rewrite !resize_nil.
    set (N := Z.to_nat (num_files_ r)).
    rewrite (for_range_abort
               (λ (_ : Z) (s : list Z * list ptr * World),
                  length s.1.1 = N ∧ length s.1.2 = N ∧ fs s.2 = fs W)
               (map_file r) AssertionFailed); [done| | |].
    + simpl. by rewrite !length_replicate.
    + intros j [[fds mm] Wj] Hj (Hlf & Hlm & Hfs). simpl in Hlf, Hlm, Hfs.
      pose proof (map_file_cases r j fds mm Wj) as Hcase.
      destruct (fs Wj !! edges_file_name (file_prefix_ r) j).
      * left. destruct Hcase as (fds' & mm' & W' & Hrun & Hlf' & Hlm' & Hfs');
          [lia..|].
        eexists. split; [exact Hrun|]. simpl.
        split; [lia|]. split; [lia|]. by rewrite Hfs'.
      * right. apply Hcase; lia.
    + exists i. split; [lia|].
      intros [[fds mm] Wi] (Hlf & Hlm & Hfs). simpl in Hlf, Hlm, Hfs.
      pose proof (map_file_cases r i fds mm Wi) as Hcase.
      rewrite Hfs, Hnone in Hcase. apply Hcase; lia.
Qed.

End reader_extras.

(** A reader that was told of one file, in a world without files. *)
Lemma X7_witness :
  EdgeReader.init_files
    (EdgeReader.mk 21 2 1 0 0 "out" [] [] [] [0] 0 0 0 0 EdgeReader.NULL
       false) empty_world
  = Abort AssertionFailed.
Proof.
  destruct (X7_reader_init_files_asserts
              (EdgeReader.mk 21 2 1 0 0 "out" [] [] [] [0] 0 0 0 0
                 EdgeReader.NULL false) empty_world) as [_ Hmissing].
  apply (Hmissing 0); try reflexivity.
  simpl. lia.
Defined.

(** X8.  A store written in sorted mode with no bucket cannot be told from
    an unsorted one.  A writer with zero buckets and at least one thread,
    not put in unsorted mode, opens and closes its store, and the metadata
    holds neither bucket lines nor file lines; [read_info] finds
    [num_bucket 0], takes the store for an unsorted one and fails the
    assertion on the first file line it expects. *)
Theorem X8_sorted_store_without_buckets w0 W0 u :
  closed w0 →
  EdgeWriter.num_buckets_ w0 = 0 →
  EdgeWriter.num_unsorted_edges_ w0 = [] →
  0 < EdgeWriter.num_threads_ w0 →
  ∃ W,
    sorted_store w0 W0 [] = Ret W
    ∧ (∃ ne, fs W !! info_file_name (EdgeWriter.file_prefix_ w0)
             = Some (Text [Lit "kmer_size"; Int (EdgeWriter.kmer_size_ w0);
                           Lit "words_per_edge";
                           Int (EdgeWriter.words_per_edge_ w0);
                           Lit "num_threads";
                           Int (EdgeWriter.num_threads_ w0);
                           Lit "num_bucket"; Int 0;
                           Lit "num_edges"; Int ne]))
    ∧ EdgeReader.read_info
        (EdgeReader.set_file_prefix (EdgeWriter.file_prefix_ w0)
           (EdgeReader.new u)) W = Abort AssertionFailed.
Proof.
  intros Hcl HB Hnu HN.
  destruct (init_files_ok w0 W0 Hcl ltac:(lia) ltac:(lia))
    as (w1 & W1 & Hinit & Hinv & _ & Hk & Hw & HN1 & HB1 & _ & Hnu1 & Hp).
  destruct (destroy_ok (length (streams W0)) w1 W1) as ([w' W'] & Hdes).
  { apply (inv_opened _ _ _ _ Hinv). }
  { intros t Ht. destruct (inv_thread _ _ _ _ Hinv t Ht) as (? & ? & _).
    eauto. }
  destruct (destroy_opened _ _ _ _ (inv_opened _ _ _ _ Hinv) Hdes)
    as (_ & HfsW).
  assert (EdgeWriter.p_rec_ w1 = []) as Hpr.
  { apply length_zero_iff_nil. rewrite (inv_prec_len _ _ _ _ Hinv). lia. }
  unfold EdgeWriter.info_text in HfsW.
  rewrite Hpr, Hnu1, Hnu, Hk, Hw, HN1, HB1, HB, Hp in HfsW. simpl in HfsW.
  exists W'. split.
  { unfold sorted_store. rewrite Hinit. simpl. by rewrite Hdes. }
  split.
  { eexists. rewrite HfsW. apply lookup_insert_eq. }
  unfold EdgeReader.read_info, EdgeReader.fopen_r. simpl.
  rewrite HfsW, lookup_insert_eq. simpl.
  unfold vresize. rewrite !decide_True by lia. simpl.
  destruct (Z.to_nat (EdgeWriter.num_threads_ w0)) as [|n] eqn:Hn; [lia|].
  done.
Qed.

Lemma X8_witness :
  ∃ W,
    sorted_store (ex_writer 0) empty_world [] = Ret W
    ∧ EdgeReader.read_info
        (EdgeReader.set_file_prefix "out" (EdgeReader.new ex_reader_memory))
        W = Abort AssertionFailed.
Proof.
  destruct (X8_sorted_store_without_buckets (ex_writer 0) empty_world
              ex_reader_memory (ex_writer_closed 0) eq_refl eq_refl)
    as (W & Hstore & _ & Hread).
  { by_computation. }
  exists W. split; [exact Hstore|exact Hread].
Defined.

Section reader_info.
Import EdgeReader.



End reader_info.






(** ** Unitig graph adapters *)

Section unitig_properties.
Import Unitig.
Context {VM : VertexModel}.

Lemma ReverseComplement_involutive (a : Adapter) :
  ReverseComplement (ReverseComplement a) = a.
Proof.
  destruct a as [v s i]. unfold ReverseComplement. simpl. f_equal.
  rewrite Z.lxor_assoc, Z.lxor_nilpotent. apply Z.lxor_0_r.
Qed.

(** C6.  From one and the same graph, [OutDegree] of an adapter and
    [InDegree] of its reverse complement return the same degree (and fail
    together), and so do [InDegree] of an adapter and [OutDegree] of its
    reverse complement. *)
Theorem C6_degree_symmetry (g : UnitigGraph) (a : Adapter) :
  fst <$> OutDegree g a
    = (λ x, x.1.1) <$> InDegree g (ReverseComplement a)
  ∧ (λ x, x.1.1) <$> InDegree g a
    = fst <$> OutDegree g (ReverseComplement a).
Proof.
  unfold InDegree. split.
  - rewrite (ReverseComplement_involutive a).
    destruct (OutDegree g a) as [[d g']|e]; reflexivity.
  - destruct (OutDegree g (ReverseComplement a)) as [[d g']|e]; reflexivity.
Qed.

End unitig_properties.

Section unitig_more.
Import Unitig.
Context {VM : VertexModel}.

Lemma MakeVertexAdapter_Ret g i s a :
  MakeVertexAdapter g i s = Ret a
  ↔ (∃ v, vec_at (vertices_ g) i = Ret v)
    ∧ a = {| vertex_ := Some i; strand_ := s; id_ := i |}.
Proof.
  unfold MakeVertexAdapter. destruct (vec_at (vertices_ g) i) as [v|e]; simpl.
  - split; [intros [= <-]; eauto | intros [_ ->]; done].
  - split; [done | intros [[v [=]] _]].
Qed.

(** The adapter built for a raw id begins with it whenever the vertex found
    in [id_map_] begins with it in one of its strands. *)
Lemma MakeVertexAdapterWithSdbgId_sound g x i v :
  id_map_ g !! x = Some i →
  vec_at (vertices_ g) i = Ret v →
  v_begin v 0 = x ∨ v_begin v 1 = x →
  ∃ a, MakeVertexAdapterWithSdbgId g x = Ret a
       ∧ begin_ g a = Ret x
       ∧ made_by_graph a
       ∧ strand_ a = (if decide (v_begin v 0 = x) then 0 else 1).
Proof.
  intros Hmap Hv Hb. unfold MakeVertexAdapterWithSdbgId. rewrite Hmap. simpl.
  unfold MakeVertexAdapter. rewrite Hv. simpl.
  unfold begin_ at 1, vertex_of. simpl. rewrite Hv. simpl.
  destruct (decide (v_begin v 0 ≠ x)) as [Hne|Heq].
  - eexists. split; [done|]. unfold begin_, vertex_of. simpl. rewrite Hv. simpl.
    change (Z.lxor 0 1) with 1.
    destruct Hb as [Hb|Hb]; [done|]. rewrite Hb.
    split; [done|]. split; [done|]. by rewrite decide_False.
  - apply dec_stable in Heq. eexists. split; [done|].
    unfold begin_, vertex_of. simpl. rewrite Hv. simpl. rewrite Heq.
    split; [done|]. split; [done|]. by rewrite decide_True.
Qed.


End unitig_more.

Section unitig_frames.
Import Unitig.
Context {VM : VertexModel}.

Lemma ends_kept_refl g : ends_kept g g.
Proof. repeat split; eauto. Qed.

Lemma vec_at_length {A B} (v : list A) (v' : list B) i :
  length v' = length v →
  (∃ x, vec_at v i = Ret x) → ∃ y, vec_at v' i = Ret y.
Proof.
  intros Hl [x Hx]. apply vec_at_Ret in Hx as [Hi Hx].
  apply lookup_lt_Some in Hx.
  destruct (lookup_lt_is_Some_2 v' (Z.to_nat i)) as [y Hy]; [lia|].
  exists y. apply vec_at_Ret. done.
Qed.

Lemma ends_kept_vertex g g' a :
  ends_kept g g' →
  match vertex_of g a, vertex_of g' a with
  | Ret v, Ret v' => ∀ s, v_begin v' s = v_begin v s ∧ v_end v' s = v_end v s
  | Abort e, Abort e' => e = e'
  | _, _ => False
  end.
Proof.
  intros (_ & _ & Hlen & Hv). unfold vertex_of.
  destruct (vertex_ a) as [i|]; [|done].
  destruct (vec_at (vertices_ g) i) as [v|e] eqn:Hg.
  - apply vec_at_Ret in Hg as [Hi Hg].
    destruct (Hv _ _ Hg) as (v' & Hv' & Hs).
    assert (vec_at (vertices_ g') i = Ret v') as -> by (by apply vec_at_Ret).
    done.
  - destruct (vec_at (vertices_ g') i) as [v'|e'] eqn:Hg'.
    + destruct (vec_at_length (vertices_ g') (vertices_ g) i) as [y Hy];
        [done|eauto|]. congruence.
    + apply vec_at_fault in Hg as [-> _]. apply vec_at_fault in Hg' as [-> _].
      done.
Qed.

Lemma ends_kept_begin g g' a : ends_kept g g' → begin_ g' a = begin_ g a.
Proof.
  intros Hk. pose proof (ends_kept_vertex g g' a Hk) as Hv.
  unfold begin_. destruct (vertex_of g a), (vertex_of g' a); simpl; try done.
  - f_equal. apply Hv.
  - congruence.
Qed.

Lemma ends_kept_end g g' a : ends_kept g g' → end_ g' a = end_ g a.
Proof.
  intros Hk. pose proof (ends_kept_vertex g g' a Hk) as Hv.
  unfold end_. destruct (vertex_of g a), (vertex_of g' a); simpl; try done.
  - f_equal. apply Hv.
  - congruence.
Qed.

(** What [GetNextAdapters] does to the graph. *)
Lemma GetNextAdapters_graph g a out d out' g' :
  GetNextAdapters g a out = Ret (d, out', g') →
  ∃ v, vertex_of g a = Ret v
       ∧ d = fan_out g v (strand_ a)
       ∧ ((v_cached_out_degree v (strand_ a) ≠ kUnknownDegree ∧ g' = g)
          ∨ (v_cached_out_degree v (strand_ a) = kUnknownDegree
             ∧ ∃ u, vec_at (vertices_ g) (id_ a) = Ret u
                    ∧ g' = with_vertices
                             (<[Z.to_nat (id_ a) :=
                                  v_set_cached_outdegree u (strand_ a) d]>
                                (vertices_ g)) g)).
Proof.
  unfold GetNextAdapters, end_, cached_out_degree. intros Hrun.
  destruct (vertex_of g a) as [v|e] eqn:Hv; [|done]. simpl in Hrun.
  exists v. split; [done|]. unfold fan_out.
  destruct (OutgoingEdges (sdbg_ g) (v_end v (strand_ a))) as [deg starts].
  apply bind_Ret in Hrun as (o & Ho & Hrun). simpl in Hrun.
  destruct (decide (v_cached_out_degree v (strand_ a) = kUnknownDegree))
    as [Hc|Hc].
  - apply bind_Ret in Hrun as (g1 & Hg1 & Hrun). injection Hrun as <- <- <-.
    split; [done|]. right. split; [done|].
    apply bind_Ret in Hg1 as (sudo & Hs & Hg1).
    apply MakeVertexAdapter_Ret in Hs as [[u Hu] ->].
    unfold set_cached_outdegree in Hg1. simpl in Hg1.
    unfold id in *. rewrite Hu in Hg1. simpl in Hg1.
    apply bind_Ret in Hg1 as (vs & Hvs & Hg1). injection Hg1 as <-.
    apply vec_set_Ret in Hvs as (_ & _ & ->). unfold strand. eauto.
  - simpl in Hrun. injection Hrun as <- <- <-. split; [done|]. by left.
Qed.

End unitig_frames.

Section unitig_cache.
Import Unitig.
Context {VM : VertexModel} {VL : VertexLaws}.

Lemma cache_filled_refl g : cache_filled g g.
Proof. repeat split; eauto. intros i v Hv. exists v. split; [done|]. auto. Qed.

Lemma cache_filled_ends_kept g g' : cache_filled g g' → ends_kept g g'.
Proof.
  intros (Hs & Hm & Hl & Hv). repeat split; try done.
  intros i v Hi. destruct (Hv i v Hi) as (v' & Hv' & Hall).
  exists v'. split; [done|]. intros s. destruct (Hall s) as (? & ? & _). done.
Qed.

Lemma insert_cache_filled g (n : nat) v s d :
  vertices_ g !! n = Some v →
  v_cached_out_degree v s = kUnknownDegree →
  d = fan_out g v s → 0 ≤ d ≤ 4 →
  cache_filled g
    (with_vertices (<[n := v_set_cached_outdegree v s d]> (vertices_ g)) g).
Proof.
  intros Hn Hc Hd Hb. repeat split; simpl; try done.
  - by rewrite length_insert.
  - intros i u Hu. destruct (decide (i = n)) as [->|Hne].
    + rewrite Hn in Hu. injection Hu as <-.
      exists (v_set_cached_outdegree v s d). split.
      * apply list_lookup_insert_eq. by eapply lookup_lt_Some.
      * intros s'. rewrite begin_set_cached, end_set_cached.
        split; [done|]. split; [done|].
        destruct (decide (s = s')) as [<-|Hs].
        -- right. split; [done|]. rewrite cached_set_same by done. done.
        -- left. by apply cached_set_other.
    + exists u. rewrite list_lookup_insert_ne by done. split; [done|]. auto.
Qed.

Lemma insert_ends_kept g (n : nat) v s d :
  vertices_ g !! n = Some v →
  ends_kept g
    (with_vertices (<[n := v_set_cached_outdegree v s d]> (vertices_ g)) g).
Proof.
  intros Hn. repeat split; simpl; try done.
  - by rewrite length_insert.
  - intros i u Hu. destruct (decide (i = n)) as [->|Hne].
    + rewrite Hn in Hu. injection Hu as <-.
      exists (v_set_cached_outdegree v s d). split.
      * apply list_lookup_insert_eq. by eapply lookup_lt_Some.
      * intros s'. by rewrite begin_set_cached, end_set_cached.
    + exists u. rewrite list_lookup_insert_ne by done. done.
Qed.

Lemma GetNextAdapters_ends_kept g a out d out' g' :
  GetNextAdapters g a out = Ret (d, out', g') → ends_kept g g'.
Proof.
  intros Hrun. apply GetNextAdapters_graph in Hrun
    as (v & Hv & Hd & [[_ ->]|(Hc & u & Hu & ->)]).
  - apply ends_kept_refl.
  - apply vec_at_Ret in Hu as [_ Hu]. by apply insert_ends_kept.
Qed.

Lemma GetNextAdapters_cache_filled g a out d out' g' :
  bounded_fan_out g → made_by_graph a →
  GetNextAdapters g a out = Ret (d, out', g') → cache_filled g g'.
Proof.
  intros Hb Hwf Hrun. apply GetNextAdapters_graph in Hrun
    as (v & Hv & Hd & [[_ ->]|(Hc & u & Hu & ->)]).
  - apply cache_filled_refl.
  - unfold vertex_of in Hv. rewrite Hwf in Hv. rewrite Hv in Hu.
    injection Hu as <-. apply vec_at_Ret in Hv as [_ Hv].
    apply insert_cache_filled; [done|done|done|].
    rewrite Hd. apply Hb.
Qed.

Lemma made_by_graph_ReverseComplement a :
  made_by_graph a → made_by_graph (ReverseComplement a).
Proof. done. Qed.

Lemma OutDegree_ends_kept g a d g' :
  OutDegree g a = Ret (d, g') → ends_kept g g'.
Proof.
  unfold OutDegree. intros Hrun.
  apply bind_Ret in Hrun as (c & Hc & Hrun).
  destruct (decide (c ≠ kUnknownDegree)).
  - apply bind_Ret in Hrun as (c' & _ & Hrun). injection Hrun as <- <-.
    exact (ends_kept_refl g).
  - apply bind_Ret in Hrun as ([[deg o] g1] & Hn & Hrun).
    injection Hrun as <- <-.
    exact (GetNextAdapters_ends_kept (miss g) a None deg o g1 Hn).
Qed.

Lemma OutDegree_cache_filled g a d g' :
  bounded_fan_out g → made_by_graph a →
  OutDegree g a = Ret (d, g') → cache_filled g g'.
Proof.
  unfold OutDegree. intros Hb Hwf Hrun.
  apply bind_Ret in Hrun as (c & Hc & Hrun).
  destruct (decide (c ≠ kUnknownDegree)).
  - apply bind_Ret in Hrun as (c' & _ & Hrun). injection Hrun as <- <-.
    exact (cache_filled_refl g).
  - apply bind_Ret in Hrun as ([[deg o] g1] & Hn & Hrun).
    injection Hrun as <- <-.
    exact (GetNextAdapters_cache_filled (miss g) a None deg o g1 Hb Hwf Hn).
Qed.

Lemma GetPrevAdapters_Ret g a out d a' out' g' :
  GetPrevAdapters g a out = Ret (d, a', out', g') →
  a' = a ∧ ∃ o, GetNextAdapters g (ReverseComplement a) out = Ret (d, o, g').
Proof.
  unfold GetPrevAdapters. intros Hrun.
  apply bind_Ret in Hrun as ([[deg o] g1] & Hn & Hrun).
  apply bind_Ret in Hrun as (o' & _ & Hrun).
  injection Hrun as <- <- <- <-.
  split; [apply ReverseComplement_involutive | eauto].
Qed.

Lemma InDegree_Ret g a d a' g' :
  InDegree g a = Ret (d, a', g') →
  a' = a ∧ OutDegree g (ReverseComplement a) = Ret (d, g').
Proof.
  unfold InDegree. intros Hrun.
  apply bind_Ret in Hrun as ([deg g1] & Hn & Hrun).
  injection Hrun as <- <- <-.
  split; [apply ReverseComplement_involutive | done].
Qed.

Lemma graph_after_cache_filled op g a g' :
  bounded_fan_out g → made_by_graph a →
  graph_after op g a = Ret g' → cache_filled g g'.
Proof.
  intros Hb Hwf. destruct op as [out|out| | | |]; simpl; intros Hrun.
  - apply bind_Ret in Hrun as ([[d o] g1] & Hn & Hrun). injection Hrun as <-.
    by eapply GetNextAdapters_cache_filled.
  - apply bind_Ret in Hrun as ([[[d a1] o] g1] & Hn & Hrun).
    injection Hrun as <-.
    apply GetPrevAdapters_Ret in Hn as (_ & o' & Hn).
    eapply GetNextAdapters_cache_filled; [done| |done].
    by apply made_by_graph_ReverseComplement.
  - apply bind_Ret in Hrun as ([d g1] & Hn & Hrun). injection Hrun as <-.
    by eapply OutDegree_cache_filled.
  - apply bind_Ret in Hrun as ([[d a1] g1] & Hn & Hrun). injection Hrun as <-.
    apply InDegree_Ret in Hn as (_ & Hn).
    eapply OutDegree_cache_filled; [done| |done].
    by apply made_by_graph_ReverseComplement.
  - apply bind_Ret in Hrun as (b & _ & Hrun). injection Hrun as <-.
    apply cache_filled_refl.
  - apply bind_Ret in Hrun as (b & _ & Hrun). injection Hrun as <-.
    apply cache_filled_refl.
Qed.

Lemma cache_filled_entry g g' i s c :
  cache_filled g g' →
  cache_entry g i s = Ret c → c ≠ kUnknownDegree →
  cache_entry g' i s = Ret c.
Proof.
  intros (_ & _ & _ & Hv) Hc Hk. unfold cache_entry in *.
  apply bind_Ret in Hc as (v & Hi & Hc). injection Hc as <-.
  apply vec_at_Ret in Hi as [Hi Hl].
  destruct (Hv _ _ Hl) as (v' & Hv' & Hs).
  assert (vec_at (vertices_ g') i = Ret v') as -> by (by apply vec_at_Ret).
  simpl. f_equal. destruct (Hs s) as (_ & _ & [Heq|[Hu _]]); [done|done].
Qed.

Lemma cache_filled_coherent g g' :
  cache_filled g g' → coherent g → coherent g'.
Proof.
  intros (Hs & _ & Hl & Hv) Hco i v' s Hi Hk.
  destruct (lookup_lt_is_Some_2 (vertices_ g) i) as [v Hgv].
  { rewrite <- Hl. by eapply lookup_lt_Some. }
  destruct (Hv _ _ Hgv) as (v2 & Hv2 & Hall). rewrite Hi in Hv2.
  injection Hv2 as <-. destruct (Hall s) as (_ & He & Hc).
  unfold fan_out in *. rewrite Hs, He.
  destruct Hc as [Hc|[_ Hc]]; [|done].
  rewrite Hc. apply (Hco i); [done|]. by rewrite <- Hc.
Qed.

(** In a coherent graph [OutDegree] returns the fan-out at the end of the
    adapter, from the cache or not. *)
Lemma OutDegree_value g a d g' :
  coherent g → made_by_graph a →
  OutDegree g a = Ret (d, g') →
  ∃ v, vertex_of g a = Ret v ∧ d = fan_out g v (strand_ a).
Proof.
  unfold OutDegree, cached_out_degree. intros Hco Hwf Hrun.
  destruct (vertex_of g a) as [v|e] eqn:Hv; [|done]. simpl in Hrun.
  exists v. split; [done|].
  destruct (decide (v_cached_out_degree v (strand_ a) ≠ kUnknownDegree))
    as [Hk|Hk].
  - change (vertex_of (hit g) a) with (vertex_of g a) in Hrun.
    rewrite Hv in Hrun. simpl in Hrun. injection Hrun as <- <-.
    unfold vertex_of in Hv. rewrite Hwf in Hv.
    apply vec_at_Ret in Hv as [_ Hv]. by eapply Hco.
  - apply bind_Ret in Hrun as ([[deg o] g1] & Hn & Hrun).
    injection Hrun as <- <-.
    apply GetNextAdapters_graph in Hn as (v1 & Hv1 & Hd & _).
    change (vertex_of (miss g) a) with (vertex_of g a) in Hv1.
    rewrite Hv in Hv1. injection Hv1 as <-. done.
Qed.

End unitig_cache.

Section unitig_claims.
Import Unitig.
Context {VM : VertexModel} {VL : VertexLaws}.





End unitig_claims.

Section unitig_claims2.
Import Unitig.
Context {VM : VertexModel} {VL : VertexLaws}.

Lemma coherent_all_unknown (g : UnitigGraph) :
  (∀ (i : nat) v s, vertices_ g !! i = Some v →
                    v_cached_out_degree v s = kUnknownDegree) →
  coherent g.
Proof. intros Hall i v s Hv Hk. by destruct Hk; eapply Hall. Qed.

(** C8.  For an adapter made by the graph, over a succinct graph whose
    fan-out is at most 4:
    - [GetNextAdapters] leaves the graph as it is when the cached out-degree
      of the adapter is known, and otherwise makes it the degree it returns;
    - whatever the operation, a cache entry that is known keeps its value;
    - in a graph whose known entries are the fan-outs of their strands (as
      they are while the succinct graph is not changed, every operation
      keeping it so), [OutDegree] returns what [GetNextAdapters] without an
      output buffer computes, from the cache or not. *)
Theorem C8_degree_cache (g : UnitigGraph) (a : Adapter) :
  bounded_fan_out g → made_by_graph a →
  (∀ out d out' g' c,
     GetNextAdapters g a out = Ret (d, out', g') →
     cached_out_degree g a = Ret c →
     (c ≠ kUnknownDegree → g' = g)
     ∧ (c = kUnknownDegree → cached_out_degree g' a = Ret d))
  ∧ (∀ op g' i s c,
       graph_after op g a = Ret g' →
       cache_entry g i s = Ret c → c ≠ kUnknownDegree →
       cache_entry g' i s = Ret c)
  ∧ (coherent g →
     (∀ op g', graph_after op g a = Ret g' → coherent g')
     ∧ ∀ d g', OutDegree g a = Ret (d, g') →
         ∃ o g'', GetNextAdapters g a None = Ret (d, o, g'')).
Proof.
  intros Hb Hwf. split; [|split].
  - intros out d out' g' c Hrun Hc.
    pose proof (GetNextAdapters_graph _ _ _ _ _ _ Hrun)
      as (v & Hv & Hd & Hcase).
    unfold cached_out_degree in *. rewrite Hv in Hc. injection Hc as <-.
    destruct Hcase as [[Hk ->]|(Hk & u & Hu & ->)].
    + split; [done|]. intros ?. done.
    + split; [intros ?; done|]. intros _.
      unfold vertex_of in *. rewrite Hwf in *. simpl.
      rewrite Hv in Hu. injection Hu as <-.
      apply vec_at_Ret in Hv as [Hi Hv].
      assert (vec_at (<[Z.to_nat (id_ a) :=
                          v_set_cached_outdegree v (strand_ a) d]>
                        (vertices_ g)) (id_ a)
              = Ret (v_set_cached_outdegree v (strand_ a) d)) as ->.
      { apply vec_at_Ret. split; [done|]. apply list_lookup_insert_eq.
        by eapply lookup_lt_Some. }
      simpl. rewrite cached_set_same; [done|]. rewrite Hd. apply Hb.
  - intros op g' i s c Hrun Hc Hk.
    eapply cache_filled_entry; [|done|done].
    by eapply graph_after_cache_filled.
  - intros Hco. split.
    + intros op g' Hrun. eapply cache_filled_coherent; [|done].
      by eapply graph_after_cache_filled.
    + intros d g' Hrun.
      destruct (OutDegree_value _ _ _ _ Hco Hwf Hrun) as (v & Hv & Hd).
      unfold GetNextAdapters, end_, cached_out_degree. rewrite Hv. simpl.
      unfold fan_out in Hd.
      destruct (OutgoingEdges (sdbg_ g) (v_end v (strand_ a)))
        as [deg starts]. simpl in *. subst deg.
      destruct (decide (v_cached_out_degree v (strand_ a) = kUnknownDegree)).
      * unfold MakeVertexAdapter, id, strand, set_cached_outdegree.
        unfold vertex_of in Hv. rewrite Hwf in Hv. rewrite Hv. simpl.
        rewrite Hv. simpl.
        destruct (vec_set (vertices_ g) (id_ a)
                    (v_set_cached_outdegree v (strand_ a) d)) as [vs|err] eqn:Hs.
        -- simpl. eauto.
        -- apply vec_at_Ret in Hv as [Hi Hv]. apply lookup_lt_Some in Hv.
           unfold vec_set in Hs. rewrite decide_True in Hs by done.
           rewrite decide_True in Hs by done. done.
      * simpl. eauto.
Qed.

(** C9.  [GetPrevAdapters], [InDegree] and [PrevSimplePathAdapter] return
    their input adapter as it was given -- the same strand, id and vertex,
    hence the same [begin()] and [end()], also in the graph the call leaves
    -- after applying the forward operation to its reverse complement. *)
Theorem C9_input_adapter_restored (g : UnitigGraph) (a : Adapter) :
  (∀ out d a' out' g',
     GetPrevAdapters g a out = Ret (d, a', out', g') →
     a' = a ∧ strand a' = strand a ∧ id a' = id a
     ∧ begin_ g' a' = begin_ g a ∧ end_ g' a' = end_ g a
     ∧ ∃ o, GetNextAdapters g (ReverseComplement a) out = Ret (d, o, g'))
  ∧ (∀ d a' g',
       InDegree g a = Ret (d, a', g') →
       a' = a ∧ strand a' = strand a ∧ id a' = id a
       ∧ begin_ g' a' = begin_ g a ∧ end_ g' a' = end_ g a
       ∧ OutDegree g (ReverseComplement a) = Ret (d, g'))
  ∧ (∀ b a',
       PrevSimplePathAdapter g a = Ret (b, a') →
       a' = a ∧ strand a' = strand a ∧ id a' = id a
       ∧ ∃ b', NextSimplePathAdapter g (ReverseComplement a) = Ret b'
               ∧ b = ReverseComplement b').
Proof.
  split; [|split].
  - intros out d a' out' g' Hrun.
    apply GetPrevAdapters_Ret in Hrun as (-> & o & Hn).
    pose proof (GetNextAdapters_ends_kept _ _ _ _ _ _ Hn) as Hk.
    rewrite (ends_kept_begin g g' a Hk), (ends_kept_end g g' a Hk). eauto 10.
  - intros d a' g' Hrun. apply InDegree_Ret in Hrun as (-> & Hn).
    pose proof (OutDegree_ends_kept _ _ _ _ Hn) as Hk.
    rewrite (ends_kept_begin g g' a Hk), (ends_kept_end g g' a Hk). eauto 10.
  - intros b a' Hrun. unfold PrevSimplePathAdapter in Hrun.
    apply bind_Ret in Hrun as (r & Hr & Hrun). injection Hrun as <- <-.
    rewrite ReverseComplement_involutive. eauto 10.
Qed.

End unitig_claims2.

Module UnitigExample.
Import Unitig.

#[local] Existing Instance table_model.

#[local] Instance table_laws : VertexLaws.
Proof.
  split; simpl.
  - intros v s d _. by rewrite decide_True.
  - intros v s s' d Hne. by rewrite decide_False.
  - done.
  - done.
Qed.

Lemma ex_graph_bounded : bounded_fan_out ex_graph.
Proof. intros e. simpl. case_decide; simpl; lia. Qed.

Lemma ex_graph_coherent : coherent ex_graph.
Proof.
  intros i v s Hv Hk. destruct Hk.
  destruct i as [|[|[|i]]]; simpl in Hv; by simplify_eq.
Qed.

Lemma ex_graph_unmapped_names_vertices :
  id_map_names_vertices ex_graph_unmapped.
Proof.
  intros x i Hx. simpl in Hx.
  repeat (apply lookup_insert_Some in Hx as [[<- <-]|[_ Hx]];
          [eexists; reflexivity|]).
  by rewrite lookup_empty in Hx.
Qed.

End UnitigExample.

Import Unitig.



Lemma C8_witness :
  let a := {| vertex_ := Some 0; strand_ := 0; id_ := 0 |} in
  ∃ g', OutDegree ex_graph a = Ret (2, g')
        ∧ ∃ o g'', GetNextAdapters ex_graph a None
                   = Ret (2, o, g'').
Proof.
  intros a. eexists. split; [vm_compute; reflexivity|].
  destruct (C8_degree_cache (VL := UnitigExample.table_laws)
              ex_graph a UnitigExample.ex_graph_bounded eq_refl)
    as (_ & _ & Hvalue).
  destruct (Hvalue UnitigExample.ex_graph_coherent) as [_ Hsame].
  eapply Hsame. vm_compute. reflexivity.
Defined.

Lemma C9_witness :
  let a := {| vertex_ := Some 0; strand_ := 1; id_ := 0 |} in
  ∃ d a' out' g',
    GetPrevAdapters ex_graph a None = Ret (d, a', out', g')
    ∧ a' = a
    ∧ begin_ g' a' = Ret 12.
Proof.
  intros a. eexists _, _, _, _. split; [vm_compute; reflexivity|].
  match goal with
  | |- ?x = a ∧ begin_ ?g ?x = _ =>
      destruct (C9_input_adapter_restored (VL := UnitigExample.table_laws)
                  ex_graph a)
        as (Hprev & _ & _);
      destruct (Hprev None 2 x None g ltac:(vm_compute; reflexivity))
        as (Ha & _ & _ & Hb & _)
  end.
  split; [exact Ha|]. rewrite Hb. reflexivity.
Defined.

(** ** Further properties of the adapter algorithms *)

Section unitig_extras.
Import Unitig.
Context {VM : VertexModel} {VL : VertexLaws}.

(** What the cache of an adapter made by the graph holds once a fan-out was
    written to it. *)
Lemma cached_after_fill g a v d :
  made_by_graph a → vertex_of g a = Ret v → 0 ≤ d ≤ 4 →
  cached_out_degree
    (with_vertices
       (<[Z.to_nat (id_ a) := v_set_cached_outdegree v (strand_ a) d]>
          (vertices_ g)) g) a
  = Ret d.
Proof.
  intros Hwf Hv Hd. unfold cached_out_degree, vertex_of in *.
  rewrite Hwf in *. simpl.
  apply vec_at_Ret in Hv as [Hi Hv].
  assert (vec_at (<[Z.to_nat (id_ a) :=
                      v_set_cached_outdegree v (strand_ a) d]>
                    (vertices_ g)) (id_ a)
          = Ret (v_set_cached_outdegree v (strand_ a) d)) as ->.
  { apply vec_at_Ret. split; [done|]. apply list_lookup_insert_eq.
    by eapply lookup_lt_Some. }
  simpl. by rewrite cached_set_same.
Qed.

Lemma OutDegree_again g a d g1 :
  bounded_fan_out g → made_by_graph a →
  ¬ (0 ≤ kUnknownDegree ≤ 4) →
  OutDegree g a = Ret (d, g1) →
  OutDegree g1 a = Ret (d, hit g1).
Proof.
  intros Hb Hwf Hsent. unfold OutDegree at 1. intros Hrun.
  apply bind_Ret in Hrun as (c & Hc & Hrun).
  destruct (decide (c ≠ kUnknownDegree)) as [Hk|Hk].
  - apply bind_Ret in Hrun as (c' & Hc' & Hrun). injection Hrun as <- <-.
    assert (cached_out_degree (hit g) a = Ret c) as Hc2 by exact Hc.
    assert (c' = c) as -> by congruence.
    unfold OutDegree. rewrite Hc2. simpl. rewrite decide_True by done.
    assert (cached_out_degree (hit (hit g)) a = Ret c) as -> by exact Hc.
    done.
  - apply dec_stable in Hk.
    apply bind_Ret in Hrun as ([[d' o] g'] & Hnext & Hrun).
    injection Hrun as -> ->.
    pose proof (GetNextAdapters_graph _ _ _ _ _ _ Hnext)
      as (v & Hv & Hd & Hcase).
    assert (v_cached_out_degree v (strand_ a) = kUnknownDegree) as Hunk.
    { unfold cached_out_degree in Hc.
      assert (vertex_of g a = Ret v) as Hv' by exact Hv.
      rewrite Hv' in Hc. simpl in Hc. congruence. }
    destruct Hcase as [[Hkn _]|(_ & u & Hu & ->)]; [done|].
    assert (0 ≤ d ≤ 4) as Hrange by (rewrite Hd; apply Hb).
    assert (u = v) as ->.
    { unfold vertex_of in Hv. rewrite Hwf in Hv. congruence. }
    pose proof (cached_after_fill (miss g) a v d Hwf Hv Hrange) as Hcached.
    unfold OutDegree. rewrite Hcached. simpl.
    rewrite decide_True by (intros ->; lia).
    match goal with
    | |- (c ← cached_out_degree (hit ?g2) a; _) = _ =>
        assert (cached_out_degree (hit g2) a = Ret d) as -> by exact Hcached
    end.
    done.
Qed.

(** X10.  A degree asked twice is computed once.  For an adapter made by
    the graph, over a succinct graph of fan-out at most 4 and with a
    sentinel [kUnknownDegree] that is no fan-out: when [OutDegree] returned
    a degree, the next [OutDegree] of the adapter returns the same degree
    from the cache, adding one to [count_cache_used] and changing nothing
    else; and when [InDegree] returned a degree, the next [InDegree] of the
    adapter and the next [OutDegree] of its reverse complement do the
    same. *)
Theorem X10_second_degree_query_hits_the_cache
    (g : UnitigGraph) (a : Adapter) :
  bounded_fan_out g → made_by_graph a →
  ¬ (0 ≤ kUnknownDegree ≤ 4) →
  (∀ d g1, OutDegree g a = Ret (d, g1) →
           OutDegree g1 a = Ret (d, hit g1))
  ∧ (∀ d a' g1, InDegree g a = Ret (d, a', g1) →
                InDegree g1 a = Ret (d, a, hit g1)
                ∧ OutDegree g1 (ReverseComplement a) = Ret (d, hit g1)).
Proof.
  intros Hb Hwf Hsent. split.
  - intros d g1. by apply OutDegree_again.
  - intros d a' g1 Hin. apply InDegree_Ret in Hin as [_ Hout].
    assert (OutDegree g1 (ReverseComplement a) = Ret (d, hit g1)) as Hagain.
    { eapply OutDegree_again; [done| |done|exact Hout].
      by apply made_by_graph_ReverseComplement. }
    split; [|done]. unfold InDegree. rewrite Hagain. simpl.
    by rewrite ReverseComplement_involutive.
Qed.

(** X11.  The adapter operations change nothing but degree caches and the
    two counters.  Whatever the operation, the graph it leaves has the
    succinct graph, the [id_map_] and the number of vertices it had, every
    adapter has the [begin()] and [end()] it had, and
    [MakeVertexAdapterWithSdbgId] makes for every raw id the adapter it
    made before. *)
Theorem X11_adapter_operations_keep_the_graph_shape
    (op : adapter_op) (g g' : UnitigGraph) (a : Adapter) :
  graph_after op g a = Ret g' →
  sdbg_ g' = sdbg_ g
  ∧ id_map_ g' = id_map_ g
  ∧ length (vertices_ g') = length (vertices_ g)
  ∧ (∀ b, begin_ g' b = begin_ g b ∧ end_ g' b = end_ g b)
  ∧ (∀ x, MakeVertexAdapterWithSdbgId g' x = MakeVertexAdapterWithSdbgId g x).
Proof.
  intros Hrun.
  assert (ends_kept g g') as Hk.
  { destruct op; simpl in Hrun.
    - apply bind_Ret in Hrun as ([[d o] g1] & Hnext & Hrun).
      injection Hrun as <-. by eapply GetNextAdapters_ends_kept.
    - apply bind_Ret in Hrun as ([[[d a1] o] g1] & Hprev & Hrun).
      injection Hrun as <-.
      apply GetPrevAdapters_Ret in Hprev as (_ & o' & Hnext).
      by eapply GetNextAdapters_ends_kept.
    - apply bind_Ret in Hrun as ([d g1] & Hout & Hrun).
      injection Hrun as <-. by eapply OutDegree_ends_kept.
    - apply bind_Ret in Hrun as ([[d a1] g1] & Hin & Hrun).
      injection Hrun as <-. apply InDegree_Ret in Hin as [_ Hout].
      by eapply OutDegree_ends_kept.
    - apply bind_Ret in Hrun as (b & _ & Hrun). injection Hrun as <-.
      apply ends_kept_refl.
    - apply bind_Ret in Hrun as (b & _ & Hrun). injection Hrun as <-.
      apply ends_kept_refl. }
  pose proof Hk as (Hs & Hm & Hl & _).
  repeat (split; [done|]). split.
  - intros b. split; [by apply ends_kept_begin|by apply ends_kept_end].
  - intros x. unfold MakeVertexAdapterWithSdbgId. rewrite Hm.
    destruct (id_map_ g !! x) as [i|]; [|done]. simpl.
    unfold MakeVertexAdapter.
    destruct (vec_at (vertices_ g) i) as [v|e] eqn:Hv.
    + destruct (vec_at_length (vertices_ g) (vertices_ g') i Hl
                  ltac:(eauto)) as (v' & Hv').
      rewrite Hv'. simpl. by rewrite (ends_kept_begin g g' _ Hk).
    + destruct (vec_at (vertices_ g') i) as [v'|e'] eqn:Hv'.
      * destruct (vec_at_length (vertices_ g') (vertices_ g) i
                    (eq_sym Hl) ltac:(eauto)) as (v0 & Hv0). congruence.
      * apply vec_at_fault in Hv as [-> _].
        apply vec_at_fault in Hv' as [-> _]. done.
Qed.

(** Filling or flipping the output array writes its first entries only. *)
Lemma for_range_frame {A} (body : Z → list A → res (list A)) n buf buf' :
  (∀ i b b', 0 ≤ i → body i b = Ret b' →
     ∃ x, b' = <[Z.to_nat i := x]> b ∧ (Z.to_nat i < length b)%nat) →
  for_range 0 n body buf = Ret buf' →
  length buf' = length buf
  ∧ (n ≤ length buf)%nat
  ∧ ∀ k, (n ≤ k)%nat → buf' !! k = buf !! k.
Proof.
  intros Hbody Hrun.
  set (P := λ (i : Z) (b : list A),
         0 ≤ i ∧ length b = length buf ∧ (Z.to_nat i ≤ length buf)%nat
         ∧ ∀ k, (Z.to_nat i ≤ k)%nat → b !! k = buf !! k).
  assert (P (0 + Z.of_nat n) buf') as (_ & Hl & Hn & Hrest).
  { apply (for_range_Ret_inv P body n 0 buf buf'); [| |exact Hrun].
    - unfold P. repeat split; (lia || done).
    - intros i b b' Hi (Hi0 & Hlen & _ & Hold) Hstep.
      destruct (Hbody i b b' Hi0 Hstep) as (x & -> & Hlt).
      unfold P. rewrite length_insert. split; [lia|]. split; [done|].
      split; [lia|]. intros k Hk.
      rewrite list_lookup_insert_ne by lia. apply Hold. lia. }
  split; [done|]. split; [lia|]. intros k Hk. apply Hrest. lia.
Qed.

Lemma vec_set_insert {A} (v v' : list A) i x :
  vec_set v i x = Ret v' →
  v' = <[Z.to_nat i := x]> v ∧ 0 ≤ i ∧ (Z.to_nat i < length v)%nat.
Proof.
  unfold vec_set. destruct (decide (0 ≤ i)); [|done].
  destruct (decide (Z.to_nat i < length v)%nat); [|done].
  by intros [= <-].
Qed.

(** X12.  What [GetNextAdapters] and [GetPrevAdapters] leave of the output
    array.  When a call with an output array returns degree [d], the array
    is at least [d] long and has the length it had, and its entries from
    index [d] on are the ones it held before the call. *)
Theorem X12_output_array_is_written_up_to_the_degree
    (g : UnitigGraph) (a : Adapter) (buf : list Adapter) :
  (∀ d o g', GetNextAdapters g a (Some buf) = Ret (d, o, g') →
     ∃ buf', o = Some buf'
             ∧ length buf' = length buf
             ∧ d ≤ Z.of_nat (length buf)
             ∧ ∀ k, d ≤ Z.of_nat k → buf' !! k = buf !! k)
  ∧ (∀ d a' o g', GetPrevAdapters g a (Some buf) = Ret (d, a', o, g') →
       ∃ buf', o = Some buf'
               ∧ length buf' = length buf
               ∧ d ≤ Z.of_nat (length buf)
               ∧ ∀ k, d ≤ Z.of_nat k → buf' !! k = buf !! k).
Proof.
  assert (∀ b d o g', GetNextAdapters g b (Some buf) = Ret (d, o, g') →
            ∃ buf', o = Some buf'
                    ∧ length buf' = length buf
                    ∧ (Z.to_nat d ≤ length buf)%nat
                    ∧ ∀ k, (Z.to_nat d ≤ k)%nat → buf' !! k = buf !! k)
    as Hnext.
  { intros b d o g'. unfold GetNextAdapters. intros Hrun.
    apply bind_Ret in Hrun as (e & _ & Hrun).
    destruct (OutgoingEdges (sdbg_ g) e) as [deg starts].
    apply bind_Ret in Hrun as (o1 & Ho & Hrun).
    apply bind_Ret in Hrun as (c & _ & Hrun).
    apply bind_Ret in Hrun as (g1 & _ & Hrun).
    injection Hrun as -> -> ->.
    apply bind_Ret in Ho as (buf' & Hloop & Ho). injection Ho as <-.
    exists buf'. split; [done|].
    apply (for_range_frame (fill_out g starts)); [|done].
    intros i b0 b' Hi Hstep. unfold fill_out in Hstep.
    apply bind_Ret in Hstep as (x & _ & Hstep).
    apply bind_Ret in Hstep as (a1 & _ & Hstep).
    apply vec_set_insert in Hstep as (-> & _ & Hlt). eauto. }
  split.
  - intros d o g' Hrun.
    destruct (Hnext a d o g' Hrun) as (buf' & -> & Hl & Hd & Hrest).
    exists buf'. split; [done|]. split; [done|]. split; [lia|].
    intros k Hk. apply Hrest. lia.
  - intros d a' o g'. unfold GetPrevAdapters. intros Hrun.
    apply bind_Ret in Hrun as ([[d1 o1] g1] & Hn & Hrun).
    apply bind_Ret in Hrun as (o2 & Ho & Hrun).
    injection Hrun as -> _ -> ->.
    destruct (Hnext _ _ _ _ Hn) as (buf1 & -> & Hl & Hd & Hrest).
    apply bind_Ret in Ho as (buf2 & Hloop & Ho). injection Ho as <-.
    destruct (for_range_frame flip_out (Z.to_nat d) buf1 buf2)
      as (Hl2 & _ & Hrest2); [|done|].
    { intros i b0 b' Hi Hstep. unfold flip_out in Hstep.
      apply bind_Ret in Hstep as (x & _ & Hstep).
      apply vec_set_insert in Hstep as (-> & _ & Hlt). eauto. }
    exists buf2. split; [done|]. split; [congruence|]. split; [lia|].
    intros k Hk. rewrite Hrest2 by lia. apply Hrest. lia.
Qed.

(** X13.  [id_map_] is consulted for the output array only.  For an adapter
    made by the graph whose vertex exists, [GetNextAdapters] without an
    output array returns the fan-out the succinct graph reports, whatever
    [id_map_] holds.  With an output array that is long enough, over an
    [id_map_] whose entries are indices of vertices of the graph, it stops
    with the exception of [id_map_.at] as soon as one of the outgoing edges
    is no key of [id_map_]. *)
Theorem X13_id_map_is_needed_for_the_output_array_only
    (g : UnitigGraph) (a : Adapter) (v : Vertex) :
  made_by_graph a → vertex_of g a = Ret v →
  (∃ g', GetNextAdapters g a None
         = Ret (fan_out g v (strand_ a), None, g'))
  ∧ (∀ buf j x,
       id_map_names_vertices g →
       0 ≤ j < fan_out g v (strand_ a) →
       fan_out g v (strand_ a) ≤ Z.of_nat (length buf) →
       fan_out g v (strand_ a)
       ≤ Z.of_nat (length (OutgoingEdges (sdbg_ g) (v_end v (strand_ a))).2) →
       vec_at (OutgoingEdges (sdbg_ g) (v_end v (strand_ a))).2 j = Ret x →
       id_map_ g !! x = None →
       GetNextAdapters g a (Some buf) = Abort KeyNotFound).
Proof.
  intros Hwf Hv. split.
  - unfold GetNextAdapters, end_, cached_out_degree, fan_out.
    rewrite Hv. simpl.
    destruct (OutgoingEdges (sdbg_ g) (v_end v (strand_ a)))
      as [deg starts]. simpl.
    destruct (decide (v_cached_out_degree v (strand_ a) = kUnknownDegree));
      [|simpl; eauto].
    unfold MakeVertexAdapter, id, strand, set_cached_outdegree.
    unfold vertex_of in Hv. rewrite Hwf in Hv. rewrite Hv. simpl.
    rewrite Hv. simpl.
    apply vec_at_Ret in Hv as [Hi Hv]. apply lookup_lt_Some in Hv.
    rewrite vec_set_ok by lia. simpl. eauto.
  - intros buf j x Hsound Hj Hbuf Hstarts Hx Hnone.
    unfold GetNextAdapters, end_, fan_out in *. rewrite Hv. simpl.
    destruct (OutgoingEdges (sdbg_ g) (v_end v (strand_ a)))
      as [deg starts]. simpl in *.
    rewrite (for_range_abort
               (λ (_ : Z) (b : list Adapter), length b = length buf)
               (fill_out g starts) KeyNotFound); [done|done| |].
    + intros i b Hi Hlen. unfold fill_out.
      destruct (lookup_lt_is_Some_2 starts (Z.to_nat i)) as [y Hy]; [lia|].
      assert (vec_at starts i = Ret y) as ->
        by (apply vec_at_Ret; split; [lia|done]).
      simpl. unfold MakeVertexAdapterWithSdbgId.
      destruct (id_map_ g !! y) as [n|] eqn:Hn; [|by right].
      left. destruct (Hsound y n Hn) as (u & Hu). simpl.
      unfold MakeVertexAdapter. rewrite Hu. simpl.
      unfold begin_, vertex_of. simpl. rewrite Hu. simpl.
      rewrite vec_set_ok by lia. eexists. split; [done|].
      by rewrite length_insert.
    + exists j. split; [lia|]. intros b Hlen. unfold fill_out.
      rewrite Hx. simpl. unfold MakeVertexAdapterWithSdbgId.
      by rewrite Hnone.
Qed.

(** X14.  Looking an adapter up by its [begin()] finds its vertex.  For the
    adapter [MakeVertexAdapter] makes of vertex [i] in strand 0 or 1, if
    [id_map_] sends its [begin()] to [i], then [MakeVertexAdapterWithSdbgId]
    of that raw id returns an adapter of vertex [i] with the same [begin()];
    it is in the same strand too, unless the vertex begins with the same raw
    id in both strands, in which case strand 0 is taken. *)
Theorem X14_lookup_by_begin_finds_the_vertex
    (g : UnitigGraph) (i s : Z) (a : Adapter) (x : Z) :
  s = 0 ∨ s = 1 →
  MakeVertexAdapter g i s = Ret a →
  begin_ g a = Ret x →
  id_map_ g !! x = Some i →
  ∃ b v,
    MakeVertexAdapterWithSdbgId g x = Ret b
    ∧ vec_at (vertices_ g) i = Ret v
    ∧ made_by_graph a ∧ made_by_graph b
    ∧ id b = i
    ∧ begin_ g b = Ret x
    ∧ (strand b = s ∨ (v_begin v 0 = v_begin v 1 ∧ strand b = 0)).
Proof.
  intros Hs Hmake Hbegin Hmap.
  apply MakeVertexAdapter_Ret in Hmake as [[v Hv] ->].
  unfold begin_, vertex_of in Hbegin. simpl in Hbegin.
  rewrite Hv in Hbegin. simpl in Hbegin. injection Hbegin as Hx.
  assert (v_begin v 0 = x ∨ v_begin v 1 = x) as Hends
    by (destruct Hs as [-> | ->]; auto).
  destruct (MakeVertexAdapterWithSdbgId_sound g x i v Hmap Hv Hends)
    as (b & Hb & Hbeg & Hwf & Hstrand).
  exists b, v. split; [done|]. split; [done|]. split; [done|].
  split; [done|].
  assert (id b = i) as Hid.
  { unfold MakeVertexAdapterWithSdbgId in Hb. rewrite Hmap in Hb.
    simpl in Hb. unfold MakeVertexAdapter in Hb. rewrite Hv in Hb.
    simpl in Hb. apply bind_Ret in Hb as (y & _ & Hb).
    injection Hb as <-. by case_decide. }
  split; [done|]. split; [done|]. unfold strand. rewrite Hstrand.
  destruct (decide (v_begin v 0 = x)) as [H0|H0].
  - destruct Hs as [-> | ->]; [by left|]. right. split; [congruence|done].
  - destruct Hs as [-> | ->]; [done|by left].
Qed.

End unitig_extras.

Lemma X10_witness :
  let a := {| vertex_ := Some 0; strand_ := 0; id_ := 0 |} in
  ∃ g1, OutDegree ex_graph a = Ret (2, g1)
        ∧ OutDegree g1 a = Ret (2, hit g1)
        ∧ count_cache_missed g1 = 1.
Proof.
  intros a.
  eassert (OutDegree ex_graph a = Ret (2, _)) as Hfirst
    by (vm_compute; reflexivity).
  destruct (X10_second_degree_query_hits_the_cache
              (VL := UnitigExample.table_laws) ex_graph a
              UnitigExample.ex_graph_bounded eq_refl) as [Hout _].
  { simpl. lia. }
  eexists. split; [exact Hfirst|]. split; [exact (Hout _ _ Hfirst)|].
  reflexivity.
Defined.

Lemma X11_witness :
  let a := {| vertex_ := Some 0; strand_ := 0; id_ := 0 |} in
  ∃ g', graph_after OpOutDegree ex_graph a = Ret g'
        ∧ id_map_ g' = id_map_ ex_graph
        ∧ MakeVertexAdapterWithSdbgId g' 20
          = MakeVertexAdapterWithSdbgId ex_graph 20.
Proof.
  intros a.
  eassert (graph_after OpOutDegree ex_graph a = Ret _) as Hrun
    by (vm_compute; reflexivity).
  destruct (X11_adapter_operations_keep_the_graph_shape
              (VL := UnitigExample.table_laws) _ _ _ _ Hrun)
    as (_ & Hmap & _ & _ & Hmake).
  eexists. split; [exact Hrun|]. split; [exact Hmap|exact (Hmake 20)].
Defined.

Lemma X12_witness :
  let a := {| vertex_ := Some 0; strand_ := 0; id_ := 0 |} in
  let stale := {| vertex_ := Some 2; strand_ := 1; id_ := 2 |} in
  ∃ buf' g',
    GetNextAdapters ex_graph a (Some [Adapter_empty; Adapter_empty; stale])
    = Ret (2, Some buf', g')
    ∧ length buf' = 3%nat
    ∧ buf' !! 2%nat = Some stale.
Proof.
  intros a stale.
  eassert (GetNextAdapters ex_graph a
             (Some [Adapter_empty; Adapter_empty; stale])
           = Ret (2, Some _, _)) as Hrun by (vm_compute; reflexivity).
  destruct (X12_output_array_is_written_up_to_the_degree
              (VM := table_model) ex_graph a
              [Adapter_empty; Adapter_empty; stale]) as [Hnext _].
  destruct (Hnext _ _ _ Hrun) as (buf' & Ho & Hlen & _ & Hrest).
  injection Ho as <-.
  eexists _, _. split; [exact Hrun|]. split; [exact Hlen|].
  rewrite (Hrest 2%nat) by lia. reflexivity.
Defined.

Lemma X13_witness :
  let a := {| vertex_ := Some 0; strand_ := 0; id_ := 0 |} in
  (∃ g', GetNextAdapters ex_graph_unmapped a None = Ret (2, None, g'))
  ∧ GetNextAdapters ex_graph_unmapped a
      (Some [Adapter_empty; Adapter_empty])
    = Abort KeyNotFound.
Proof.
  intros a.
  eassert (vertex_of ex_graph_unmapped a = Ret _) as Hv
    by (vm_compute; reflexivity).
  destruct (X13_id_map_is_needed_for_the_output_array_only
              (VM := table_model) ex_graph_unmapped a _ eq_refl Hv)
    as [Hnone Hsome].
  split; [exact Hnone|].
  apply (Hsome _ 1 30).
  - exact UnitigExample.ex_graph_unmapped_names_vertices.
  - by_computation.
  - by_computation.
  - by_computation.
  - reflexivity.
  - reflexivity.
Defined.

Lemma X14_witness :
  ∃ a b,
    MakeVertexAdapter ex_graph 1 1 = Ret a
    ∧ MakeVertexAdapterWithSdbgId ex_graph 20 = Ret b
    ∧ id b = 1 ∧ strand b = 1.
Proof.
  eassert (MakeVertexAdapter ex_graph 1 1 = Ret _) as Hmake
    by (vm_compute; reflexivity).
  destruct (X14_lookup_by_begin_finds_the_vertex
              (VM := table_model) ex_graph 1 1 _ 20
              (or_intror eq_refl) Hmake eq_refl eq_refl)
    as (b & v & Hb & Hv & _ & _ & Hid & _ & Hstrand).
  eexists _, b. split; [exact Hmake|]. split; [exact Hb|].
  split; [exact Hid|].
  destruct Hstrand as [Hs|[Hpal _]]; [exact Hs|].
  injection Hv as <-. discriminate Hpal.
Defined.
